(** * Dungeon Escape: the game-state engine of [main.cpp]

    A shallow embedding of the game logic (section 1 of [main.cpp]), of
    the gameplay screen that drives it (section 3), and of [Game] with
    the menu, the name-input and the game-over screen (sections 2 and
    4), followed by the properties of the specification that concern
    them and by further properties of the code.

    Conventions of the embedding.
    - C++ [int] is [Z], a value of the type lying between [INT_MIN] and
      [INT_MAX].  [Player::takeDamage] and [Player::heal] combine the
      health with an argument of the call; their difference and their sum
      are taken as the 32-bit two's-complement [int] of the build keeps
      them ([wrap_int]), the language leaving signed overflow undefined.
      [moves--] is the decrement in [Z].  Every value a session computes
      stays far from the limits (health within 0..100, moves within
      0..10, see [reachable_ranges]).
    - [size_t] is the integers modulo 2^64 ([size_t], from [Zmod]): the
      [count] of a [Stack] is incremented and decremented as the machine
      does it.  The size and the capacity of an [Inventory], which only
      grow, are [nat].
    - A [Room*] is [option nat]: [None] is [nullptr], [Some a] the address
      of a room in the store [Dungeon.rooms].  [new Room] appends to the
      store.  Following a pointer that refers to no room is undefined in
      C++; the embedding reads it as a null pointer, and no session forms
      such a pointer (again [reachable_ranges]).
    - [std::unique_ptr<Entity>] is [option Entity]; the dynamic type of the
      entity, which the code inspects with [dynamic_cast], is the
      constructor and its class tag.
    - [throw std::runtime_error] is the [Throw] result.
    - Clocks are not modelled: the tests [t >= 1.0f] of the two fade
      transitions are boolean inputs of a tick.  Drawing, sprites, screen
      shake and the damage flash are left out; of the texts of the panel
      the strings are kept, not their layout. *)

From Stdlib Require Import ZArith Lia Bool String Ascii List DecimalString Zmod.
From stdpp Require Import base list strings sorting.

Local Open Scope Z_scope.

(* ================================================================= *)
(** ** Results of code that may throw *)

Inductive Result (A : Type) : Type :=
| Ok (a : A)
| Throw (what : string).
Arguments Ok {A} a.
Arguments Throw {A} what.

Definition rbind {A B : Type} (r : Result A) (k : A -> Result B) : Result B :=
  match r with
  | Ok a => k a
  | Throw w => Throw w
  end.

Notation "'do' x <- r ; k" := (rbind r (fun x => k))
  (at level 10, x name, r at level 100, k at level 200).

(** [int]: 32 bits, two's complement.  A value of type [int] is a [Z]
    between [INT_MIN] and [INT_MAX]; [wrap_int] is what the machine keeps
    of a sum or a difference that leaves that range. *)
Definition INT_MIN : Z := -2147483648.
Definition INT_MAX : Z := 2147483647.

Definition wrap_int (z : Z) : Z := (z - INT_MIN) mod 2 ^ 32 + INT_MIN.
Arguments wrap_int : simpl never.

(** [std::to_string] and [operator<<] on an [int]. *)
Definition to_string (z : Z) : string := NilZero.string_of_int (Z.to_int z).

(** [hay.find(needle) != std::string::npos]. *)
Fixpoint contains (needle hay : string) : bool :=
  String.prefix needle hay ||
  match hay with
  | EmptyString => false
  | String _ rest => contains needle rest
  end.

(** [a <= b] for [operator<] of [std::string]: the bytes compared as
    unsigned values, a proper prefix below what it prefixes. *)
Definition string_le (a b : string) : Prop := String.leb a b = true.

#[export] Instance string_le_dec (a b : string) : Decision (string_le a b).
Proof. unfold string_le. apply _. Defined.

(** The loops that write the elements of an array to a stream with a
    separator after each but the last. *)
Fixpoint join (sep : string) (l : list string) : string :=
  match l with
  | [] => ""
  | x :: rest =>
      match rest with
      | [] => x
      | _ :: _ => x +:+ sep +:+ join sep rest
      end
  end.

(** [s.pop_back()] on a string that is not empty. *)
Fixpoint pop_back (s : string) : string :=
  match s with
  | EmptyString => EmptyString
  | String c rest =>
      match rest with
      | EmptyString => EmptyString
      | String _ _ => String c (pop_back rest)
      end
  end.

(* ================================================================= *)
(** ** Entities *)

(** The classes below [Item] and below [Enemy]; [BaseItem] and [BaseEnemy]
    are objects of the two (concrete) base classes themselves. *)
Inductive ItemClass := BaseItem | Weapon | Potion | Key.
Inductive EnemyClass := BaseEnemy | MinionEnemy | BossEnemy.

Inductive Entity :=
| Item (c : ItemClass) (name : string)
| Enemy (c : EnemyClass) (name : string) (damage : Z).

Definition getName (e : Entity) : string :=
  match e with
  | Item _ n => n
  | Enemy _ n _ => n
  end.

Definition getDescription (e : Entity) : string :=
  match e with
  | Item BaseItem n => "You see a " +:+ n +:+ "."
  | Item Weapon n => "A powerful " +:+ n +:+ " rests here."
  | Item Potion n => "A bubbling " +:+ n +:+ " is on a pedestal."
  | Item Key n => "A shiny " +:+ n +:+ " catches your eye."
  | Enemy _ n _ => "DANGER! A " +:+ n +:+ " blocks your path."
  end.

(** The [dynamic_cast]s the code performs, as tests on the dynamic type. *)
Definition is_Weapon (e : Entity) : bool :=
  match e with Item Weapon _ => true | _ => false end.
Definition is_Potion (e : Entity) : bool :=
  match e with Item Potion _ => true | _ => false end.
Definition is_Item (e : Entity) : bool :=
  match e with Item _ _ => true | _ => false end.
Definition is_Enemy (e : Entity) : bool :=
  match e with Enemy _ _ _ => true | _ => false end.
Definition is_BossEnemy (e : Entity) : bool :=
  match e with Enemy BossEnemy _ _ => true | _ => false end.

(* ================================================================= *)
(** ** [Stack<T>]: the chain of nodes is a list, top first *)

(** [size_t]: the integers modulo 2^64.  [n++] and [n--] wrap around:
    [incr] of 2^64 - 1 is 0 and [decr] of 0 is 2^64 - 1. *)
Definition size_t : Type := Zmod (2 ^ 64).

Definition incr (n : size_t) : size_t := Zmod.add n Zmod.one.
Definition decr (n : size_t) : size_t := Zmod.sub n Zmod.one.
Arguments incr : simpl never.
Arguments decr : simpl never.

Module Stack.
Section WithElem.
Context {T : Type}.

Record t := mk { topNode : list T; count : size_t }.

Definition empty : t := mk [] Zmod.zero.

Definition isEmpty (s : t) : bool :=
  match topNode s with [] => true | _ :: _ => false end.

Definition size (s : t) : size_t := count s.

Definition push (value : T) (s : t) : t :=
  mk (value :: topNode s) (incr (count s)).

Definition pop (s : t) : t :=
  if isEmpty s then s
  else mk (tail (topNode s)) (decr (count s)).

Definition top (s : t) : Result T :=
  match topNode s with
  | [] => Throw "Stack is empty."
  | data :: _ => Ok data
  end.
End WithElem.
Arguments t : clear implicits.
End Stack.

(* ================================================================= *)
(** ** [Inventory<T>]: the used prefix of the array, and its capacity *)

Module Inventory.
Section WithItem.
Context {T : Type} `{EqDecision T}.

Record t := mk { items : list T; capacity : nat }.

Definition empty : t := mk [] 0.

Definition current_size (inv : t) : nat := length (items inv).

Definition resize (inv : t) : t :=
  mk (items inv) (if Nat.eqb (capacity inv) 0 then 2 else capacity inv * 2)%nat.

Definition add (item : T) (inv : t) : t :=
  let inv := if Nat.eqb (current_size inv) (capacity inv) then resize inv else inv in
  mk (items inv ++ [item]) (capacity inv).

Definition has (item : T) (inv : t) : bool :=
  existsb (fun x => bool_decide (x = item)) (items inv).

Definition size (inv : t) : nat := current_size inv.
End WithItem.
Arguments t : clear implicits.

(** [getSortedString], for an inventory of strings.  [std::sort] leaves
    the copy of the items in non-decreasing order of [operator<]; equal
    strings being the same string, that order determines the array, and
    [merge_sort] computes it.  The loop then writes the elements with
    ", " between them. *)
Definition getSortedString (inv : t string) : string :=
  if Nat.eqb (current_size inv) 0 then "Empty"
  else join ", " (merge_sort string_le (items inv)).
End Inventory.

(* ================================================================= *)
(** ** [Player] *)

Module Player.
Record t := mk {
  name : string;
  health : Z;
  moves : Z;
  inventory : Inventory.t string;
  finalBossDefeated : bool
}.

Definition new (n : string) (h m : Z) : t := mk n h m Inventory.empty false.

Definition set_health (h : Z) (p : t) : t :=
  mk (name p) h (moves p) (inventory p) (finalBossDefeated p).
Definition set_moves (m : Z) (p : t) : t :=
  mk (name p) (health p) m (inventory p) (finalBossDefeated p).
Definition set_inventory (i : Inventory.t string) (p : t) : t :=
  mk (name p) (health p) (moves p) i (finalBossDefeated p).

Definition getHealth (p : t) : Z := health p.
Definition getMoves (p : t) : Z := moves p.
Definition isFinalBossDefeated (p : t) : bool := finalBossDefeated p.

(** [health -= damage], then the test against 0.  Returns the new player
    and the text of the message. *)
Definition takeDamage (damage : Z) (p : t) : t * string :=
  let h := wrap_int (health p - damage) in
  let h := if h <? 0 then 0 else h in
  (set_health h p, "You took " +:+ to_string damage +:+ " damage!").

(** [health = std::min(100, health + amount)] *)
Definition heal (amount : Z) (p : t) : t :=
  set_health (Z.min 100 (wrap_int (health p + amount))) p.

Definition useMove (p : t) : t := set_moves (moves p - 1) p.

Definition collectItem (item : string) (p : t) : t :=
  set_inventory (Inventory.add item (inventory p)) p.

Definition hasItem (item : string) (p : t) : bool :=
  Inventory.has item (inventory p).

Definition setBossDefeated (status : bool) (p : t) : t :=
  mk (name p) (health p) (moves p) (inventory p) status.
End Player.

(* ================================================================= *)
(** ** [Room] *)

Definition RoomPtr := option nat.

Module Room.
Record t := mk {
  name : string;
  description : string;
  entity : option Entity;
  next : RoomPtr;
  isFinalDoor : bool;
  isChoiceRoom : bool;
  backgroundID : string
}.

Definition new (n d bgID : string) : t := mk n d None None false false bgID.

Definition set_description (d : string) (r : t) : t :=
  mk (name r) d (entity r) (next r) (isFinalDoor r) (isChoiceRoom r) (backgroundID r).
Definition set_entity (e : option Entity) (r : t) : t :=
  mk (name r) (description r) e (next r) (isFinalDoor r) (isChoiceRoom r) (backgroundID r).
Definition set_next (n : RoomPtr) (r : t) : t :=
  mk (name r) (description r) (entity r) n (isFinalDoor r) (isChoiceRoom r) (backgroundID r).
Definition set_isFinalDoor (b : bool) (r : t) : t :=
  mk (name r) (description r) (entity r) (next r) b (isChoiceRoom r) (backgroundID r).
Definition set_isChoiceRoom (b : bool) (r : t) : t :=
  mk (name r) (description r) (entity r) (next r) (isFinalDoor r) b (backgroundID r).
End Room.

(** [Item::interact]: the new player and [interactionResult]. *)
Definition Item_interact (c : ItemClass) (n : string) (player : Player.t)
  : Player.t * string :=
  match c with
  | Potion =>
      (Player.heal 100 player, "You drank the potion and feel fully restored!")
  | _ =>
      (Player.collectItem n player, "You picked up the " +:+ n +:+ ".")
  end.

(** The virtual [interact]: [Enemy::interact] and [BossEnemy::interact]
    only clear the result. *)
Definition interact (e : Entity) (player : Player.t) : Player.t * string :=
  match e with
  | Item c n => Item_interact c n player
  | Enemy _ _ _ => (player, "")
  end.

(* ================================================================= *)
(** ** [Dungeon]

    The member [Player& player] refers to the one player of the session,
    the object [game.playerLogic] points to; the embedding keeps that
    object in the field [player], and [playerLogic] below reads it from
    there.  [rooms] is the store of the [Room] objects. *)

Module Dungeon.
Record t := mk {
  rooms : list Room.t;
  head : RoomPtr;
  currentRoom : RoomPtr;
  player : Player.t;
  path_tracker : Stack.t RoomPtr
}.

Definition new (p : Player.t) : t := mk [] None None p Stack.empty.

Definition set_rooms (h : list Room.t) (d : t) : t :=
  mk h (head d) (currentRoom d) (player d) (path_tracker d).
Definition set_currentRoom (c : RoomPtr) (d : t) : t :=
  mk (rooms d) (head d) c (player d) (path_tracker d).
Definition set_player (p : Player.t) (d : t) : t :=
  mk (rooms d) (head d) (currentRoom d) p (path_tracker d).
Definition set_path_tracker (s : Stack.t RoomPtr) (d : t) : t :=
  mk (rooms d) (head d) (currentRoom d) (player d) s.

(** The room a pointer refers to; [None] for [nullptr] (and for an
    address outside the store, which the program never forms). *)
Definition deref (d : t) (p : RoomPtr) : option Room.t :=
  match p with
  | Some a => rooms d !! a
  | None => None
  end.

(** [p->next]. *)
Definition next_of (d : t) (p : RoomPtr) : RoomPtr :=
  match deref d p with
  | Some r => Room.next r
  | None => None
  end.

(** An assignment to fields of the room at [p]. *)
Definition update_room (p : RoomPtr) (f : Room.t -> Room.t) (d : t) : t :=
  match p with
  | Some a =>
      match rooms d !! a with
      | Some r => set_rooms (<[a := f r]> (rooms d)) d
      | None => d
      end
  | None => d
  end.

(** [new Room(...)]: the extended store and the address. *)
Definition alloc (r : Room.t) (d : t) : t * nat :=
  (set_rooms (rooms d ++ [r]) d, length (rooms d)).

(** The loop [while (temp->next) temp = temp->next], with the length of
    the store as fuel. *)
Fixpoint last_room (fuel : nat) (d : t) (temp : nat) : nat :=
  match fuel with
  | O => temp
  | S fuel' =>
      match next_of d (Some temp) with
      | Some n => last_room fuel' d n
      | None => temp
      end
  end.

Definition addRoom (newRoom : nat) (d : t) : t :=
  match head d with
  | None => mk (rooms d) (Some newRoom) (Some newRoom) (player d) (path_tracker d)
  | Some h =>
      let temp := last_room (length (rooms d)) d h in
      update_room (Some temp) (Room.set_next (Some newRoom)) d
  end.

Definition getCurrentRoom (d : t) : RoomPtr := currentRoom d.

Definition canMoveBack (d : t) : bool := negb (Stack.isEmpty (path_tracker d)).

Definition canMoveForward (d : t) : bool :=
  match currentRoom d with
  | None => false
  | Some _ =>
      match next_of d (currentRoom d) with
      | Some _ => true
      | None => false
      end
  end.

Definition moveForward (d : t) : t :=
  if canMoveForward d then
    let d := set_player (Player.useMove (player d)) d in
    let d := set_path_tracker (Stack.push (currentRoom d) (path_tracker d)) d in
    set_currentRoom (next_of d (currentRoom d)) d
  else d.

Definition moveBack (d : t) : Result t :=
  if canMoveBack d then
    let d := set_player (Player.useMove (player d)) d in
    do r <- Stack.top (path_tracker d);
    let d := set_currentRoom r d in
    Ok (set_path_tracker (Stack.pop (path_tracker d)) d)
  else Ok d.
End Dungeon.

(** [setupDungeon]: the nine rooms, their entities and flags, linked in
    order. *)
Definition setupDungeon (dungeon : Dungeon.t) : Dungeon.t :=
  let '(d, entrance) := Dungeon.alloc (Room.new "Dungeon Entrance" "The heavy stone door slams shut behind you. Your only way is forward." "dungeon.png") dungeon in
  let '(d, wizardStudy) := Dungeon.alloc (Room.new "Sanctum of Fire and Frost" "You dare enter my domain, mortal? The fire and frost bend to my will. If you wish to pass, you must defeat me first." "wizard.png") d in
  let '(d, dragonLair) := Dungeon.alloc (Room.new "Dragon's Lair" "The air is hot and smells of sulfur. A scaly beast awakens from its slumber." "dragon.png") d in
  let '(d, zombieCrypt) := Dungeon.alloc (Room.new "Zombie's Crypt" "Dust swirls through shafts of cold light. From the gloom, a corpse lurches forward with dead, hungry eyes." "zombie.png") d in
  let '(d, weaponRoom) := Dungeon.alloc (Room.new "Chamber of the Cursed Blades" "Dark swords float mid-air, glowing with runes. A red sigil burns behind them, pulsing with power." "sword.png") d in
  let '(d, choiceRoom) := Dungeon.alloc (Room.new "Room of Choice" "The hooded figure looks up from his book. 'You can only take one,' he says. 'The golden key... or the potion that gives you health'" "potion.png") d in
  let '(d, monsterDen) := Dungeon.alloc (Room.new "Giant Monster's Den" "Huge claw marks scar the walls. A hulking creature guards the path ahead." "monster.png") d in
  let '(d, bossChamber) := Dungeon.alloc (Room.new "Final Boss Chamber" "This is it. The final guardian." "finalboss.png") d in
  let '(d, finalDoor) := Dungeon.alloc (Room.new "The Final Door" "You see a massive, ornate door with a single large keyhole. This must be the exit." "finaldoor.png") d in
  let d := Dungeon.update_room (Some wizardStudy) (Room.set_entity (Some (Enemy MinionEnemy "Wizard" 10))) d in
  let d := Dungeon.update_room (Some dragonLair) (Room.set_entity (Some (Enemy MinionEnemy "Dragon" 15))) d in
  let d := Dungeon.update_room (Some zombieCrypt) (Room.set_entity (Some (Enemy MinionEnemy "Zombie" 5))) d in
  let d := Dungeon.update_room (Some weaponRoom) (Room.set_entity (Some (Item Weapon "Sword"))) d in
  let d := Dungeon.update_room (Some choiceRoom) (Room.set_isChoiceRoom true) d in
  let d := Dungeon.update_room (Some monsterDen) (Room.set_entity (Some (Enemy MinionEnemy "Giant Monster" 10))) d in
  let d := Dungeon.update_room (Some bossChamber) (Room.set_entity (Some (Enemy BossEnemy "Final Boss" 75))) d in
  let d := Dungeon.update_room (Some finalDoor) (Room.set_isFinalDoor true) d in
  let d := Dungeon.addRoom entrance d in
  let d := Dungeon.addRoom wizardStudy d in
  let d := Dungeon.addRoom dragonLair d in
  let d := Dungeon.addRoom zombieCrypt d in
  let d := Dungeon.addRoom weaponRoom d in
  let d := Dungeon.addRoom choiceRoom d in
  let d := Dungeon.addRoom monsterDen d in
  let d := Dungeon.addRoom bossChamber d in
  Dungeon.addRoom finalDoor d.

(* ================================================================= *)
(** ** The game and its gameplay screen *)

Module GameStateID.
Inductive t := NONE | MENU | NAME_INPUT | GAMEPLAY | GAME_OVER.
Definition eqb (a b : t) : bool :=
  match a, b with
  | NONE, NONE | MENU, MENU | NAME_INPUT, NAME_INPUT
  | GAMEPLAY, GAMEPLAY | GAME_OVER, GAME_OVER => true
  | _, _ => false
  end.
End GameStateID.

Module TransitionState.
Inductive t := NONE | FADING_OUT | FADING_IN.
End TransitionState.

Module GpTransitionState.
Inductive t := NONE | FADING_OUT | FADING_IN.
End GpTransitionState.

Inductive InteractionState := EXPLORING | COMBAT | CHOICE | MESSAGE.

(** The key codes of [sf::Keyboard] the screens test for; [OtherKey] is
    any other key. *)
Module Keyboard.
Inductive Key :=
  F | B | C | Q | R | Num1 | Numpad1 | Num2 | Numpad2 | Enter | Escape | OtherKey.
End Keyboard.

(** An [sf::Event]: a key press, or an event of another type. *)
Inductive Event :=
| KeyPressed (code : Keyboard.Key)
| OtherEvent.

(** The closures [handleEvent] hands to [startTransition], one
    constructor per lambda, with what the lambda captures. *)
Inductive Callback :=
| call_moveForward
| call_moveBack
| call_collectSword (room : RoomPtr)
| call_handleCombat
| call_handleChoice (choice : Z)
| call_continue.

(** [GameOverScreen]: what its constructor is given; [win] is the test
    the constructor makes on the reason. *)
Record GameOverScreen := mkGameOverScreen {
  reason : string;
  finalBgId : string
}.

Definition win (s : GameOverScreen) : bool := contains "VICTORIOUS" (reason s).

(** The state of a gameplay session: the members of [Game] that the game
    logic uses ([screens[GAME_OVER]] is [gameOverScreen]), then the
    members of the [GamePlayScreen] of the session. *)
Record Game := mkGame {
  currentStateID : GameStateID.t;
  nextStateID : GameStateID.t;
  currentTransition : TransitionState.t;
  gameOverScreen : option GameOverScreen;
  dungeonLogic : Dungeon.t;
  currentState : InteractionState;
  transitionState : GpTransitionState.t;
  onTransitionComplete : option Callback;
  message : string;
  actionsLog : list string;
  m_isNewRoomEntry : bool
}.

Definition playerLogic (g : Game) : Player.t := Dungeon.player (dungeonLogic g).

Definition set_nextStateID (x : GameStateID.t) (g : Game) : Game :=
  mkGame (currentStateID g) x (currentTransition g) (gameOverScreen g)
    (dungeonLogic g) (currentState g) (transitionState g)
    (onTransitionComplete g) (message g) (actionsLog g) (m_isNewRoomEntry g).
Definition set_currentStateID (x : GameStateID.t) (g : Game) : Game :=
  mkGame x (nextStateID g) (currentTransition g) (gameOverScreen g)
    (dungeonLogic g) (currentState g) (transitionState g)
    (onTransitionComplete g) (message g) (actionsLog g) (m_isNewRoomEntry g).
Definition set_currentTransition (x : TransitionState.t) (g : Game) : Game :=
  mkGame (currentStateID g) (nextStateID g) x (gameOverScreen g)
    (dungeonLogic g) (currentState g) (transitionState g)
    (onTransitionComplete g) (message g) (actionsLog g) (m_isNewRoomEntry g).
Definition set_gameOverScreen (x : option GameOverScreen) (g : Game) : Game :=
  mkGame (currentStateID g) (nextStateID g) (currentTransition g) x
    (dungeonLogic g) (currentState g) (transitionState g)
    (onTransitionComplete g) (message g) (actionsLog g) (m_isNewRoomEntry g).
Definition set_dungeonLogic (x : Dungeon.t) (g : Game) : Game :=
  mkGame (currentStateID g) (nextStateID g) (currentTransition g) (gameOverScreen g)
    x (currentState g) (transitionState g)
    (onTransitionComplete g) (message g) (actionsLog g) (m_isNewRoomEntry g).
Definition set_currentState (x : InteractionState) (g : Game) : Game :=
  mkGame (currentStateID g) (nextStateID g) (currentTransition g) (gameOverScreen g)
    (dungeonLogic g) x (transitionState g)
    (onTransitionComplete g) (message g) (actionsLog g) (m_isNewRoomEntry g).
Definition set_transitionState (x : GpTransitionState.t) (g : Game) : Game :=
  mkGame (currentStateID g) (nextStateID g) (currentTransition g) (gameOverScreen g)
    (dungeonLogic g) (currentState g) x
    (onTransitionComplete g) (message g) (actionsLog g) (m_isNewRoomEntry g).
Definition set_onTransitionComplete (x : option Callback) (g : Game) : Game :=
  mkGame (currentStateID g) (nextStateID g) (currentTransition g) (gameOverScreen g)
    (dungeonLogic g) (currentState g) (transitionState g)
    x (message g) (actionsLog g) (m_isNewRoomEntry g).
Definition set_message (x : string) (g : Game) : Game :=
  mkGame (currentStateID g) (nextStateID g) (currentTransition g) (gameOverScreen g)
    (dungeonLogic g) (currentState g) (transitionState g)
    (onTransitionComplete g) x (actionsLog g) (m_isNewRoomEntry g).
Definition set_actionsLog (x : list string) (g : Game) : Game :=
  mkGame (currentStateID g) (nextStateID g) (currentTransition g) (gameOverScreen g)
    (dungeonLogic g) (currentState g) (transitionState g)
    (onTransitionComplete g) (message g) x (m_isNewRoomEntry g).
Definition set_m_isNewRoomEntry (x : bool) (g : Game) : Game :=
  mkGame (currentStateID g) (nextStateID g) (currentTransition g) (gameOverScreen g)
    (dungeonLogic g) (currentState g) (transitionState g)
    (onTransitionComplete g) (message g) (actionsLog g) x.

(** Assignments through [game.playerLogic] and through a room pointer. *)
Definition set_playerLogic (p : Player.t) (g : Game) : Game :=
  set_dungeonLogic (Dungeon.set_player p (dungeonLogic g)) g.
Definition update_room (p : RoomPtr) (f : Room.t -> Room.t) (g : Game) : Game :=
  set_dungeonLogic (Dungeon.update_room p f (dungeonLogic g)) g.

(** The room [game.dungeonLogic->getCurrentRoom()] points to. *)
Definition currentRoomObj (g : Game) : option Room.t :=
  Dungeon.deref (dungeonLogic g) (Dungeon.getCurrentRoom (dungeonLogic g)).

Definition MAX_LOG_SIZE : nat := 4.

Definition nl : string := String "010"%char EmptyString.

Definition SWORD_ROOM : string := "Chamber of the Cursed Blades".

(** [Game::changeScreen] *)
Definition changeScreen (newStateID : GameStateID.t) (g : Game) : Game :=
  match currentTransition g with
  | TransitionState.NONE =>
      if negb (GameStateID.eqb newStateID (currentStateID g)) then
        set_currentTransition TransitionState.FADING_OUT (set_nextStateID newStateID g)
      else g
  | _ => g
  end.

(** [GamePlayScreen::startTransition] *)
Definition startTransition (callback : Callback) (g : Game) : Game :=
  match transitionState g with
  | GpTransitionState.NONE =>
      set_onTransitionComplete (Some callback)
        (set_transitionState GpTransitionState.FADING_OUT g)
  | _ => g
  end.

(** [GamePlayScreen::addAction]; the front of the deque is the head. *)
Definition addAction (action : string) (g : Game) : Game :=
  if String.eqb action "" ||
     match actionsLog g with
     | [] => false
     | front :: _ => String.eqb action front
     end
  then g
  else
    let log := action :: actionsLog g in
    set_actionsLog (if (MAX_LOG_SIZE <? length log)%nat then removelast log else log) g.

(** [GamePlayScreen::triggerGameOver] *)
Definition triggerGameOver (reason : string) (g : Game) : Game :=
  let bg :=
    match Dungeon.getCurrentRoom (dungeonLogic g) with
    | Some _ =>
        match currentRoomObj g with
        | Some r => Room.backgroundID r
        | None => "dungeon.png"
        end
    | None => "dungeon.png"
    end in
  changeScreen GameStateID.GAME_OVER
    (set_gameOverScreen (Some (mkGameOverScreen reason bg)) g).

(** [GamePlayScreen::handleItemInteraction] *)
Definition handleItemInteraction (g : Game) : Game :=
  match currentRoomObj g with
  | None => g
  | Some room =>
      match Room.entity room with
      | None => g
      | Some (Enemy _ _ _) => g
      | Some (Item c n) =>
          let '(p, result) := Item_interact c n (playerLogic g) in
          let g := set_playerLogic p g in
          let g := addAction result g in
          let g := update_room (Dungeon.getCurrentRoom (dungeonLogic g))
                     (fun r => Room.set_entity None (Room.set_description result r)) g in
          set_currentState EXPLORING g
      end
  end.

(** [GamePlayScreen::checkRoomState] *)
Definition checkRoomState (g : Game) : Game :=
  match currentRoomObj g with
  | None => g
  | Some room =>
      let g :=
        if m_isNewRoomEntry g then
          set_m_isNewRoomEntry false (addAction ("Entered The " +:+ Room.name room) g)
        else g in
      if Room.isFinalDoor room then
        if Player.hasItem "Golden Key" (playerLogic g)
           && Player.isFinalBossDefeated (playerLogic g) then
          triggerGameOver "You used the Golden key and escaped. You are VICTORIOUS!" g
        else if Player.hasItem "Golden Key" (playerLogic g) then
          triggerGameOver "The final door is locked tight. The boss must be defeated!" g
        else
          triggerGameOver "The final door is locked. You needed the Golden Key." g
      else
        match Room.entity room with
        | Some e =>
            if is_Weapon e && String.eqb (Room.name room) SWORD_ROOM then
              set_currentState EXPLORING g
            else if is_Enemy e then
              set_currentState COMBAT g
            else
              handleItemInteraction g
        | None =>
            if Room.isChoiceRoom room then set_currentState CHOICE g
            else set_currentState EXPLORING g
        end
  end.

(** [GamePlayScreen::handleCombat] *)
Definition handleCombat (g : Game) : Game :=
  match currentRoomObj g with
  | None => g
  | Some room =>
      match Room.entity room with
      | None => g
      | Some (Item _ _) => g
      | Some (Enemy c enemyName damage as enemy) =>
          let g := addAction ("Fought the " +:+ enemyName) g in
          let '(effectiveDamage, msg) :=
            if is_BossEnemy enemy then
              if Player.hasItem "Sword" (playerLogic g) then
                (50, "Your Sword glows, weakening the boss!" +:+ nl)
              else
                (damage, "You are unarmed against the mighty boss!" +:+ nl)
            else (damage, "") in
          let '(p, damageResult) := Player.takeDamage effectiveDamage (playerLogic g) in
          let g := set_playerLogic p g in
          let g := set_message (msg +:+ damageResult) g in
          if Player.getHealth (playerLogic g) <=? 0 then
            let g := addAction ("You were slain by the " +:+ enemyName) g in
            triggerGameOver "You have died in combat." g
          else
            let g := addAction ("Defeated the " +:+ enemyName) g in
            let g :=
              if is_BossEnemy enemy then
                addAction "The final boss is defeated!"
                  (set_playerLogic (Player.setBossDefeated true (playerLogic g)) g)
              else g in
            let g := update_room (Dungeon.getCurrentRoom (dungeonLogic g))
                       (fun r =>
                          Room.set_entity None
                            (Room.set_description
                               ("You defeated the " +:+ enemyName
                                +:+ ". The way is clear. (You took "
                                +:+ to_string effectiveDamage +:+ " damage)") r)) g in
            set_currentState MESSAGE g
      end
  end.

(** [GamePlayScreen::handleChoice] *)
Definition handleChoice (choice : Z) (g : Game) : Game :=
  match currentRoomObj g with
  | None => g
  | Some room =>
      if negb (Room.isChoiceRoom room) then g
      else
        let here := Dungeon.getCurrentRoom (dungeonLogic g) in
        let g :=
          if choice =? 1 then
            let g := set_playerLogic (Player.collectItem "Golden Key" (playerLogic g)) g in
            let g := addAction "You took the Golden Key." g in
            update_room here (Room.set_description "You took the Golden Key.") g
          else
            let g := set_playerLogic (Player.heal 100 (playerLogic g)) g in
            let g := addAction "You drank the Health Potion." g in
            update_room here (Room.set_description "You drank the Health Potion.") g in
        let g := update_room here (Room.set_isChoiceRoom false) g in
        set_currentState EXPLORING g
  end.

(** The test [room && room->entity && dynamic_cast<Weapon*>(...) &&
    room->name == "Chamber of the Cursed Blades"] of [handleEvent]. *)
Definition inSwordRoomWithSword (g : Game) : bool :=
  match currentRoomObj g with
  | Some room =>
      match Room.entity room with
      | Some e => is_Weapon e && String.eqb (Room.name room) SWORD_ROOM
      | None => false
      end
  | None => false
  end.

(** [GamePlayScreen::handleEvent] *)
Definition handleEvent (event : Event) (g : Game) : Game :=
  match event with
  | OtherEvent => g
  | KeyPressed code =>
      match transitionState g with
      | GpTransitionState.NONE =>
          match currentState g with
          | EXPLORING =>
              match code with
              | Keyboard.F =>
                  if Player.getMoves (playerLogic g) <=? 0 then
                    triggerGameOver "You have run out of moves." g
                  else if Dungeon.canMoveForward (dungeonLogic g) then
                    startTransition call_moveForward g
                  else g
              | Keyboard.B =>
                  if Player.getMoves (playerLogic g) <=? 0 then
                    triggerGameOver "You have run out of moves." g
                  else if Dungeon.canMoveBack (dungeonLogic g) then
                    startTransition call_moveBack g
                  else g
              | Keyboard.C =>
                  if inSwordRoomWithSword g then
                    startTransition
                      (call_collectSword (Dungeon.getCurrentRoom (dungeonLogic g))) g
                  else g
              | Keyboard.Q =>
                  if negb (inSwordRoomWithSword g) then changeScreen GameStateID.MENU g
                  else g
              | _ => g
              end
          | COMBAT =>
              match code with
              | Keyboard.F => startTransition call_handleCombat g
              | Keyboard.R =>
                  triggerGameOver "You fled in terror!" (addAction "Fled in terror!" g)
              | _ => g
              end
          | CHOICE =>
              match code with
              | Keyboard.Num1 | Keyboard.Numpad1 => startTransition (call_handleChoice 1) g
              | Keyboard.Num2 | Keyboard.Numpad2 => startTransition (call_handleChoice 2) g
              | _ => g
              end
          | MESSAGE =>
              match code with
              | Keyboard.Enter => startTransition call_continue g
              | _ => g
              end
          end
      | _ => g
      end
  end.

(** Running the closure stored in [onTransitionComplete]. *)
Definition runCallback (cb : Callback) (g : Game) : Result Game :=
  match cb with
  | call_moveForward =>
      let g := set_m_isNewRoomEntry true g in
      Ok (set_dungeonLogic (Dungeon.moveForward (dungeonLogic g)) g)
  | call_moveBack =>
      let g := set_m_isNewRoomEntry true g in
      do d <- Dungeon.moveBack (dungeonLogic g);
      Ok (set_dungeonLogic d g)
  | call_collectSword room =>
      let g := set_playerLogic (Player.collectItem "Sword" (playerLogic g)) g in
      let g := addAction "You collected the Sword." g in
      let g := update_room room
                 (fun r =>
                    Room.set_entity None
                      (Room.set_description
                         "You grasp the sword. A surge of ultimate power floods your veins." r)) g in
      Ok (set_currentState EXPLORING g)
  | call_handleCombat => Ok (handleCombat g)
  | call_handleChoice choice => Ok (handleChoice choice g)
  | call_continue => Ok (set_currentState EXPLORING g)
  end.

(** The first half of the fade-out branch of [GamePlayScreen::update]:
    the stored closure runs and is cleared. *)
Definition completeTransition (g : Game) : Result Game :=
  match onTransitionComplete g with
  | Some cb =>
      do g <- runCallback cb g;
      Ok (set_onTransitionComplete None g)
  | None => Ok g
  end.

(** [GamePlayScreen::update]; [elapsed] is the test [t >= 1.0f] on the
    clock of the screen's fade. *)
Definition GamePlayScreen_update (elapsed : bool) (g : Game) : Result Game :=
  match transitionState g with
  | GpTransitionState.NONE => Ok g
  | GpTransitionState.FADING_OUT =>
      if elapsed then
        do g <- completeTransition g;
        if Player.getMoves (playerLogic g) <? 0 then
          Ok (triggerGameOver "You have run out of moves." g)
        else
          Ok (set_transitionState GpTransitionState.FADING_IN (checkRoomState g))
      else Ok g
  | GpTransitionState.FADING_IN =>
      if elapsed then Ok (set_transitionState GpTransitionState.NONE g) else Ok g
  end.

(** [GamePlayScreen::onEnter] *)
Definition onEnter (g : Game) : Game :=
  let g := set_actionsLog [] g in
  let g := set_m_isNewRoomEntry true g in
  let g := addAction "Your adventure begins..." g in
  checkRoomState g.

(** [GameOverScreen::handleEvent] *)
Definition GameOverScreen_handleEvent (event : Event) (g : Game) : Game :=
  match event with
  | KeyPressed Keyboard.Enter => changeScreen GameStateID.MENU g
  | _ => g
  end.

(** [Game::processEvents] for one polled event, on the screens of a
    session.  The handlers of the menu and of the name-input screen are
    in [App_processEvents] further down: all they do to the game logic
    is to start a new session with [startGameplay], which is where
    [reachable] below starts. *)
Definition processEvents (event : Event) (g : Game) : Game :=
  match currentTransition g with
  | TransitionState.NONE =>
      match currentStateID g with
      | GameStateID.GAMEPLAY => handleEvent event g
      | GameStateID.GAME_OVER =>
          match gameOverScreen g with
          | Some _ => GameOverScreen_handleEvent event g
          | None => g
          end
      | _ => g
      end
  | _ => g
  end.

(** [Game::handleScreenTransition]; [elapsed] is the test [t >= 1.0f] on
    the clock of the screen change. *)
Definition handleScreenTransition (elapsed : bool) (g : Game) : Game :=
  match currentTransition g with
  | TransitionState.NONE => g
  | TransitionState.FADING_OUT =>
      if elapsed then
        let g := set_currentStateID (nextStateID g) g in
        let g :=
          match currentStateID g with
          | GameStateID.GAMEPLAY => onEnter g
          | _ => g
          end in
        set_currentTransition TransitionState.FADING_IN g
      else g
  | TransitionState.FADING_IN =>
      if elapsed then set_currentTransition TransitionState.NONE g else g
  end.

(** [Game::update] *)
Definition Game_update (screenElapsed gameElapsed : bool) (g : Game) : Result Game :=
  do g <-
    match currentTransition g with
    | TransitionState.NONE =>
        match currentStateID g with
        | GameStateID.GAMEPLAY => GamePlayScreen_update screenElapsed g
        | _ => Ok g
        end
    | _ => Ok g
    end;
  Ok (handleScreenTransition gameElapsed g).

(** [Game::startGameplay], called by the name-input screen: a new
    player, a new dungeon, a new gameplay screen, and the change to
    it. *)
Definition startGameplay (playerName : string) (g : Game) : Game :=
  let playerLogic := Player.new playerName 100 10 in
  let dungeonLogic := setupDungeon (Dungeon.new playerLogic) in
  changeScreen GameStateID.GAMEPLAY
    (mkGame (currentStateID g) (nextStateID g) (currentTransition g)
       (gameOverScreen g) dungeonLogic
       EXPLORING GpTransitionState.NONE None "" [] true).

(** What the main loop feeds the game: a polled event, or an update with
    the outcome of the two clock tests. *)
Inductive Input :=
| Poll (event : Event)
| Update (screenElapsed gameElapsed : bool).

Definition step (i : Input) (g : Game) : Result Game :=
  match i with
  | Poll event => Ok (processEvents event g)
  | Update screenElapsed gameElapsed => Game_update screenElapsed gameElapsed g
  end.

Fixpoint run (inputs : list Input) (g : Game) : Result Game :=
  match inputs with
  | [] => Ok g
  | i :: rest => do g <- step i g; run rest g
  end.

(** The states of a gameplay session: it starts when the name-input
    screen, with no screen change under way, calls [startGameplay]. *)
Inductive reachable : Game -> Prop :=
| reachable_start (playerName : string) (g : Game) :
    currentStateID g = GameStateID.NAME_INPUT ->
    currentTransition g = TransitionState.NONE ->
    reachable (startGameplay playerName g)
| reachable_step (i : Input) (g g' : Game) :
    reachable g -> step i g = Ok g' -> reachable g'.

(** A game in the name-input screen, before any session. *)
Definition nameInputGame : Game :=
  mkGame GameStateID.NAME_INPUT GameStateID.NAME_INPUT TransitionState.NONE None
    (Dungeon.new (Player.new "" 0 0))
    EXPLORING GpTransitionState.NONE None "" [] true.

Definition newGame : Game := startGameplay "Hero" nameInputGame.

(* ================================================================= *)
(** ** What the gameplay screen displays

    [GamePlayScreen::updateUI] computes the strings of the panel from the
    state.  The embedding keeps the strings; their layout, colours and
    the wrapping of long lines, which depends on the font, are left
    out. *)

Record UiTexts := mkUiTexts {
  roomNameText : string;
  roomDescText : string;
  entityDescText : string;
  playerStatsText : string;
  recentActionsText : string;
  actionPromptsText : string;
  interactionText : string
}.

(** The lines of the prompt while exploring. *)
Definition explorationPrompts (g : Game) : list string :=
  (if inSwordRoomWithSword g then ["[C] Collect Sword"] else [])
  ++ (if Dungeon.canMoveForward (dungeonLogic g) then ["[F] Forward"] else [])
  ++ (if Dungeon.canMoveBack (dungeonLogic g) then ["[B] Backtrack"] else [])
  ++ (if negb (inSwordRoomWithSword g) then ["[Q] Quit"] else []).

(** [GamePlayScreen::updateUI] *)
Definition updateUI (g : Game) (ui : UiTexts) : UiTexts :=
  match currentRoomObj g with
  | None => ui
  | Some room =>
      let entityDesc :=
        match Room.entity room with
        | Some e => getDescription e
        | None => ""
        end in
      let fullStats :=
        "Player: " +:+ Player.name (playerLogic g) +:+ nl
        +:+ "Health: " +:+ to_string (Player.getHealth (playerLogic g)) +:+ " / 100" +:+ nl
        +:+ "Moves Left: " +:+ to_string (Player.getMoves (playerLogic g)) +:+ nl
        +:+ "Inventory: " +:+ Inventory.getSortedString (Player.inventory (playerLogic g)) in
      let log := String.concat "" (map (fun action => "- " +:+ action +:+ nl) (actionsLog g)) in
      let prompt :=
        match currentState g with
        | EXPLORING => join nl (explorationPrompts g)
        | COMBAT => "[F] Fight!" +:+ nl +:+ "[R] Attempt to Run"
        | CHOICE => "[1] Take Golden Key" +:+ nl +:+ "[2] Take Health Potion"
        | MESSAGE => "[Enter] Continue"
        end in
      mkUiTexts (Room.name room) (Room.description room) entityDesc fullStats log prompt
        (match currentState g with
         | MESSAGE => message g
         | _ => interactionText ui
         end)
  end.

(* ================================================================= *)
(** ** The menu and the name-input screen *)

(** An [sf::Event] as the name-input screen reads it: entered text with
    its code point, a key press, or another event. *)
Inductive TextEvent :=
| TextEntered (unicode : N)
| KeyDown (code : Keyboard.Key)
| NoText.

Definition MAX_NAME_LENGTH : nat := 15.

(** The members of [NameInputScreen] the logic uses; [playerNameRef] is
    the string [game.playerName] it refers to. *)
Record NameInputScreen := mkNameInputScreen {
  playerNameRef : string;
  isActive : bool
}.

(** [MenuScreen::handleEvent] *)
Definition MenuScreen_handleEvent (event : Event) (g : Game) : Game :=
  match event with
  | KeyPressed Keyboard.Enter => changeScreen GameStateID.NAME_INPUT g
  | _ => g
  end.

(** [NameInputScreen::onEnter] *)
Definition NameInputScreen_onEnter (s : NameInputScreen) : NameInputScreen :=
  mkNameInputScreen "" true.

(** [NameInputScreen::handleEvent]: the screen and the game after the
    event. *)
Definition NameInputScreen_handleEvent (event : TextEvent) (s : NameInputScreen) (g : Game)
  : NameInputScreen * Game :=
  if negb (isActive s) then (s, g)
  else
    match event with
    | TextEntered unicode =>
        let name :=
          if (unicode =? 8)%N then
            if negb (String.eqb (playerNameRef s) "") then pop_back (playerNameRef s)
            else playerNameRef s
          else if (32 <=? unicode)%N && (unicode <? 127)%N then
            if (String.length (playerNameRef s) <? MAX_NAME_LENGTH)%nat then
              playerNameRef s +:+ String (ascii_of_N unicode) EmptyString
            else playerNameRef s
          else playerNameRef s in
        (mkNameInputScreen name (isActive s), g)
    | KeyDown code =>
        match code with
        | Keyboard.Enter =>
            if negb (String.eqb (playerNameRef s) "") then
              (mkNameInputScreen (playerNameRef s) false, startGameplay (playerNameRef s) g)
            else (s, g)
        | Keyboard.Escape => (s, changeScreen GameStateID.MENU g)
        | _ => (s, g)
        end
    | NoText => (s, g)
    end.

(* ================================================================= *)
(** ** The game with all its screens

    [Game] together with the state of the screens it owns that is not in
    the record above: the name-input screen and the string
    [game.playerName] it edits.  The menu screen has no state besides its
    animation.  The screens of the gameplay and of the game over exist
    once [startGameplay] and [triggerGameOver] have made them. *)

Record App := mkApp {
  game : Game;
  nameInputScreen : NameInputScreen
}.

(** The event as the menu, the gameplay and the game-over screen read
    it: they test for key presses only. *)
Definition keyEvent (event : TextEvent) : Event :=
  match event with
  | KeyDown code => KeyPressed code
  | _ => OtherEvent
  end.

(** [Game::processEvents] for one polled event, with the handler of
    each of the four screens. *)
Definition App_processEvents (event : TextEvent) (a : App) : App :=
  match currentTransition (game a) with
  | TransitionState.NONE =>
      match currentStateID (game a) with
      | GameStateID.MENU =>
          mkApp (MenuScreen_handleEvent (keyEvent event) (game a)) (nameInputScreen a)
      | GameStateID.NAME_INPUT =>
          let '(s, g) := NameInputScreen_handleEvent event (nameInputScreen a) (game a) in
          mkApp g s
      | _ =>
          mkApp (processEvents (keyEvent event) (game a)) (nameInputScreen a)
      end
  | _ => a
  end.

(** [Game::handleScreenTransition], with the [onEnter] of each screen:
    the one of the gameplay screen, the one of the name-input screen;
    the menu only resets its animation and the game-over screen does
    nothing. *)
Definition App_handleScreenTransition (elapsed : bool) (a : App) : App :=
  match currentTransition (game a) with
  | TransitionState.NONE => a
  | TransitionState.FADING_OUT =>
      if elapsed then
        let g := set_currentStateID (nextStateID (game a)) (game a) in
        let a :=
          match currentStateID g with
          | GameStateID.GAMEPLAY => mkApp (onEnter g) (nameInputScreen a)
          | GameStateID.NAME_INPUT =>
              mkApp g (NameInputScreen_onEnter (nameInputScreen a))
          | _ => mkApp g (nameInputScreen a)
          end in
        mkApp (set_currentTransition TransitionState.FADING_IN (game a)) (nameInputScreen a)
      else a
  | TransitionState.FADING_IN =>
      if elapsed then
        mkApp (set_currentTransition TransitionState.NONE (game a)) (nameInputScreen a)
      else a
  end.

(** [Game::update]: the [update] of the menu, of the name-input and of
    the game-over screen only animate. *)
Definition App_update (screenElapsed gameElapsed : bool) (a : App) : Result App :=
  do g <-
    match currentTransition (game a) with
    | TransitionState.NONE =>
        match currentStateID (game a) with
        | GameStateID.GAMEPLAY => GamePlayScreen_update screenElapsed (game a)
        | _ => Ok (game a)
        end
    | _ => Ok (game a)
    end;
  Ok (App_handleScreenTransition gameElapsed (mkApp g (nameInputScreen a))).

(** What the loop of [Game::run] feeds the game. *)
Inductive AppInput :=
| AppPoll (event : TextEvent)
| AppUpdate (screenElapsed gameElapsed : bool).

Definition App_step (i : AppInput) (a : App) : Result App :=
  match i with
  | AppPoll event => Ok (App_processEvents event a)
  | AppUpdate screenElapsed gameElapsed => App_update screenElapsed gameElapsed a
  end.

Fixpoint App_run (inputs : list AppInput) (a : App) : Result App :=
  match inputs with
  | [] => Ok a
  | i :: rest => do a <- App_step i a; App_run rest a
  end.

(** The state [Game::Game()] leaves: the menu is the current screen, no
    change of screen is under way, the name is empty and there is no
    game-over screen.  There is no player, no dungeon and no gameplay
    screen yet: the members that belong to them can be anything. *)
Definition App_initial (a : App) : Prop :=
  currentStateID (game a) = GameStateID.MENU /\
  nextStateID (game a) = GameStateID.NONE /\
  currentTransition (game a) = TransitionState.NONE /\
  gameOverScreen (game a) = None /\
  nameInputScreen a = mkNameInputScreen "" true.

(** The states of the game, from its construction on. *)
Inductive App_reachable : App -> Prop :=
| App_reachable_start (a : App) : App_initial a -> App_reachable a
| App_reachable_step (i : AppInput) (a a' : App) :
    App_reachable a -> App_step i a = Ok a' -> App_reachable a'.

(** The game as constructed. *)
Definition newApp : App :=
  mkApp
    (mkGame GameStateID.MENU GameStateID.NONE TransitionState.NONE None
       (Dungeon.new (Player.new "" 0 0))
       EXPLORING GpTransitionState.NONE None "" [] true)
    (mkNameInputScreen "" true).

(* ================================================================= *)
(** * The vocabulary of the properties *)

(** ** Operations on health *)

(** A call of [takeDamage] or of [heal], with its argument. *)
Inductive HealthOp :=
| TakeDamage (damage : Z)
| Heal (amount : Z).

Definition apply_op (op : HealthOp) (p : Player.t) : Player.t :=
  match op with
  | TakeDamage damage => fst (Player.takeDamage damage p)
  | Heal amount => Player.heal amount p
  end.

(** The calls of a sequence, from left to right. *)
Definition apply_ops (ops : list HealthOp) (p : Player.t) : Player.t :=
  fold_left (fun q op => apply_op op q) ops p.

(** The amounts that keep a health within 0..100: an [int] that is not
    negative, and for [heal] at most [INT_MAX - 100], beyond which the
    sum with a health of 100 is no [int]. *)
Definition amount_ok (op : HealthOp) : Prop :=
  match op with
  | TakeDamage damage => 0 <= damage <= INT_MAX
  | Heal amount => 0 <= amount <= INT_MAX - 100
  end.

(** ** Rooms and player along a session *)

(** The store of rooms of the session. *)
Definition roomsOf (g : Game) : list Room.t := Dungeon.rooms (dungeonLogic g).

(** How a room may differ from what it was: the description is free, the
    entity may have been taken away, the choice may have been made;
    nothing else changes. *)
Record room_le (r r' : Room.t) : Prop := mk_room_le {
  le_name : Room.name r' = Room.name r;
  le_next : Room.next r' = Room.next r;
  le_isFinalDoor : Room.isFinalDoor r' = Room.isFinalDoor r;
  le_backgroundID : Room.backgroundID r' = Room.backgroundID r;
  le_entity : Room.entity r' = Room.entity r \/ Room.entity r' = None;
  le_isChoiceRoom :
    Room.isChoiceRoom r' = Room.isChoiceRoom r \/ Room.isChoiceRoom r' = false
}.

(** The same, room by room, for two stores. *)
Definition rooms_le : relation (list Room.t) := Forall2 room_le.

(** An assignment to a room that stays within [room_le]. *)
Definition keeps_room (f : Room.t -> Room.t) : Prop := forall r, room_le r (f r).

(** The damage of every enemy of the dungeon is an [int] that is not
    negative. *)
Definition enemy_ok (r : Room.t) : Prop :=
  match Room.entity r with
  | Some (Enemy _ _ damage) => 0 <= damage <= INT_MAX
  | _ => True
  end.

Definition enemies_ok (l : list Room.t) : Prop := Forall enemy_ok l.

(** The history of a player: the methods that were called on it, with
    the restrictions the engine observes.  The damage taken is an [int]
    that is not negative as long as [ok] holds, which will be
    [enemies_ok] of the rooms; the amount healed is at most
    [INT_MAX - 100]. *)
Inductive player_steps (ok : Prop) (p : Player.t) : Player.t -> Prop :=
| steps_refl : player_steps ok p p
| steps_takeDamage damage p' :
    (ok -> 0 <= damage <= INT_MAX) -> player_steps ok p p' ->
    player_steps ok p (fst (Player.takeDamage damage p'))
| steps_heal amount p' :
    0 <= amount <= INT_MAX - 100 -> player_steps ok p p' ->
    player_steps ok p (Player.heal amount p')
| steps_collectItem item p' :
    player_steps ok p p' -> player_steps ok p (Player.collectItem item p')
| steps_setBossDefeated p' :
    player_steps ok p p' -> player_steps ok p (Player.setBossDefeated true p')
| steps_useMove p' :
    player_steps ok p p' -> player_steps ok p (Player.useMove p').

(** [frame g g']: from [g] to [g'] the moves of the player and the
    pending closure are the same, the rooms changed only as [room_le]
    allows, the player went through a history, and the cursor and the
    path tracker are the same. *)
Definition frame (g g' : Game) : Prop :=
  Player.moves (playerLogic g') = Player.moves (playerLogic g) /\
  onTransitionComplete g' = onTransitionComplete g /\
  rooms_le (roomsOf g) (roomsOf g') /\
  player_steps (enemies_ok (roomsOf g)) (playerLogic g) (playerLogic g') /\
  Dungeon.currentRoom (dungeonLogic g') = Dungeon.currentRoom (dungeonLogic g) /\
  Dungeon.path_tracker (dungeonLogic g') = Dungeon.path_tracker (dungeonLogic g).

(** A pointer to a room of the store [l]. *)
Definition valid_ptr (l : list Room.t) (p : RoomPtr) : Prop :=
  match p with
  | Some a => (a < length l)%nat
  | None => False
  end.

(** The pointers of the dungeon refer to rooms of the store: the cursor,
    the entries of the path tracker, and the [next] of every room unless
    it is null. *)
Definition pointers_ok (g : Game) : Prop :=
  valid_ptr (roomsOf g) (Dungeon.currentRoom (dungeonLogic g)) /\
  Forall (valid_ptr (roomsOf g)) (Stack.topNode (Dungeon.path_tracker (dungeonLogic g))) /\
  Forall (fun r => Room.next r = None \/ valid_ptr (roomsOf g) (Room.next r)) (roomsOf g).

(** ** Moves and endings *)

(** The pending closure is one of the two navigations. *)
Definition is_navigation (cb : option Callback) : bool :=
  match cb with
  | Some call_moveForward | Some call_moveBack => true
  | _ => false
  end.

(** The invariant: moves are not negative, and a pending navigation has
    a move to spend. *)
Definition moves_ok (g : Game) : Prop :=
  0 <= Player.moves (playerLogic g) /\
  (is_navigation (onTransitionComplete g) = true -> 1 <= Player.moves (playerLogic g)).

(** The session ends with reason [why]: the game-over screen is built
    with that reason and the change to it begins. *)
Definition session_ends (why : string) (g' : Game) : Prop :=
  exists bg,
    gameOverScreen g' = Some (mkGameOverScreen why bg) /\
    nextStateID g' = GameStateID.GAME_OVER /\
    currentTransition g' = TransitionState.FADING_OUT.

(** The gameplay screen is the current one and no change of screen is
    under way: the condition under which [Game::processEvents] and
    [Game::update] call into the gameplay screen. *)
Definition in_gameplay (g : Game) : Prop :=
  currentStateID g = GameStateID.GAMEPLAY /\
  currentTransition g = TransitionState.NONE.

(** The damage [handleCombat] settles on, and the line it puts before
    the damage report. *)
Definition effectiveDamageOf (c : EnemyClass) (damage : Z) (p : Player.t) : Z :=
  match c with
  | BossEnemy => if Player.hasItem "Sword" p then 50 else damage
  | _ => damage
  end.

Definition combatPrefix (c : EnemyClass) (p : Player.t) : string :=
  match c with
  | BossEnemy =>
      if Player.hasItem "Sword" p
      then "Your Sword glows, weakening the boss!" +:+ nl
      else "You are unarmed against the mighty boss!" +:+ nl
  | _ => ""
  end.

(** ** Sessions played out *)

(** A key press and the two updates that complete the fade-out and the
    fade-in it may start. *)
Definition press (code : Keyboard.Key) : list Input :=
  [Poll (KeyPressed code); Update true true; Update true true].

(** The change to the gameplay screen completes. *)
Definition boot : list Input := [Update true true; Update true true].

(** The state a new session is in after the inputs. *)
Definition state_after (inputs : list Input) : Game :=
  match run inputs newGame with
  | Ok g => g
  | Throw _ => newGame
  end.

(** Forward through the three minion rooms, fighting each, to the
    chamber of the sword. *)
Definition to_sword_room : list Input :=
  boot ++ press Keyboard.F ++ press Keyboard.F ++ press Keyboard.Enter
       ++ press Keyboard.F ++ press Keyboard.F ++ press Keyboard.Enter
       ++ press Keyboard.F ++ press Keyboard.F ++ press Keyboard.Enter
       ++ press Keyboard.F.

(** Sword, key, the monster and the boss fought; forward is pressed in
    the boss chamber and the fade-out is under way. *)
Definition to_final_door : list Input :=
  to_sword_room ++ press Keyboard.C ++ press Keyboard.F ++ press Keyboard.Num1
    ++ press Keyboard.F ++ press Keyboard.F ++ press Keyboard.Enter
    ++ press Keyboard.F ++ press Keyboard.F ++ press Keyboard.Enter
    ++ [Poll (KeyPressed Keyboard.F)].

(** The state [checkRoomState] is called on at the final door: the
    closure of the last press has run. *)
Definition at_final_door : Game :=
  match completeTransition (state_after to_final_door) with
  | Ok g => g
  | Throw _ => newGame
  end.

(** In the boss chamber with the sword, before the fight. *)
Definition at_boss : Game :=
  state_after
    (to_sword_room ++ press Keyboard.C ++ press Keyboard.F ++ press Keyboard.Num1
       ++ press Keyboard.F ++ press Keyboard.F ++ press Keyboard.Enter
       ++ press Keyboard.F).

(** Two detours in front of the sword room, then on to the den of the
    monster: the last move is spent on entering it. *)
Definition to_monster_den : list Input :=
  to_sword_room ++ press Keyboard.B ++ press Keyboard.F
    ++ press Keyboard.B ++ press Keyboard.F
    ++ press Keyboard.F ++ press Keyboard.Num1 ++ press Keyboard.F.

(** The room under the cursor. *)
Definition room_here (g : Game) : Room.t :=
  match currentRoomObj g with
  | Some r => r
  | None => Room.new "" "" ""
  end.

(** From [g] to [g'] the rooms changed only as [room_le] allows, the
    player went through a history, and the pointers stayed valid. *)
Definition session_le (g g' : Game) : Prop :=
  rooms_le (roomsOf g) (roomsOf g') /\
  player_steps (enemies_ok (roomsOf g)) (playerLogic g) (playerLogic g') /\
  (pointers_ok g -> pointers_ok g').

(** In the den of the monster, in combat, with no move left. *)
Definition in_monster_den : Game := state_after to_monster_den.

(** A state with no move left and a forward navigation pending, as the
    second guard expects it; it is built by hand, as no session reaches
    such a state. *)
Definition spent_and_pending : Game :=
  let g := state_after (boot ++ [Poll (KeyPressed Keyboard.F)]) in
  set_playerLogic (Player.set_moves 0 (playerLogic g)) g.

(** Exploring the entrance with the moves set to 0. *)
Definition spent_and_exploring : Game :=
  let g := state_after boot in
  set_playerLogic (Player.set_moves 0 (playerLogic g)) g.

(** ** The two rewards of the room of choice *)

Definition hasKey (g : Game) : bool := Player.hasItem "Golden Key" (playerLogic g).
Definition fullHealth (g : Game) : bool := Player.health (playerLogic g) =? 100.

(** [P] is false in [g] and true in [g']. *)
Definition newly (P : Game -> bool) (g g' : Game) : bool := negb (P g) && P g'.

(** A game put in the room of choice with full health: the state the
    counterexample below looks at. *)
Definition in_choice_room_unhurt : Game :=
  let g := state_after boot in
  set_currentState CHOICE
    (set_dungeonLogic (Dungeon.set_currentRoom (Some 5%nat) (dungeonLogic g)) g).

(** In the room of choice, straight from the three minion rooms. *)
Definition in_choice_room : Game := state_after (to_sword_room ++ press Keyboard.F).

(** ** Sequences of operations on the containers *)

Section StackOps.
Context {T : Type}.

(** A call of [push] or of [pop]. *)
Inductive StackOp :=
| Push (value : T)
| Pop.

Definition stack_op (op : StackOp) (s : Stack.t T) : Stack.t T :=
  match op with
  | Push value => Stack.push value s
  | Pop => Stack.pop s
  end.

Definition stack_ops (ops : list StackOp) (s : Stack.t T) : Stack.t T :=
  fold_left (fun s op => stack_op op s) ops s.

(** The values pushed one after the other, the first one first. *)
Definition push_all (values : list T) (s : Stack.t T) : Stack.t T :=
  fold_left (fun s value => Stack.push value s) values s.

(** [top] then [pop], [n] times: the values read and the stack left. *)
Fixpoint take_tops (n : nat) (s : Stack.t T) : Result (list T * Stack.t T) :=
  match n with
  | O => Ok ([], s)
  | S k =>
      do value <- Stack.top s;
      do rest <- take_tops k (Stack.pop s);
      Ok (value :: fst rest, snd rest)
  end.
End StackOps.
Arguments StackOp : clear implicits.

(** The items added one after the other to an inventory. *)
Definition add_all (names : list string) (inv : Inventory.t string) : Inventory.t string :=
  fold_left (fun inv name => Inventory.add name inv) names inv.

(** A log as [addAction] keeps it: at most [MAX_LOG_SIZE] lines, none
    empty, no line equal to the one before it. *)
Definition log_ok (log : list string) : Prop :=
  (length log <= MAX_LOG_SIZE)%nat /\
  ~ In "" log /\
  forall (i : nat) (line : string), log !! i = Some line -> log !! S i <> Some line.

(** ** The chain of rooms *)

(** [linked d p l]: following [next] from [p] visits the rooms at the
    addresses [l], in order, and then reaches the null pointer. *)
Inductive linked (d : Dungeon.t) : RoomPtr -> list nat -> Prop :=
| linked_nil : linked d None []
| linked_cons (a : nat) (r : Room.t) (l : list nat) :
    Dungeon.rooms d !! a = Some r ->
    linked d (Room.next r) l ->
    linked d (Some a) (a :: l).

(** Two rooms that differ at most in their [next]. *)
Definition same_but_next (r r' : Room.t) : Prop :=
  Room.set_next None r' = Room.set_next None r.

(** ** The endings of a session *)

(** The reasons the gameplay screen gives to [triggerGameOver]. *)
Definition reasons : list string :=
  ["You used the Golden key and escaped. You are VICTORIOUS!";
   "The final door is locked tight. The boss must be defeated!";
   "The final door is locked. You needed the Golden Key.";
   "You have died in combat.";
   "You fled in terror!";
   "You have run out of moves."].

Definition bossDefeated (g : Game) : bool :=
  Player.isFinalBossDefeated (playerLogic g).

(** A game-over screen that is in order in state [g]: its reason is one
    of the six, and it announces a victory only if the player holds the
    key and has defeated the boss. *)
Definition fair_ending (s : GameOverScreen) (g : Game) : Prop :=
  In (reason s) reasons /\
  (win s = true -> hasKey g = true /\ bossDefeated g = true).

(** The game-over screen of [g'] is the one [g] had, or one that is in
    order in [g']. *)
Definition ending_ok (g g' : Game) : Prop :=
  gameOverScreen g' = gameOverScreen g \/
  exists s, gameOverScreen g' = Some s /\ fair_ending s g'.

(** The player [p'] still has the key and the victory over the boss that
    [p] had. *)
Definition player_keeps (p p' : Player.t) : Prop :=
  (Player.hasItem "Golden Key" p = true -> Player.hasItem "Golden Key" p' = true) /\
  (Player.finalBossDefeated p = true -> Player.finalBossDefeated p' = true).

(** ** Screens and names *)

(** The changes of screen the handlers ask for. *)
Definition screen_edges : list (GameStateID.t * GameStateID.t) :=
  [(GameStateID.MENU, GameStateID.NAME_INPUT);
   (GameStateID.NAME_INPUT, GameStateID.MENU);
   (GameStateID.NAME_INPUT, GameStateID.GAMEPLAY);
   (GameStateID.GAMEPLAY, GameStateID.MENU);
   (GameStateID.GAMEPLAY, GameStateID.GAME_OVER);
   (GameStateID.GAME_OVER, GameStateID.MENU)].

(** The current screen, the next one and the fade agree: at rest and
    while fading in the current screen is one of the four; while fading
    out the change is one of [screen_edges].  The game-over screen exists
    when it is current or next. *)
Definition flow_ok (g : Game) : Prop :=
  match currentTransition g with
  | TransitionState.NONE =>
      currentStateID g <> GameStateID.NONE /\
      (nextStateID g = currentStateID g \/
       currentStateID g = GameStateID.MENU /\ nextStateID g = GameStateID.NONE)
  | TransitionState.FADING_OUT => In (currentStateID g, nextStateID g) screen_edges
  | TransitionState.FADING_IN =>
      currentStateID g <> GameStateID.NONE /\ nextStateID g = currentStateID g
  end /\
  (currentStateID g = GameStateID.GAME_OVER \/ nextStateID g = GameStateID.GAME_OVER ->
   gameOverScreen g <> None).

(** A session is on: the gameplay or the game-over screen is current, or
    the gameplay screen is about to be. *)
Definition in_session (g : Game) : Prop :=
  currentStateID g = GameStateID.GAMEPLAY \/
  currentStateID g = GameStateID.GAME_OVER \/
  nextStateID g = GameStateID.GAMEPLAY.

(** What a handler of the gameplay screen does to the screens: nothing,
    or, with no change under way, it starts the change to the menu or to
    a game-over screen it has made. *)
Definition gameplay_move (g g' : Game) : Prop :=
  currentStateID g' = currentStateID g /\
  (gameOverScreen g <> None -> gameOverScreen g' <> None) /\
  (nextStateID g' = nextStateID g /\ currentTransition g' = currentTransition g \/
   currentTransition g = TransitionState.NONE /\
   currentTransition g' = TransitionState.FADING_OUT /\
   nextStateID g' <> currentStateID g /\
   (nextStateID g' = GameStateID.MENU \/
    nextStateID g' = GameStateID.GAME_OVER /\ gameOverScreen g' <> None)).

(** The characters are printable ASCII. *)
Fixpoint printable (s : string) : bool :=
  match s with
  | EmptyString => true
  | String c rest =>
      (32 <=? N_of_ascii c)%N && (N_of_ascii c <? 127)%N && printable rest
  end.

(** A name as the name-input screen lets it be. *)
Definition name_ok (s : string) : Prop :=
  (String.length s <= MAX_NAME_LENGTH)%nat /\ printable s = true.

(** The gameplay screen is current or about to be. *)
Definition playing (g : Game) : Prop :=
  currentStateID g = GameStateID.GAMEPLAY \/ nextStateID g = GameStateID.GAMEPLAY.

(** The name being typed is in order, and so is the name of the player
    of a session, which is not empty. *)
Definition names_ok (a : App) : Prop :=
  name_ok (playerNameRef (nameInputScreen a)) /\
  (playing (game a) ->
   name_ok (Player.name (playerLogic (game a))) /\
   Player.name (playerLogic (game a)) <> "").

(** ** The game played from its construction *)

(** The state of the game after the inputs. *)
Definition app_after (inputs : list AppInput) : App :=
  match App_run inputs newApp with
  | Ok a => a
  | Throw _ => newApp
  end.

(** A key press, or a character typed, and the two updates that complete
    the change of screen it may start. *)
Definition app_press (event : TextEvent) : list AppInput :=
  [AppPoll event; AppUpdate true true; AppUpdate true true].

(** From the menu to the name input, where "Al" is typed. *)
Definition typed_Al : list AppInput :=
  app_press (KeyDown Keyboard.Enter)
  ++ [AppPoll (TextEntered 65); AppPoll (TextEntered 108)].

(** And on to the gameplay. *)
Definition enter_as_Al : list AppInput :=
  typed_Al ++ app_press (KeyDown Keyboard.Enter).

(** ** The dungeon of a session *)

(** The rooms [setupDungeon] builds. *)
Definition startRooms : list Room.t := roomsOf newGame.

(** The entities [setupDungeon] places, with the index of their room in
    the chain. *)
Definition startEntities : list (nat * Entity) :=
  [(1%nat, Enemy MinionEnemy "Wizard" 10);
   (2%nat, Enemy MinionEnemy "Dragon" 15);
   (3%nat, Enemy MinionEnemy "Zombie" 5);
   (4%nat, Item Weapon "Sword");
   (6%nat, Enemy MinionEnemy "Giant Monster" 10);
   (7%nat, Enemy BossEnemy "Final Boss" 75)].

(** What is known of the room at index [k] of a session: its place in
    the chain, its flags, and where its entity comes from. *)
Record shape (k : nat) (r : Room.t) : Prop := mk_shape {
  shape_index : (k < 9)%nat;
  shape_next : Room.next r = if (k <? 8)%nat then Some (S k) else None;
  shape_final : Room.isFinalDoor r = (k =? 8)%nat;
  shape_choice : Room.isChoiceRoom r = true -> k = 5%nat;
  shape_entity : forall e, Room.entity r = Some e -> In (k, e) startEntities;
  shape_name : Room.name r = SWORD_ROOM <-> k = 4%nat
}.

(** The state [checkRoomState] derives from a room that is not the final
    door, when the entity, if any, is an enemy or the sword in its
    chamber. *)
Definition stateOf (r : Room.t) : InteractionState :=
  match Room.entity r with
  | Some e => if is_Enemy e then COMBAT else EXPLORING
  | None => if Room.isChoiceRoom r then CHOICE else EXPLORING
  end.

(** The state in which [handleEvent] stores a closure. *)
Definition stateFor (cb : Callback) : InteractionState :=
  match cb with
  | call_moveForward | call_moveBack | call_collectSword _ => EXPLORING
  | call_handleCombat => COMBAT
  | call_handleChoice _ => CHOICE
  | call_continue => MESSAGE
  end.

(** The part of the state the logic of the game is in. *)
Definition core (g : Game) : Dungeon.t * InteractionState * option Callback :=
  (dungeonLogic g, currentState g, onTransitionComplete g).

(** Where the player is: the cursor is on room [k] of the chain, the
    path tracker holds the rooms before it, the nearest on top, the
    moves are the 10 of the start less one for each room on the way and
    two for each of [b] detours, and no room on the way holds an enemy
    or an open choice. *)
Definition at_position (g : Game) (k : nat) (b : Z) : Prop :=
  Dungeon.currentRoom (dungeonLogic g) = Some k /\
  (k < 9)%nat /\
  Stack.topNode (Dungeon.path_tracker (dungeonLogic g)) = map Some (rev (seq 0 k)) /\
  Zmod.unsigned (Stack.size (Dungeon.path_tracker (dungeonLogic g))) = Z.of_nat k /\
  0 <= b /\
  Player.moves (playerLogic g) = 10 - Z.of_nat k - 2 * b /\
  forall (i : nat) (r : Room.t),
    (i < k)%nat -> roomsOf g !! i = Some r -> stateOf r = EXPLORING.

(** What holds of the dungeon and of the player's place in it all along
    a session. *)
Record pos_inv (g : Game) : Prop := mk_pos_inv {
  pos_rooms : rooms_le startRooms (roomsOf g);
  pos_moves : 0 <= Player.moves (playerLogic g);
  pos_position : exists k b, at_position g k b
}.

(** The closure that waits for the end of the fade was stored in the
    present state and can run: a navigation has a move to spend, and the
    sword to collect lies in the present room. *)
Definition pending_ok (g : Game) : Prop :=
  forall cb, onTransitionComplete g = Some cb ->
    currentState g = stateFor cb /\
    (is_navigation (Some cb) = true -> 1 <= Player.moves (playerLogic g)) /\
    (forall room, cb = call_collectSword room ->
       room = Dungeon.currentRoom (dungeonLogic g) /\ inSwordRoomWithSword g = true).

(** The invariant of the sessions. *)
Record nav_inv (g : Game) : Prop := mk_nav_inv {
  nav_pos : pos_inv g;
  nav_state : currentState g = stateOf (room_here g);
  nav_pending : pending_ok g
}.

(** The state between the closure and [checkRoomState]: the interaction
    state is yet to be derived, except at the final door, where
    [checkRoomState] leaves it. *)
Record pre_inv (g : Game) : Prop := mk_pre_inv {
  pre_pos : pos_inv g;
  pre_final : Room.isFinalDoor (room_here g) = true -> currentState g = EXPLORING;
  pre_pending : onTransitionComplete g = None
}.

(** ** Loot and health *)

Definition hasSword (g : Game) : bool := Player.hasItem "Sword" (playerLogic g).

(** The choice of the room of choice, room 5 of the chain, is open. *)
Definition choiceOpen (l : list Room.t) : bool :=
  match l !! 5%nat with
  | Some r => Room.isChoiceRoom r
  | None => false
  end.

(** The room at index [i] holds no entity. *)
Definition cleared (l : list Room.t) (i : nat) : bool :=
  match l !! i with
  | Some r => match Room.entity r with None => true | Some _ => false end
  | None => false
  end.

(** The damage of the minions whose rooms are cleared. *)
Definition minionDamage (l : list Room.t) : Z :=
  (if cleared l 1 then 10 else 0) + (if cleared l 2 then 15 else 0)
  + (if cleared l 3 then 5 else 0) + (if cleared l 6 then 10 else 0).

(** The store [l'] is [l] with [r'] at index [k]. *)
Definition rooms_but (l l' : list Room.t) (k : nat) (r' : Room.t) : Prop :=
  l' !! k = Some r' /\ forall i, i <> k -> l' !! i = l !! i.

(** What holds of the inventory and of the health all along a session:
    the inventory holds the sword and the key at most, each once; the
    sword is held exactly when it is gone from its chamber, room 4; the
    key is held only once the choice is made; as long as the potion was
    not drunk, health is what the minions defeated have left of 100; the
    boss was defeated without the sword only by one who drank the
    potion. *)
Record loot_inv (g : Game) : Prop := mk_loot_inv {
  loot_health : 0 <= Player.health (playerLogic g) <= 100;
  loot_nodup : List.NoDup (Inventory.items (Player.inventory (playerLogic g)));
  loot_only : forall item,
    In item (Inventory.items (Player.inventory (playerLogic g))) ->
    item = "Sword" \/ item = "Golden Key";
  loot_sword : hasSword g = cleared (roomsOf g) 4;
  loot_key : hasKey g = true -> choiceOpen (roomsOf g) = false;
  loot_account :
    choiceOpen (roomsOf g) = true \/ hasKey g = true ->
    Player.health (playerLogic g) + minionDamage (roomsOf g) <= 100;
  loot_boss :
    bossDefeated g = true -> hasSword g = false ->
    choiceOpen (roomsOf g) = false /\ hasKey g = false
}.

(** The potion is drunk in the room of choice, reached straight through
    the three minion rooms and the chamber of the sword. *)
Definition after_potion : Game :=
  state_after (to_sword_room ++ press Keyboard.F ++ press Keyboard.Num2).

(** From there through the den of the monster and the boss chamber to
    the final door. *)
Definition potion_to_the_door : list Input :=
  press Keyboard.F ++ press Keyboard.F ++ press Keyboard.F ++ press Keyboard.F
  ++ press Keyboard.F.

(* ================================================================= *)
(** * Properties *)

(** ** Arithmetic of [int] *)

Lemma wrap_int_small z : INT_MIN <= z <= INT_MAX -> wrap_int z = z.
Proof.
  unfold wrap_int, INT_MIN, INT_MAX. intros Hz.
  rewrite Z.mod_small; lia.
Qed.

Lemma wrap_int_range z : INT_MIN <= wrap_int z <= INT_MAX.
Proof.
  unfold wrap_int, INT_MIN, INT_MAX.
  pose proof (Z.mod_pos_bound (z - -2147483648) (2 ^ 32) ltac:(lia)). lia.
Qed.

(** ** Arithmetic of [size_t] *)

Lemma size_t_range (n : size_t) : 0 <= Zmod.unsigned n < 2 ^ 64.
Proof. apply Zmod.unsigned_pos_bound. reflexivity. Qed.

Lemma unsigned_incr (n : size_t) :
  Zmod.unsigned (incr n) = (Zmod.unsigned n + 1) mod 2 ^ 64.
Proof.
  unfold incr. rewrite Zmod.unsigned_add, Zmod.unsigned_1_pos; [reflexivity |].
  vm_compute. discriminate.
Qed.

Lemma unsigned_decr (n : size_t) :
  Zmod.unsigned (decr n) = (Zmod.unsigned n - 1) mod 2 ^ 64.
Proof.
  unfold decr. rewrite Zmod.unsigned_sub, Zmod.unsigned_1_pos; [reflexivity |].
  vm_compute. discriminate.
Qed.

Lemma unsigned_incr_small (n : size_t) :
  Zmod.unsigned n + 1 < 2 ^ 64 -> Zmod.unsigned (incr n) = Zmod.unsigned n + 1.
Proof.
  intros H. rewrite unsigned_incr. apply Z.mod_small.
  pose proof (size_t_range n). lia.
Qed.

Lemma unsigned_decr_small (n : size_t) :
  0 < Zmod.unsigned n -> Zmod.unsigned (decr n) = Zmod.unsigned n - 1.
Proof.
  intros H. rewrite unsigned_decr. apply Z.mod_small.
  pose proof (size_t_range n). lia.
Qed.

Lemma decr_incr (n : size_t) : decr (incr n) = n.
Proof.
  apply Zmod.unsigned_inj. rewrite unsigned_decr, unsigned_incr.
  pose proof (size_t_range n) as Hn.
  rewrite Zminus_mod_idemp_l.
  replace (Zmod.unsigned n + 1 - 1) with (Zmod.unsigned n) by lia.
  apply Z.mod_small. exact Hn.
Qed.

(** ** The path tracker *)

Section StackFacts.
Context {T : Type}.
Implicit Types (s : Stack.t T) (x : T).

Lemma isEmpty_topNode s : Stack.isEmpty s = true <-> Stack.topNode s = [].
Proof. unfold Stack.isEmpty. destruct (Stack.topNode s); split; congruence. Qed.

Lemma pop_push x s : Stack.pop (Stack.push x s) = s.
Proof.
  destruct s as [nodes n]. unfold Stack.pop, Stack.push, Stack.isEmpty.
  cbn [Stack.topNode Stack.count tail]. rewrite decr_incr. reflexivity.
Qed.

Lemma top_push x s : Stack.top (Stack.push x s) = Ok x.
Proof. reflexivity. Qed.

Lemma top_nonempty s : Stack.isEmpty s = false -> exists x, Stack.top s = Ok x.
Proof.
  unfold Stack.isEmpty, Stack.top.
  destruct (Stack.topNode s) as [|x rest]; [discriminate | eauto].
Qed.
End StackFacts.

(** ** Health *)

Lemma takeDamage_health damage p :
  Player.health (fst (Player.takeDamage damage p)) =
  Z.max 0 (wrap_int (Player.health p - damage)).
Proof.
  unfold Player.takeDamage. simpl.
  destruct (Z.ltb_spec (wrap_int (Player.health p - damage)) 0); lia.
Qed.

(** Without overflow the health is lowered by the damage, and held at 0. *)
Lemma takeDamage_health_small damage p :
  INT_MIN <= Player.health p - damage <= INT_MAX ->
  Player.health (fst (Player.takeDamage damage p)) = Z.max 0 (Player.health p - damage).
Proof. intros H. rewrite takeDamage_health, wrap_int_small by exact H. reflexivity. Qed.

Lemma heal_health amount p :
  Player.health (Player.heal amount p) = Z.min 100 (wrap_int (Player.health p + amount)).
Proof. reflexivity. Qed.

(** Without overflow the health is raised by the amount, and held at 100. *)
Lemma heal_health_small amount p :
  INT_MIN <= Player.health p + amount <= INT_MAX ->
  Player.health (Player.heal amount p) = Z.min 100 (Player.health p + amount).
Proof. intros H. rewrite heal_health, wrap_int_small by exact H. reflexivity. Qed.

Lemma takeDamage_lower damage p : 0 <= Player.health (fst (Player.takeDamage damage p)).
Proof. rewrite takeDamage_health. lia. Qed.

Lemma heal_upper amount p : Player.health (Player.heal amount p) <= 100.
Proof. rewrite heal_health. lia. Qed.

Lemma takeDamage_range damage p :
  0 <= damage <= INT_MAX ->
  0 <= Player.health p <= 100 ->
  0 <= Player.health (fst (Player.takeDamage damage p)) <= 100.
Proof.
  unfold INT_MAX. intros Hd Hp.
  rewrite takeDamage_health_small by (unfold INT_MIN, INT_MAX; lia). lia.
Qed.

Lemma heal_range amount p :
  0 <= amount <= INT_MAX - 100 ->
  0 <= Player.health p <= 100 ->
  0 <= Player.health (Player.heal amount p) <= 100.
Proof.
  unfold INT_MAX. intros Ha Hp.
  rewrite heal_health_small by (unfold INT_MIN, INT_MAX; lia). lia.
Qed.

Lemma apply_op_range op p :
  amount_ok op ->
  0 <= Player.health p <= 100 ->
  0 <= Player.health (apply_op op p) <= 100.
Proof.
  destruct op as [damage | amount]; unfold apply_op, amount_ok; intros Hamount Hp.
  - apply takeDamage_range; assumption.
  - apply heal_range; assumption.
Qed.

(** ** Navigation in the dungeon *)

Lemma canMoveForward_next d :
  Dungeon.canMoveForward d =
  match Dungeon.next_of d (Dungeon.currentRoom d) with
  | Some _ => true
  | None => false
  end.
Proof.
  unfold Dungeon.canMoveForward, Dungeon.next_of, Dungeon.deref.
  destruct (Dungeon.currentRoom d); reflexivity.
Qed.

Lemma moveBack_total d : exists d', Dungeon.moveBack d = Ok d'.
Proof.
  unfold Dungeon.moveBack, Dungeon.canMoveBack.
  destruct (Stack.isEmpty (Dungeon.path_tracker d)) eqn:Hempty; simpl; [eauto |].
  destruct (top_nonempty _ Hempty) as [r Hr]. rewrite Hr. simpl. eauto.
Qed.

Lemma moveForward_moves d :
  Player.moves (Dungeon.player (Dungeon.moveForward d)) =
  if Dungeon.canMoveForward d
  then Player.moves (Dungeon.player d) - 1
  else Player.moves (Dungeon.player d).
Proof. unfold Dungeon.moveForward. destruct (Dungeon.canMoveForward d); reflexivity. Qed.

Lemma moveBack_moves d d' :
  Dungeon.moveBack d = Ok d' ->
  Player.moves (Dungeon.player d') =
  if Dungeon.canMoveBack d
  then Player.moves (Dungeon.player d) - 1
  else Player.moves (Dungeon.player d).
Proof.
  unfold Dungeon.moveBack.
  destruct (Dungeon.canMoveBack d); simpl; [| congruence].
  destruct (Stack.top _); simpl; [| discriminate].
  intros [= <-]. reflexivity.
Qed.

Lemma moveForward_successor d successor :
  Dungeon.next_of d (Dungeon.currentRoom d) = Some successor ->
  Dungeon.moveForward d =
  Dungeon.mk (Dungeon.rooms d) (Dungeon.head d) (Some successor)
    (Player.useMove (Dungeon.player d))
    (Stack.push (Dungeon.currentRoom d) (Dungeon.path_tracker d)).
Proof.
  intros Hnext. unfold Dungeon.moveForward.
  rewrite canMoveForward_next, Hnext.
  unfold Dungeon.set_currentRoom, Dungeon.set_path_tracker, Dungeon.set_player.
  cbn [Dungeon.rooms Dungeon.head Dungeon.currentRoom Dungeon.player Dungeon.path_tracker].
  f_equal.
  unfold Dungeon.next_of, Dungeon.deref in *. simpl. exact Hnext.
Qed.

Lemma moveForward_stuck d :
  Dungeon.next_of d (Dungeon.currentRoom d) = None -> Dungeon.moveForward d = d.
Proof.
  intros Hnext. unfold Dungeon.moveForward. rewrite canMoveForward_next, Hnext. reflexivity.
Qed.

Lemma moveBack_previous d previous rest :
  Stack.topNode (Dungeon.path_tracker d) = previous :: rest ->
  Dungeon.moveBack d =
  Ok (Dungeon.mk (Dungeon.rooms d) (Dungeon.head d) previous
        (Player.useMove (Dungeon.player d))
        (Stack.mk rest (decr (Stack.count (Dungeon.path_tracker d))))).
Proof.
  intros Htop. unfold Dungeon.moveBack, Dungeon.canMoveBack, Stack.isEmpty.
  rewrite Htop. simpl.
  unfold Stack.top. simpl. rewrite Htop. simpl.
  unfold Stack.pop, Stack.isEmpty. simpl. rewrite Htop. reflexivity.
Qed.

Lemma moveBack_stuck d :
  Stack.topNode (Dungeon.path_tracker d) = [] -> Dungeon.moveBack d = Ok d.
Proof.
  intros Htop. unfold Dungeon.moveBack, Dungeon.canMoveBack, Stack.isEmpty.
  rewrite Htop. reflexivity.
Qed.

(** ** The inventory *)

Lemma has_add (item : string) (inv : Inventory.t string) :
  Inventory.has item (Inventory.add item inv) = true.
Proof.
  unfold Inventory.has, Inventory.add. simpl.
  rewrite existsb_app. simpl.
  rewrite bool_decide_eq_true_2 by reflexivity.
  rewrite !orb_true_r. reflexivity.
Qed.

Lemma items_add (item : string) (inv : Inventory.t string) :
  Inventory.items (Inventory.add item inv) = Inventory.items inv ++ [item].
Proof.
  unfold Inventory.add.
  destruct (Nat.eqb _ _); reflexivity.
Qed.

Lemma has_add_other (item other : string) (inv : Inventory.t string) :
  other <> item ->
  Inventory.has item (Inventory.add other inv) = Inventory.has item inv.
Proof.
  intros Hne. unfold Inventory.has. rewrite items_add, existsb_app. simpl.
  rewrite bool_decide_eq_false_2 by exact Hne.
  rewrite !orb_false_r. reflexivity.
Qed.

(* ================================================================= *)
(** * The claims about the data model *)

(** C7, the claim as stated fails: [top] on an empty stack does not
    return, it throws [runtime_error("Stack is empty.")]. *)
Lemma top_on_empty_throws :
  Stack.top (@Stack.empty RoomPtr) = Throw "Stack is empty." /\
  ~ (exists r, Stack.top (@Stack.empty RoomPtr) = Ok r).
Proof. split; [reflexivity | intros [r Hr]; discriminate Hr]. Qed.

(** C7 (amended): on an empty path-tracker stack [pop] is a no-op, the
    stack is returned unchanged, whereas [top] throws the runtime error
    "Stack is empty."; [moveBack], which tests [canMoveBack] before it
    calls [top], never throws. *)
Theorem pop_top_on_empty {T : Type} (s : Stack.t T) :
  Stack.isEmpty s = true ->
  Stack.pop s = s /\
  Stack.top s = Throw "Stack is empty." /\
  forall d, exists d', Dungeon.moveBack d = Ok d'.
Proof.
  intros Hempty. split; [| split].
  - unfold Stack.pop. rewrite Hempty. reflexivity.
  - apply isEmpty_topNode in Hempty. unfold Stack.top. rewrite Hempty. reflexivity.
  - apply moveBack_total.
Qed.

Lemma pop_top_on_empty_witness :
  Stack.isEmpty (@Stack.empty RoomPtr) = true /\
  Stack.pop (@Stack.empty RoomPtr) = Stack.empty /\
  Stack.top (@Stack.empty RoomPtr) = Throw "Stack is empty.".
Proof.
  split; [reflexivity |].
  destruct (pop_top_on_empty (@Stack.empty RoomPtr) eq_refl) as (Hpop & Htop & _).
  split; assumption.
Defined.

(** C3, the claim as stated fails: a negative amount takes health out of
    the range, above 100 through [takeDamage] and below 0 through
    [heal]; and so does [heal] with an amount above [INT_MAX - 100],
    whose sum with a health of 100 wraps around to a negative [int]. *)
Lemma amounts_leave_range :
  0 <= Player.health (Player.new "Hero" 100 10) <= 100 /\
  Player.health (apply_ops [TakeDamage (-50)] (Player.new "Hero" 100 10)) = 150 /\
  Player.health (apply_ops [Heal (-150)] (Player.new "Hero" 100 10)) = -50 /\
  Player.health (apply_ops [Heal 2147483647] (Player.new "Hero" 100 10)) = -2147483549 /\
  Player.health (apply_ops [Heal (INT_MAX - 99)] (Player.new "Hero" 100 10)) = INT_MIN.
Proof. repeat split; vm_compute; congruence. Qed.

(** C3 (amended): for every sequence of [takeDamage] and [heal]
    operations whose amounts are not negative, and for [heal] not above
    [INT_MAX - 100], applied to a player whose health starts within
    0..100, health remains within 0..100; and whatever the amount,
    [takeDamage] never leaves health below 0 and [heal] never leaves it
    above 100. *)
Theorem health_stays_in_range (p : Player.t) (ops : list HealthOp) :
  0 <= Player.health p <= 100 ->
  Forall amount_ok ops ->
  0 <= Player.health (apply_ops ops p) <= 100 /\
  (forall damage q, 0 <= Player.health (fst (Player.takeDamage damage q))) /\
  (forall amount q, Player.health (Player.heal amount q) <= 100).
Proof.
  intros Hp Hops. split; [| split; [apply takeDamage_lower | apply heal_upper]].
  revert p Hp. induction Hops as [| op ops Hop _ IH]; intros p Hp.
  - exact Hp.
  - simpl. apply IH. apply apply_op_range; assumption.
Qed.

Lemma health_stays_in_range_witness :
  0 <= Player.health (Player.new "Hero" 100 10) <= 100 /\
  Forall amount_ok
    [TakeDamage 10; TakeDamage INT_MAX; Heal (INT_MAX - 100); TakeDamage 50] /\
  0 <= Player.health
         (apply_ops [TakeDamage 10; TakeDamage INT_MAX; Heal (INT_MAX - 100); TakeDamage 50]
            (Player.new "Hero" 100 10)) <= 100 /\
  Player.health
    (apply_ops [TakeDamage 10; TakeDamage INT_MAX; Heal (INT_MAX - 100); TakeDamage 50]
       (Player.new "Hero" 100 10)) = 50.
Proof.
  assert (Hp : 0 <= Player.health (Player.new "Hero" 100 10) <= 100) by (simpl; lia).
  assert (Hops : Forall amount_ok
                   [TakeDamage 10; TakeDamage INT_MAX; Heal (INT_MAX - 100); TakeDamage 50])
    by (repeat constructor; unfold amount_ok, INT_MAX; lia).
  split; [exact Hp | split; [exact Hops |]].
  split; [exact (proj1 (health_stays_in_range _ _ Hp Hops)) | reflexivity].
Defined.

(** C8, the claim as stated fails: the potion heals by 100 and holds the
    sum at 100, it does not assign 100.  A player whose health is below
    0, as [heal] with a negative amount leaves it, has 50 after the
    potion; one whose health is above [INT_MAX - 100], as the
    constructor accepts it, has a negative health after it. *)
Lemma potion_not_to_full_health :
  Player.health (Player.heal (-150) (Player.new "Hero" 100 10)) = -50 /\
  Player.health
    (fst (interact (Item Potion "Elixir")
            (Player.heal (-150) (Player.new "Hero" 100 10)))) = 50 /\
  Player.health
    (fst (interact (Item Potion "Elixir") (Player.new "Hero" INT_MAX 10))) = INT_MIN + 99.
Proof. repeat split; vm_compute; congruence. Qed.

(** C8 (amended): interacting with a Potion heals by 100: it sets a
    health within 0..[INT_MAX - 100] to exactly 100, and no other health
    that is an [int]; it yields the "restored" message.  For every
    player, interacting with an item of any other class adds the name of
    the item to the inventory, leaves health unchanged and yields the
    "picked up" message naming the item. *)
Theorem Item_interact_effect (c : ItemClass) (n : string) (p : Player.t) :
  let p' := fst (interact (Item c n) p) in
  let result := snd (interact (Item c n) p) in
  match c with
  | Potion =>
      Player.health p' = Z.min 100 (wrap_int (Player.health p + 100)) /\
      (0 <= Player.health p <= INT_MAX - 100 -> Player.health p' = 100) /\
      (INT_MIN <= Player.health p <= INT_MAX ->
       Player.health p' = 100 -> 0 <= Player.health p <= INT_MAX - 100) /\
      result = "You drank the potion and feel fully restored!" /\
      contains "restored" result = true /\
      Player.inventory p' = Player.inventory p
  | _ =>
      Player.hasItem n p' = true /\
      Inventory.items (Player.inventory p') = Inventory.items (Player.inventory p) ++ [n] /\
      Player.health p' = Player.health p /\
      result = "You picked up the " +:+ n +:+ "." /\
      contains "picked up" result = true
  end /\
  Player.moves p' = Player.moves p /\
  Player.finalBossDefeated p' = Player.finalBossDefeated p.
Proof.
  cbv zeta.
  destruct c; cbn [interact Item_interact fst snd];
    (split; [| split; reflexivity]).
  3: {
    split; [apply heal_health |].
    split; [intros Hp; rewrite heal_health_small; unfold INT_MIN, INT_MAX in *; lia |].
    split; [| split; [reflexivity | split; reflexivity]].
    intros Hint. rewrite heal_health.
    destruct (Z_le_gt_dec (Player.health p) (INT_MAX - 100)) as [Hle | Hgt].
    - rewrite wrap_int_small; unfold INT_MIN, INT_MAX in *; lia.
    - assert (Hwrap : wrap_int (Player.health p + 100) = Player.health p + 100 - 2 ^ 32).
      { unfold wrap_int, INT_MIN, INT_MAX in *.
        rewrite <- (Z_mod_plus_full _ (-1) (2 ^ 32)).
        rewrite Z.mod_small; lia. }
      rewrite Hwrap. unfold INT_MIN, INT_MAX in *. lia. }
  all: split; [apply has_add |];
    (split; [apply items_add |]);
    (split; [reflexivity |]);
    (split; [reflexivity |]);
    reflexivity.
Qed.

Lemma Item_interact_effect_witness :
  0 <= Player.health (Player.new "Hero" 40 10) <= INT_MAX - 100 /\
  Player.health (fst (interact (Item Potion "Elixir") (Player.new "Hero" 40 10))) = 100 /\
  Player.hasItem "Sword" (fst (interact (Item Weapon "Sword") (Player.new "Hero" 40 10))) = true.
Proof.
  assert (Hp : 0 <= Player.health (Player.new "Hero" 40 10) <= INT_MAX - 100)
    by (unfold INT_MAX; simpl; lia).
  split; [exact Hp | split].
  - exact (proj1 (proj2 (proj1 (Item_interact_effect Potion "Elixir" _))) Hp).
  - exact (proj1 (proj1 (Item_interact_effect Weapon "Sword" (Player.new "Hero" 40 10)))).
Defined.




(* ================================================================= *)
(** * What the engine leaves alone *)

#[export] Instance room_le_preorder : PreOrder room_le.
Proof.
  split.
  - intros r. split; auto.
  - intros r1 r2 r3 [] []. split; try congruence.
    + destruct le_entity1 as [-> | ->]; auto.
    + destruct le_isChoiceRoom1 as [-> | ->]; auto.
Qed.

#[export] Instance rooms_le_preorder : PreOrder rooms_le.
Proof. unfold rooms_le. split; apply _. Qed.

Lemma rooms_le_update_room p f d :
  keeps_room f -> rooms_le (Dungeon.rooms d) (Dungeon.rooms (Dungeon.update_room p f d)).
Proof.
  intros Hf. unfold Dungeon.update_room.
  destruct p as [a |]; [| reflexivity].
  destruct (Dungeon.rooms d !! a) as [r |] eqn:Hr; [| reflexivity].
  cbn [Dungeon.set_rooms Dungeon.rooms].
  rewrite <- (list_insert_id _ _ _ Hr) at 1.
  apply Forall2_insert; [reflexivity | apply Hf].
Qed.

Lemma update_room_fields p f d :
  Dungeon.player (Dungeon.update_room p f d) = Dungeon.player d /\
  Dungeon.currentRoom (Dungeon.update_room p f d) = Dungeon.currentRoom d /\
  Dungeon.head (Dungeon.update_room p f d) = Dungeon.head d /\
  Dungeon.path_tracker (Dungeon.update_room p f d) = Dungeon.path_tracker d.
Proof.
  unfold Dungeon.update_room.
  destruct p as [a |]; [| auto].
  destruct (Dungeon.rooms d !! a); auto.
Qed.

Lemma addAction_fields action g :
  exists log, addAction action g = set_actionsLog log g.
Proof.
  unfold addAction. destruct (_ || _).
  - exists (actionsLog g). destruct g; reflexivity.
  - eexists. reflexivity.
Qed.

Ltac norm_addAction :=
  repeat match goal with
         | |- context [addAction ?a ?g] =>
             let log := fresh "log" in
             destruct (addAction_fields a g) as [log ->]
         end.

Lemma enemies_ok_le l l' : rooms_le l l' -> enemies_ok l -> enemies_ok l'.
Proof.
  unfold rooms_le, enemies_ok. induction 1 as [| r r' l l' Hr _ IH]; intros Hok.
  - constructor.
  - inversion Hok as [| ? ? Hr0 Hl0]; subst. constructor; [| apply IH, Hl0].
    unfold enemy_ok in *. destruct (le_entity _ _ Hr) as [-> | ->]; [exact Hr0 | exact I].
Qed.

Lemma player_steps_trans ok p1 p2 p3 :
  player_steps ok p1 p2 -> player_steps ok p2 p3 -> player_steps ok p1 p3.
Proof. intros H12 H23. induction H23; auto using player_steps. Qed.

Lemma player_steps_weaken (ok ok' : Prop) p p' :
  (ok' -> ok) -> player_steps ok p p' -> player_steps ok' p p'.
Proof. intros Himp H. induction H; auto using player_steps. Qed.

(** What a history guarantees: health stays within 0..100, moves do not
    grow, a defeated boss stays defeated, nothing leaves the
    inventory. *)
Lemma player_steps_facts (ok : Prop) p p' :
  player_steps ok p p' -> ok ->
  (0 <= Player.health p <= 100 -> 0 <= Player.health p' <= 100) /\
  Player.moves p' <= Player.moves p /\
  (Player.finalBossDefeated p = true -> Player.finalBossDefeated p' = true) /\
  (forall item, Player.hasItem item p = true -> Player.hasItem item p' = true) /\
  Player.name p' = Player.name p.
Proof.
  intros H Hok.
  induction H as [| damage p' Hd _ IH | amount p' Ha _ IH | item p' _ IH
                  | p' _ IH | p' _ IH];
    [| destruct IH as (Hh & Hm & Hb & Hi & Hn) ..];
    (split; [| split; [| split; [| split]]]);
    try (intros; assumption); try reflexivity; try lia;
    try exact Hh; try exact Hm; try exact Hb; try exact Hi; try exact Hn.
  - intros Hp. apply takeDamage_range; [exact (Hd Hok) | exact (Hh Hp)].
  - intros Hp. apply heal_range; [exact Ha | exact (Hh Hp)].
  - intros it Hit. unfold Player.hasItem, Player.collectItem, Inventory.has.
    cbn [Player.set_inventory Player.inventory]. rewrite items_add, existsb_app.
    apply orb_true_iff. left. apply Hi, Hit.
  - unfold Player.useMove, Player.set_moves. cbn [Player.moves]. lia.
Qed.

Create HintDb frame discriminated.

Lemma frame_refl g : frame g g.
Proof. repeat split; [reflexivity | constructor]. Qed.

Lemma frame_trans g1 g2 g3 : frame g1 g2 -> frame g2 g3 -> frame g1 g3.
Proof.
  intros (Hm1 & Hc1 & Hr1 & Hp1 & Hcur1 & Htr1) (Hm2 & Hc2 & Hr2 & Hp2 & Hcur2 & Htr2).
  repeat split;
    [congruence | congruence | etransitivity; eassumption | | congruence | congruence].
  eapply player_steps_trans; [exact Hp1 |].
  eapply player_steps_weaken; [| exact Hp2]. apply enemies_ok_le, Hr1.
Qed.

Lemma frame_set_currentState g g' x : frame g g' -> frame g (set_currentState x g').
Proof. intros H. exact H. Qed.
Lemma frame_set_message g g' x : frame g g' -> frame g (set_message x g').
Proof. intros H. exact H. Qed.
Lemma frame_set_actionsLog g g' x : frame g g' -> frame g (set_actionsLog x g').
Proof. intros H. exact H. Qed.
Lemma frame_set_m_isNewRoomEntry g g' x : frame g g' -> frame g (set_m_isNewRoomEntry x g').
Proof. intros H. exact H. Qed.
Lemma frame_set_gameOverScreen g g' x : frame g g' -> frame g (set_gameOverScreen x g').
Proof. intros H. exact H. Qed.
Lemma frame_set_nextStateID g g' x : frame g g' -> frame g (set_nextStateID x g').
Proof. intros H. exact H. Qed.
Lemma frame_set_currentStateID g g' x : frame g g' -> frame g (set_currentStateID x g').
Proof. intros H. exact H. Qed.
Lemma frame_set_currentTransition g g' x : frame g g' -> frame g (set_currentTransition x g').
Proof. intros H. exact H. Qed.
Lemma frame_set_transitionState g g' x : frame g g' -> frame g (set_transitionState x g').
Proof. intros H. exact H. Qed.

Lemma frame_addAction g g' action : frame g g' -> frame g (addAction action g').
Proof.
  intros H. unfold addAction.
  destruct (_ || _); [exact H | apply frame_set_actionsLog, H].
Qed.

Lemma frame_changeScreen g g' s : frame g g' -> frame g (changeScreen s g').
Proof.
  intros H. unfold changeScreen.
  destruct (currentTransition g'); try exact H.
  destruct (negb _); exact H.
Qed.

Lemma frame_triggerGameOver g g' why : frame g g' -> frame g (triggerGameOver why g').
Proof. intros H. unfold triggerGameOver. apply frame_changeScreen. exact H. Qed.

Lemma frame_update_room g g' p f :
  keeps_room f -> frame g g' -> frame g (update_room p f g').
Proof.
  intros Hf (Hm & Hc & Hr & Hp & Hcur & Htr).
  unfold frame, update_room, playerLogic, roomsOf.
  cbn [set_dungeonLogic dungeonLogic onTransitionComplete].
  destruct (update_room_fields p f (dungeonLogic g')) as (-> & -> & _ & ->).
  repeat split; [exact Hm | exact Hc | | exact Hp | exact Hcur | exact Htr].
  etransitivity; [exact Hr | apply rooms_le_update_room, Hf].
Qed.

Lemma frame_set_playerLogic g g' p :
  Player.moves p = Player.moves (playerLogic g') ->
  player_steps (enemies_ok (roomsOf g')) (playerLogic g') p ->
  frame g g' -> frame g (set_playerLogic p g').
Proof.
  intros Hmoves Hsteps (Hm & Hc & Hr & Hp & Hcur & Htr).
  repeat split; [| exact Hc | exact Hr | | exact Hcur | exact Htr].
  - unfold playerLogic in *. simpl. congruence.
  - eapply player_steps_trans; [exact Hp |].
    eapply player_steps_weaken; [| exact Hsteps]. apply enemies_ok_le, Hr.
Qed.

Lemma keeps_set_description s : keeps_room (Room.set_description s).
Proof. intros r. split; auto. Qed.

Lemma keeps_clear_entity s :
  keeps_room (fun r => Room.set_entity None (Room.set_description s r)).
Proof. intros r. split; auto. Qed.

Lemma keeps_clear_choice : keeps_room (Room.set_isChoiceRoom false).
Proof. intros r. split; auto. Qed.

#[export] Hint Resolve frame_refl frame_set_currentState frame_set_message
  frame_set_actionsLog frame_set_m_isNewRoomEntry frame_set_gameOverScreen
  frame_set_nextStateID frame_set_currentStateID frame_set_currentTransition
  frame_set_transitionState frame_addAction frame_changeScreen
  frame_triggerGameOver frame_update_room frame_set_playerLogic
  keeps_set_description keeps_clear_entity keeps_clear_choice
  steps_refl steps_heal steps_collectItem steps_setBossDefeated : frame.

#[export] Hint Extern 1 (0 <= _) => lia : frame.
#[export] Hint Extern 1 (0 <= _ <= _) => (unfold INT_MAX; lia) : frame.

Ltac frame_step := eauto 20 with frame.

Lemma frame_handleItemInteraction g g' :
  frame g g' -> frame g (handleItemInteraction g').
Proof.
  intros H. unfold handleItemInteraction.
  destruct (currentRoomObj g') as [room |]; [| exact H].
  destruct (Room.entity room) as [[c n | c n damage] |]; try exact H.
  destruct c; cbn [Item_interact]; frame_step.
Qed.

Lemma frame_checkRoomState g g' : frame g g' -> frame g (checkRoomState g').
Proof.
  intros H. unfold checkRoomState.
  destruct (currentRoomObj g') as [room |]; [| exact H].
  cbv zeta.
  assert (H' : frame g (if m_isNewRoomEntry g'
                        then set_m_isNewRoomEntry false
                               (addAction ("Entered The " +:+ Room.name room) g')
                        else g'))
    by (destruct (m_isNewRoomEntry g'); frame_step).
  destruct (Room.isFinalDoor room).
  - repeat (match goal with |- context [if ?b then _ else _] =>
                              destruct b end); frame_step.
  - destruct (Room.entity room) as [e |].
    + destruct (_ && _); [frame_step |].
      destruct (is_Enemy e); [frame_step |].
      apply frame_handleItemInteraction, H'.
    + destruct (Room.isChoiceRoom room); frame_step.
Qed.

Lemma enemy_here_ok g room c n damage :
  currentRoomObj g = Some room ->
  Room.entity room = Some (Enemy c n damage) ->
  enemies_ok (roomsOf g) -> 0 <= damage <= INT_MAX.
Proof.
  unfold currentRoomObj, Dungeon.deref, enemies_ok, roomsOf.
  destruct (Dungeon.getCurrentRoom (dungeonLogic g)) as [a |]; [| discriminate].
  intros Hroom Hentity Hok.
  pose proof (Forall_lookup_1 _ _ _ _ Hok Hroom) as Hr.
  unfold enemy_ok in Hr. rewrite Hentity in Hr. exact Hr.
Qed.

Lemma takeDamage_pair damage p :
  Player.takeDamage damage p =
  (fst (Player.takeDamage damage p), snd (Player.takeDamage damage p)).
Proof. reflexivity. Qed.

Lemma frame_takeDamage g g' damage :
  (enemies_ok (roomsOf g') -> 0 <= damage <= INT_MAX) ->
  frame g g' ->
  frame g (set_playerLogic (fst (Player.takeDamage damage (playerLogic g'))) g').
Proof.
  intros Hd H. apply frame_set_playerLogic; [reflexivity | | exact H].
  apply steps_takeDamage; [exact Hd | constructor].
Qed.

Lemma frame_handleCombat g g' : frame g g' -> frame g (handleCombat g').
Proof.
  intros H. unfold handleCombat.
  destruct (currentRoomObj g') as [room |] eqn:Hroom; [| exact H].
  destruct (Room.entity room) as [[c n | c n damage] |] eqn:Hentity; try exact H.
  pose proof (enemy_here_ok _ _ _ _ _ Hroom Hentity) as Hdamage.
  cbv zeta.
  assert (H0 : frame g (addAction ("Fought the " +:+ n) g')) by frame_step.
  assert (Hdamage0 : enemies_ok (roomsOf (addAction ("Fought the " +:+ n) g'))
                     -> 0 <= damage <= INT_MAX).
  { destruct (addAction_fields ("Fought the " +:+ n) g') as [log ->]. exact Hdamage. }
  set (g0 := addAction ("Fought the " +:+ n) g') in *.
  destruct (is_BossEnemy (Enemy c n damage));
    [destruct (Player.hasItem "Sword" _) |];
    rewrite takeDamage_pair; cbv beta iota zeta;
    match goal with
    | |- context [set_playerLogic (fst (Player.takeDamage ?d (playerLogic g0))) g0] =>
        assert (H1 : frame g
                  (set_playerLogic (fst (Player.takeDamage d (playerLogic g0))) g0))
          by (apply frame_takeDamage;
              [first [exact Hdamage0 | intros _; unfold INT_MAX; lia] | exact H0])
    end;
    destruct (Player.getHealth _ <=? 0); frame_step.
Qed.

Lemma frame_handleChoice g g' choice : frame g g' -> frame g (handleChoice choice g').
Proof.
  intros H. unfold handleChoice.
  destruct (currentRoomObj g') as [room |]; [| exact H].
  destruct (negb (Room.isChoiceRoom room)); [exact H |].
  cbv zeta. destruct (choice =? 1); frame_step.
Qed.

Lemma frame_onEnter g g' : frame g g' -> frame g (onEnter g').
Proof. intros H. unfold onEnter. apply frame_checkRoomState. frame_step. Qed.

Lemma frame_handleScreenTransition g g' elapsed :
  frame g g' -> frame g (handleScreenTransition elapsed g').
Proof.
  intros H. unfold handleScreenTransition.
  destruct (currentTransition g'); [exact H | |]; destruct elapsed; try exact H.
  cbv zeta. apply frame_set_currentTransition.
  destruct (currentStateID _);
    first [apply frame_onEnter; frame_step | apply frame_set_currentStateID, H].
Qed.

#[export] Hint Resolve frame_handleItemInteraction frame_checkRoomState
  frame_handleCombat frame_handleChoice frame_onEnter
  frame_handleScreenTransition : frame.

(* ================================================================= *)
(** * The engine never throws *)

Lemma runCallback_total cb g : exists g', runCallback cb g = Ok g'.
Proof.
  destruct cb; cbn [runCallback]; eauto.
  destruct (moveBack_total (dungeonLogic (set_m_isNewRoomEntry true g))) as [d Hd].
  cbv zeta. rewrite Hd. simpl. eauto.
Qed.

Lemma completeTransition_total g : exists g', completeTransition g = Ok g'.
Proof.
  unfold completeTransition.
  destruct (onTransitionComplete g) as [cb |]; [| eauto].
  destruct (runCallback_total cb g) as [g' Hg']. rewrite Hg'. simpl. eauto.
Qed.

Lemma GamePlayScreen_update_total elapsed g :
  exists g', GamePlayScreen_update elapsed g = Ok g'.
Proof.
  unfold GamePlayScreen_update.
  destruct (transitionState g); destruct elapsed; eauto.
  destruct (completeTransition_total g) as [g1 Hg1]. rewrite Hg1. simpl.
  destruct (_ <? 0); eauto.
Qed.

Lemma step_total i g : exists g', step i g = Ok g'.
Proof.
  destruct i as [event | screenElapsed gameElapsed]; simpl; [eauto |].
  unfold Game_update.
  destruct (currentTransition g); simpl; eauto.
  destruct (currentStateID g); simpl; eauto.
  destruct (GamePlayScreen_update_total screenElapsed g) as [g1 Hg1].
  rewrite Hg1. simpl. eauto.
Qed.

Lemma run_total inputs : forall g, exists g', run inputs g = Ok g'.
Proof.
  induction inputs as [| i rest IH]; intros g; simpl; [eauto |].
  destruct (step_total i g) as [g1 Hg1]. rewrite Hg1. simpl. apply IH.
Qed.

Lemma reachable_run inputs : forall g g',
  reachable g -> run inputs g = Ok g' -> reachable g'.
Proof.
  induction inputs as [| i rest IH]; intros g g' Hg; simpl.
  - intros [= <-]. exact Hg.
  - destruct (step i g) as [g1 |] eqn:Hstep; simpl; [| discriminate].
    apply IH. eapply reachable_step; eassumption.
Qed.

(* ================================================================= *)
(** * Moves are never negative *)

Lemma frame_moves_ok g g' : frame g g' -> moves_ok g -> moves_ok g'.
Proof. intros (Hm & Hc & _) [H0 H1]. unfold moves_ok. rewrite Hm, Hc. auto. Qed.

Lemma startTransition_moves_ok cb g :
  (is_navigation (Some cb) = true -> 1 <= Player.moves (playerLogic g)) ->
  moves_ok g -> moves_ok (startTransition cb g).
Proof.
  intros Hcb [H0 H1]. unfold startTransition.
  destruct (transitionState g); split; auto.
Qed.

Lemma handleEvent_moves_ok event g : moves_ok g -> moves_ok (handleEvent event g).
Proof.
  intros Hok. unfold handleEvent.
  destruct event as [code |]; [| exact Hok].
  destruct (transitionState g); try exact Hok.
  destruct (currentState g), code; try exact Hok;
    try (apply startTransition_moves_ok; [discriminate | exact Hok]).
  - destruct (Z.leb_spec (Player.getMoves (playerLogic g)) 0) as [Hle | Hgt].
    + eapply frame_moves_ok; [| exact Hok]. frame_step.
    + destruct (Dungeon.canMoveForward _); [| exact Hok].
      apply startTransition_moves_ok; [| exact Hok].
      intros _. unfold Player.getMoves in Hgt. lia.
  - destruct (Z.leb_spec (Player.getMoves (playerLogic g)) 0) as [Hle | Hgt].
    + eapply frame_moves_ok; [| exact Hok]. frame_step.
    + destruct (Dungeon.canMoveBack _); [| exact Hok].
      apply startTransition_moves_ok; [| exact Hok].
      intros _. unfold Player.getMoves in Hgt. lia.
  - destruct (inSwordRoomWithSword g); [| exact Hok].
    apply startTransition_moves_ok; [discriminate | exact Hok].
  - destruct (negb _); [| exact Hok].
    eapply frame_moves_ok; [| exact Hok]. frame_step.
  - eapply frame_moves_ok; [| exact Hok]. frame_step.
Qed.

(** What running a closure does to the moves: a navigation takes at most
    one, the other closures none. *)
Lemma runCallback_moves cb g g' :
  runCallback cb g = Ok g' ->
  if is_navigation (Some cb)
  then Player.moves (playerLogic g') = Player.moves (playerLogic g) - 1 \/
       Player.moves (playerLogic g') = Player.moves (playerLogic g)
  else Player.moves (playerLogic g') = Player.moves (playerLogic g).
Proof.
  destruct cb; cbn [runCallback is_navigation]; cbv zeta.
  - intros [= <-]. unfold playerLogic. cbn [set_dungeonLogic dungeonLogic].
    rewrite moveForward_moves. destruct (Dungeon.canMoveForward _); auto.
  - destruct (Dungeon.moveBack _) as [d |] eqn:Hback; simpl; [| discriminate].
    intros [= <-]. unfold playerLogic. cbn [set_dungeonLogic dungeonLogic].
    rewrite (moveBack_moves _ _ Hback). destruct (Dungeon.canMoveBack _); auto.
  - intros [= <-].
    assert (Hf : frame g
      (set_currentState EXPLORING
         (update_room room
            (fun r => Room.set_entity None
               (Room.set_description
                  "You grasp the sword. A surge of ultimate power floods your veins." r))
            (addAction "You collected the Sword."
               (set_playerLogic (Player.collectItem "Sword" (playerLogic g)) g)))))
      by frame_step.
    apply Hf.
  - intros [= <-]. apply (frame_handleCombat g g (frame_refl g)).
  - intros [= <-]. apply (frame_handleChoice g g choice (frame_refl g)).
  - intros [= <-]. reflexivity.
Qed.

Lemma completeTransition_moves g g1 :
  moves_ok g -> completeTransition g = Ok g1 ->
  moves_ok g1 /\
  (Player.moves (playerLogic g1) = Player.moves (playerLogic g) \/
   Player.moves (playerLogic g1) = Player.moves (playerLogic g) - 1 /\
   1 <= Player.moves (playerLogic g)).
Proof.
  intros [H0 H1]. unfold completeTransition.
  destruct (onTransitionComplete g) as [cb |] eqn:Hcb.
  - destruct (runCallback cb g) as [g' |] eqn:Hrun; simpl; [| discriminate].
    intros [= <-].
    apply runCallback_moves in Hrun.
    unfold moves_ok, playerLogic in *. cbn [set_onTransitionComplete dungeonLogic onTransitionComplete is_navigation].
    destruct (is_navigation (Some cb)) eqn:Hnav.
    + specialize (H1 eq_refl). split; [split; [lia | discriminate] | lia].
    + split; [split; [lia | discriminate] | lia].
  - intros [= <-]. split; [| auto].
    split; [exact H0 | rewrite Hcb; discriminate].
Qed.

Lemma GamePlayScreen_update_moves_ok elapsed g g' :
  moves_ok g -> GamePlayScreen_update elapsed g = Ok g' -> moves_ok g'.
Proof.
  intros Hok. unfold GamePlayScreen_update.
  destruct (transitionState g); destruct elapsed; try (intros [= <-]; exact Hok).
  destruct (completeTransition g) as [g1 |] eqn:Hg1; simpl; [| discriminate].
  destruct (completeTransition_moves _ _ Hok Hg1) as [Hok1 _].
  destruct (_ <? 0); intros [= <-];
    (eapply frame_moves_ok; [| exact Hok1]); frame_step.
Qed.

Lemma step_moves_ok i g g' : moves_ok g -> step i g = Ok g' -> moves_ok g'.
Proof.
  intros Hok. destruct i as [event | screenElapsed gameElapsed]; simpl.
  - intros [= <-]. unfold processEvents.
    destruct (currentTransition g); try exact Hok.
    destruct (currentStateID g); try exact Hok.
    + apply handleEvent_moves_ok, Hok.
    + destruct (gameOverScreen g); [| exact Hok].
      unfold GameOverScreen_handleEvent.
      destruct event as [[] |]; try exact Hok.
      eapply frame_moves_ok; [| exact Hok]. frame_step.
  - unfold Game_update.
    assert (Hscr : forall g1,
               match currentTransition g with
               | TransitionState.NONE =>
                   match currentStateID g with
                   | GameStateID.GAMEPLAY => GamePlayScreen_update screenElapsed g
                   | _ => Ok g
                   end
               | _ => Ok g
               end = Ok g1 -> moves_ok g1).
    { intros g1. destruct (currentTransition g); try (intros [= <-]; exact Hok).
      destruct (currentStateID g); try (intros [= <-]; exact Hok).
      apply GamePlayScreen_update_moves_ok, Hok. }
    destruct (match currentTransition g with
              | TransitionState.NONE => _ | _ => _ end) as [g1 |]; simpl; [| discriminate].
    intros [= <-]. eapply frame_moves_ok; [| apply Hscr; reflexivity]. frame_step.
Qed.

Lemma startGameplay_player playerName g :
  playerLogic (startGameplay playerName g) = Player.new playerName 100 10 /\
  onTransitionComplete (startGameplay playerName g) = None.
Proof.
  unfold startGameplay, changeScreen. cbv zeta.
  cbn [currentTransition currentStateID].
  destruct (currentTransition g); [destruct (negb _) |..]; split; reflexivity.
Qed.

Lemma reachable_moves_ok g : reachable g -> moves_ok g.
Proof.
  induction 1 as [playerName g _ _ | i g g' _ IH Hstep].
  - destruct (startGameplay_player playerName g) as [Hp Hcb].
    unfold moves_ok. rewrite Hp, Hcb. simpl. split; [lia | discriminate].
  - eapply step_moves_ok; eassumption.
Qed.

(** C10: in every state reachable from the start of a session, where
    moves are 10, the moves of the player are not negative.  When the
    pending closure runs, it either leaves the moves alone or takes one
    from a count that was at least 1, so the test [moves < 0] that
    follows it in [update] is false: that branch is never taken. *)
Theorem moves_never_negative (g : Game) :
  reachable g ->
  0 <= Player.moves (playerLogic g) /\
  forall g1, completeTransition g = Ok g1 ->
    (Player.moves (playerLogic g1) = Player.moves (playerLogic g) \/
     Player.moves (playerLogic g1) = Player.moves (playerLogic g) - 1 /\
     1 <= Player.moves (playerLogic g)) /\
    (Player.getMoves (playerLogic g1) <? 0) = false.
Proof.
  intros Hreach. pose proof (reachable_moves_ok g Hreach) as Hok.
  split; [apply Hok |].
  intros g1 Hg1.
  destruct (completeTransition_moves _ _ Hok Hg1) as [[H0 _] Hdec].
  split; [exact Hdec |].
  apply Z.ltb_ge. exact H0.
Qed.

(* ================================================================= *)
(** * Ending the session *)

Lemma playerLogic_update_room p f g :
  playerLogic (update_room p f g) = playerLogic g.
Proof.
  unfold playerLogic, update_room. cbn [set_dungeonLogic dungeonLogic].
  apply update_room_fields.
Qed.

Lemma triggerGameOver_ends why g :
  in_gameplay g ->
  session_ends why (triggerGameOver why g) /\
  dungeonLogic (triggerGameOver why g) = dungeonLogic g /\
  currentState (triggerGameOver why g) = currentState g /\
  transitionState (triggerGameOver why g) = transitionState g /\
  onTransitionComplete (triggerGameOver why g) = onTransitionComplete g /\
  actionsLog (triggerGameOver why g) = actionsLog g.
Proof.
  intros [Hid Htr]. unfold triggerGameOver, changeScreen, session_ends.
  cbn [set_gameOverScreen currentTransition currentStateID].
  rewrite Htr, Hid. cbn [GameStateID.eqb negb].
  split; [eexists; repeat split | repeat split].
Qed.

(** C1: when the room under the cursor is the final door, evaluating the
    room ends the session, with the winning reason if and only if the
    player holds the "Golden Key" and has defeated the final boss; in
    every other case with a losing reason, which tells whether the key
    was held. *)
Theorem final_door_outcome (g : Game) (room : Room.t) :
  currentRoomObj g = Some room ->
  Room.isFinalDoor room = true ->
  in_gameplay g ->
  let key := Player.hasItem "Golden Key" (playerLogic g) in
  let boss := Player.isFinalBossDefeated (playerLogic g) in
  exists s,
    gameOverScreen (checkRoomState g) = Some s /\
    nextStateID (checkRoomState g) = GameStateID.GAME_OVER /\
    currentTransition (checkRoomState g) = TransitionState.FADING_OUT /\
    (win s = true <-> key = true /\ boss = true) /\
    reason s =
      (if key && boss then "You used the Golden key and escaped. You are VICTORIOUS!"
       else if key then "The final door is locked tight. The boss must be defeated!"
       else "The final door is locked. You needed the Golden Key.").
Proof.
  intros Hroom Hfinal Hin key boss. unfold checkRoomState.
  rewrite Hroom, Hfinal. cbv zeta.
  set (g0 := if m_isNewRoomEntry g then _ else g).
  assert (Hp : playerLogic g0 = playerLogic g /\ in_gameplay g0).
  { subst g0. destruct (m_isNewRoomEntry g); [| auto].
    norm_addAction. auto. }
  destruct Hp as [-> Hin0]. fold key boss.
  destruct key, boss; cbn [andb];
    match goal with
    | |- context [triggerGameOver ?why g0] =>
        destruct (triggerGameOver_ends why g0 Hin0) as ((bg & -> & -> & ->) & _)
    end;
    eexists; (split; [reflexivity |]); (split; [reflexivity |]);
    (split; [reflexivity |]); (split; [| reflexivity]);
    unfold win; cbn [reason]; vm_compute; intuition congruence.
Qed.

Lemma playerLogic_triggerGameOver why g :
  playerLogic (triggerGameOver why g) = playerLogic g /\
  message (triggerGameOver why g) = message g.
Proof.
  unfold triggerGameOver, changeScreen. cbn [set_gameOverScreen currentTransition].
  destruct (currentTransition g); [destruct (negb _) |..]; split; reflexivity.
Qed.

Ltac combat_cases :=
  match goal with
  | |- context [Player.set_health ?h ?q] =>
      let p1 := fresh "p1" in
      set (p1 := Player.set_health h q);
      match goal with
      | |- context [Player.getHealth ?q1 <=? 0] =>
          change (Player.getHealth q1) with (Player.health p1)
      end;
      destruct (Player.health p1 <=? 0)
  end.

Lemma handleCombat_player g room c n damage :
  currentRoomObj g = Some room ->
  Room.entity room = Some (Enemy c n damage) ->
  let p1 := fst (Player.takeDamage (effectiveDamageOf c damage (playerLogic g)) (playerLogic g)) in
  playerLogic (handleCombat g) =
    (if Player.health p1 <=? 0 then p1
     else if is_BossEnemy (Enemy c n damage) then Player.setBossDefeated true p1
     else p1).
Proof.
  intros Hroom Hentity. unfold handleCombat. rewrite Hroom, Hentity.
  cbv zeta. norm_addAction.
  change (playerLogic (set_actionsLog log g)) with (playerLogic g).
  unfold effectiveDamageOf, Player.takeDamage.
  destruct c; cbn [is_BossEnemy fst]; try destruct (Player.hasItem "Sword" _);
    cbv beta iota zeta.
  all: combat_cases;
       [ rewrite (proj1 (playerLogic_triggerGameOver _ _)); norm_addAction; reflexivity
       | match goal with
         | |- playerLogic (set_currentState _ ?x) = _ =>
             change (playerLogic (set_currentState MESSAGE x)) with (playerLogic x)
         end;
         rewrite playerLogic_update_room; norm_addAction; reflexivity ].
Qed.

Lemma handleCombat_message g room c n damage :
  currentRoomObj g = Some room ->
  Room.entity room = Some (Enemy c n damage) ->
  message (handleCombat g) =
    combatPrefix c (playerLogic g)
    +:+ snd (Player.takeDamage (effectiveDamageOf c damage (playerLogic g)) (playerLogic g)).
Proof.
  intros Hroom Hentity. unfold handleCombat. rewrite Hroom, Hentity.
  cbv zeta. norm_addAction.
  change (playerLogic (set_actionsLog log g)) with (playerLogic g).
  unfold effectiveDamageOf, combatPrefix, Player.takeDamage.
  destruct c; cbn [is_BossEnemy snd]; try destruct (Player.hasItem "Sword" _);
    cbv beta iota zeta.
  all: combat_cases;
       [ rewrite (proj2 (playerLogic_triggerGameOver _ _)); norm_addAction; reflexivity
       | norm_addAction; reflexivity ].
Qed.

(** C2: fighting the boss of the dungeon, whose damage is 75, applies a
    damage of exactly 50 if the inventory holds the "Sword" and of
    exactly 75 if it does not, and the message says so: health becomes
    what [takeDamage] makes of it, the difference as an [int], or 0 if
    that is negative; for every health that is an [int] of at least
    [INT_MIN] plus the damage, the difference is the exact one.
    [finalBossDefeated] is set if and only if health is above 0 after the
    damage, and is left as it was otherwise. *)
Theorem boss_combat (g : Game) (room : Room.t) (bossName : string) :
  currentRoomObj g = Some room ->
  Room.entity room = Some (Enemy BossEnemy bossName 75) ->
  let p := playerLogic g in
  let p' := playerLogic (handleCombat g) in
  let effectiveDamage := if Player.hasItem "Sword" p then 50 else 75 in
  Player.health p' = Z.max 0 (wrap_int (Player.health p - effectiveDamage)) /\
  (INT_MIN + effectiveDamage <= Player.health p <= INT_MAX ->
   Player.health p' = Z.max 0 (Player.health p - effectiveDamage)) /\
  message (handleCombat g) =
    (if Player.hasItem "Sword" p
     then "Your Sword glows, weakening the boss!" +:+ nl
     else "You are unarmed against the mighty boss!" +:+ nl)
    +:+ "You took " +:+ to_string effectiveDamage +:+ " damage!" /\
  Player.finalBossDefeated p' = Player.finalBossDefeated p || (0 <? Player.health p') /\
  (Player.finalBossDefeated p = false ->
   (Player.finalBossDefeated p' = true <-> 0 < Player.health p')).
Proof.
  intros Hroom Hentity p p' effectiveDamage.
  pose proof (handleCombat_player _ _ _ _ _ Hroom Hentity) as Hp.
  pose proof (handleCombat_message _ _ _ _ _ Hroom Hentity) as Hmsg.
  cbv zeta in Hp. cbn [effectiveDamageOf combatPrefix is_BossEnemy] in Hp, Hmsg.
  fold p in Hp, Hmsg. fold effectiveDamage in Hp, Hmsg. fold p' in Hp.
  pose proof (takeDamage_health effectiveDamage p) as Hh.
  set (p1 := fst (Player.takeDamage effectiveDamage p)) in *.
  assert (Hflag1 : Player.finalBossDefeated p1 = Player.finalBossDefeated p) by reflexivity.
  assert (Hmain :
    Player.health p' = Z.max 0 (wrap_int (Player.health p - effectiveDamage)) /\
    Player.finalBossDefeated p' = Player.finalBossDefeated p || (0 <? Player.health p')).
  { rewrite Hp. destruct (Z.leb_spec (Player.health p1) 0) as [Hdead | Halive].
    - split; [exact Hh |]. rewrite Hflag1.
      rewrite (proj2 (Z.ltb_ge _ _)) by lia. rewrite orb_false_r. reflexivity.
    - cbn [Player.setBossDefeated Player.health Player.finalBossDefeated].
      split; [exact Hh |].
      rewrite (proj2 (Z.ltb_lt _ _)) by lia. rewrite orb_true_r. reflexivity. }
  destruct Hmain as [Hhealth Hflag].
  split; [exact Hhealth |]. split; [| split].
  - intros Hint. rewrite Hhealth, wrap_int_small; [reflexivity |].
    assert (0 <= effectiveDamage)
      by (unfold effectiveDamage; destruct (Player.hasItem "Sword" p); lia).
    lia.
  - rewrite Hmsg. unfold effectiveDamage. destruct (Player.hasItem "Sword" p); reflexivity.
  - split; [exact Hflag |]. intros Hbefore. rewrite Hflag, Hbefore. simpl.
    apply Z.ltb_lt.
Qed.

(* ================================================================= *)
(** * Sessions played out *)

Lemma state_after_reachable inputs : reachable (state_after inputs).
Proof.
  unfold state_after.
  destruct (run_total inputs newGame) as [g Hg]. rewrite Hg.
  eapply reachable_run; [| exact Hg].
  apply reachable_start; reflexivity.
Qed.

(** Scenario of the specification: three minion rooms without the
    weapon leave health 70 and moves 7. *)
Example three_minions :
  let g := state_after
             (boot ++ press Keyboard.F ++ press Keyboard.F ++ press Keyboard.Enter
                ++ press Keyboard.F ++ press Keyboard.F ++ press Keyboard.Enter
                ++ press Keyboard.F ++ press Keyboard.F ++ press Keyboard.Enter) in
  Player.health (playerLogic g) = 70 /\
  Player.moves (playerLogic g) = 7 /\
  gameOverScreen g = None.
Proof. vm_compute. auto. Qed.

(** Scenario of the specification: with the sword collected, the fight
    with the boss costs 50, not 75. *)
Example boss_with_sword :
  Player.health (playerLogic at_boss) = 60 /\
  Player.health (playerLogic (state_after
    (to_sword_room ++ press Keyboard.C ++ press Keyboard.F ++ press Keyboard.Num1
       ++ press Keyboard.F ++ press Keyboard.F ++ press Keyboard.Enter
       ++ press Keyboard.F ++ press Keyboard.F))) = 10.
Proof. vm_compute. auto. Qed.

(** Scenario of the specification: the potion is chosen, health is
    forced to 100 and the key is never granted; the final door then ends
    the session as a loss for want of the key. *)
Example potion_then_final_door :
  let chosen := state_after (to_sword_room ++ press Keyboard.F ++ press Keyboard.Num2) in
  let ended := state_after
                 (to_sword_room ++ press Keyboard.F ++ press Keyboard.Num2
                    ++ press Keyboard.F ++ press Keyboard.F ++ press Keyboard.Enter
                    ++ press Keyboard.F ++ press Keyboard.F ++ press Keyboard.Enter
                    ++ press Keyboard.F) in
  Player.health (playerLogic chosen) = 100 /\
  Player.hasItem "Golden Key" (playerLogic chosen) = false /\
  Player.hasItem "Golden Key" (playerLogic ended) = false /\
  currentStateID ended = GameStateID.GAME_OVER /\
  gameOverScreen ended =
    Some (mkGameOverScreen "The final door is locked. You needed the Golden Key."
            "finaldoor.png").
Proof. vm_compute. repeat split. Qed.

(** The winning session: sword, key, every enemy fought, the door. *)
Example winning_session :
  let ended := state_after (to_final_door ++ [Update true true; Update true true]) in
  currentStateID ended = GameStateID.GAME_OVER /\
  (exists s, gameOverScreen ended = Some s /\ win s = true).
Proof. vm_compute. split; [reflexivity | eexists; split; reflexivity]. Qed.

Lemma moves_never_negative_witness :
  reachable in_monster_den /\
  Player.moves (playerLogic in_monster_den) = 0 /\
  0 <= Player.moves (playerLogic in_monster_den) /\
  (Player.getMoves (playerLogic in_monster_den) <? 0) = false.
Proof.
  assert (Hreach : reachable in_monster_den) by exact (state_after_reachable to_monster_den).
  assert (Hmoves : Player.moves (playerLogic in_monster_den) = 0) by (vm_compute; reflexivity).
  assert (Hidle : completeTransition in_monster_den = Ok in_monster_den)
    by (vm_compute; reflexivity).
  destruct (moves_never_negative in_monster_den Hreach) as [Hpos Hrun].
  split; [exact Hreach | split; [exact Hmoves | split; [exact Hpos |]]].
  exact (proj2 (Hrun in_monster_den Hidle)).
Defined.

Lemma final_door_outcome_witness :
  currentRoomObj at_final_door = Some (room_here at_final_door) /\
  Room.isFinalDoor (room_here at_final_door) = true /\
  in_gameplay at_final_door /\
  exists s, gameOverScreen (checkRoomState at_final_door) = Some s /\ win s = true.
Proof.
  assert (Hroom : currentRoomObj at_final_door = Some (room_here at_final_door))
    by (vm_compute; reflexivity).
  assert (Hfinal : Room.isFinalDoor (room_here at_final_door) = true)
    by (vm_compute; reflexivity).
  assert (Hin : in_gameplay at_final_door) by (split; vm_compute; reflexivity).
  split; [exact Hroom | split; [exact Hfinal | split; [exact Hin |]]].
  destruct (final_door_outcome _ _ Hroom Hfinal Hin) as (s & Hs & _ & _ & Hwin & _).
  exists s. split; [exact Hs |].
  apply Hwin. split; vm_compute; reflexivity.
Defined.

Lemma boss_combat_witness :
  currentRoomObj at_boss = Some (room_here at_boss) /\
  Room.entity (room_here at_boss) = Some (Enemy BossEnemy "Final Boss" 75) /\
  Player.hasItem "Sword" (playerLogic at_boss) = true /\
  Player.health (playerLogic at_boss) = 60 /\
  Player.health (playerLogic (handleCombat at_boss)) = 10 /\
  Player.finalBossDefeated (playerLogic (handleCombat at_boss)) = true.
Proof.
  assert (Hroom : currentRoomObj at_boss = Some (room_here at_boss))
    by (vm_compute; reflexivity).
  assert (Hentity : Room.entity (room_here at_boss) = Some (Enemy BossEnemy "Final Boss" 75))
    by (vm_compute; reflexivity).
  assert (Hsword : Player.hasItem "Sword" (playerLogic at_boss) = true)
    by (vm_compute; reflexivity).
  assert (Hhealth : Player.health (playerLogic at_boss) = 60)
    by (vm_compute; reflexivity).
  split; [exact Hroom | split; [exact Hentity | split; [exact Hsword | split; [exact Hhealth |]]]].
  destruct (boss_combat _ _ _ Hroom Hentity) as (_ & Hh & _ & Hflag & _).
  rewrite Hsword, Hhealth in Hh.
  specialize (Hh ltac:(unfold INT_MIN, INT_MAX; lia)).
  split; [exact Hh |].
  rewrite Hflag, Hh. apply orb_true_r.
Defined.

(* ================================================================= *)
(** * Rooms and player over a session *)

Lemma valid_ptr_length l l' p : length l' = length l -> valid_ptr l p -> valid_ptr l' p.
Proof. intros Hlen. destruct p; simpl; [rewrite Hlen |]; auto. Qed.

(** Pointers that were valid stay valid when the rooms change within
    [rooms_le], the cursor and the tracker being what they were. *)
Lemma pointers_ok_le g g' :
  rooms_le (roomsOf g) (roomsOf g') ->
  Dungeon.currentRoom (dungeonLogic g') = Dungeon.currentRoom (dungeonLogic g) ->
  Dungeon.path_tracker (dungeonLogic g') = Dungeon.path_tracker (dungeonLogic g) ->
  pointers_ok g -> pointers_ok g'.
Proof.
  intros Hr Hcur Htr (Hc & Ht & Hn).
  pose proof (Forall2_length _ _ _ Hr) as Hlen. symmetry in Hlen.
  unfold pointers_ok. rewrite Hcur, Htr. split; [| split].
  - apply (valid_ptr_length _ _ _ Hlen), Hc.
  - eapply Forall_impl; [exact Ht |]. intros p. apply valid_ptr_length, Hlen.
  - apply Forall_lookup_2. intros a r' Hr'.
    destruct (Forall2_lookup_r _ _ _ _ _ Hr Hr') as (r & Hra & Hle).
    rewrite (le_next _ _ Hle).
    destruct (Forall_lookup_1 _ _ _ _ Hn Hra) as [Hnone | Hvalid]; [left; exact Hnone |].
    right. apply (valid_ptr_length _ _ _ Hlen), Hvalid.
Qed.

Lemma session_le_refl g : session_le g g.
Proof. split; [reflexivity | split; [constructor | auto]]. Qed.

Lemma session_le_trans g1 g2 g3 : session_le g1 g2 -> session_le g2 g3 -> session_le g1 g3.
Proof.
  intros (Hr1 & Hp1 & Hptr1) (Hr2 & Hp2 & Hptr2).
  split; [etransitivity; eassumption | split; [| auto]].
  eapply player_steps_trans; [exact Hp1 |].
  eapply player_steps_weaken; [| exact Hp2]. apply enemies_ok_le, Hr1.
Qed.

Lemma session_le_of_frame g g' : frame g g' -> session_le g g'.
Proof.
  intros (_ & _ & Hr & Hp & Hcur & Htr).
  split; [exact Hr | split; [exact Hp |]].
  apply pointers_ok_le; assumption.
Qed.

Lemma session_le_eq g g' : dungeonLogic g' = dungeonLogic g -> session_le g g'.
Proof.
  intros Heq. unfold session_le, pointers_ok, roomsOf, playerLogic. rewrite Heq.
  split; [reflexivity | split; [constructor | auto]].
Qed.

Lemma dungeonLogic_startTransition cb g :
  dungeonLogic (startTransition cb g) = dungeonLogic g.
Proof. unfold startTransition. destruct (transitionState g); reflexivity. Qed.

Lemma rooms_moveForward d : Dungeon.rooms (Dungeon.moveForward d) = Dungeon.rooms d.
Proof. unfold Dungeon.moveForward. destruct (Dungeon.canMoveForward d); reflexivity. Qed.

Lemma rooms_moveBack d d' : Dungeon.moveBack d = Ok d' -> Dungeon.rooms d' = Dungeon.rooms d.
Proof.
  unfold Dungeon.moveBack. destruct (Dungeon.canMoveBack d); [| congruence].
  cbv zeta. destruct (Stack.top _); simpl; [| discriminate].
  intros [= <-]. reflexivity.
Qed.

Lemma player_moveForward (ok : Prop) d :
  player_steps ok (Dungeon.player d) (Dungeon.player (Dungeon.moveForward d)).
Proof.
  unfold Dungeon.moveForward. destruct (Dungeon.canMoveForward d); cbn.
  - apply steps_useMove. constructor.
  - constructor.
Qed.

Lemma player_moveBack (ok : Prop) d d' :
  Dungeon.moveBack d = Ok d' ->
  player_steps ok (Dungeon.player d) (Dungeon.player d').
Proof.
  unfold Dungeon.moveBack. destruct (Dungeon.canMoveBack d).
  - cbv zeta. destruct (Stack.top _); simpl; [| discriminate].
    intros [= <-]. cbn. apply steps_useMove. constructor.
  - intros [= <-]. constructor.
Qed.

Lemma pointers_moveForward g :
  pointers_ok g ->
  pointers_ok (set_dungeonLogic (Dungeon.moveForward (dungeonLogic g)) g).
Proof.
  intros (Hc & Ht & Hn). unfold pointers_ok, roomsOf in *.
  cbn [set_dungeonLogic dungeonLogic]. rewrite rooms_moveForward.
  destruct (Dungeon.next_of (dungeonLogic g) (Dungeon.currentRoom (dungeonLogic g)))
    as [successor |] eqn:Hnext.
  - rewrite (moveForward_successor _ _ Hnext).
    cbn [Dungeon.currentRoom Dungeon.path_tracker Stack.push Stack.topNode].
    split; [| split; [constructor; assumption | exact Hn]].
    unfold Dungeon.next_of, Dungeon.deref in Hnext.
    destruct (Dungeon.currentRoom (dungeonLogic g)) as [a |]; [| discriminate].
    destruct (Dungeon.rooms (dungeonLogic g) !! a) as [r |] eqn:Hr; [| discriminate].
    destruct (Forall_lookup_1 _ _ _ _ Hn Hr) as [Hnone | Hvalid]; [congruence |].
    rewrite Hnext in Hvalid. exact Hvalid.
  - rewrite (moveForward_stuck _ Hnext). auto.
Qed.

Lemma pointers_moveBack g d :
  Dungeon.moveBack (dungeonLogic g) = Ok d ->
  pointers_ok g -> pointers_ok (set_dungeonLogic d g).
Proof.
  intros Hback (Hc & Ht & Hn). unfold pointers_ok, roomsOf in *.
  cbn [set_dungeonLogic dungeonLogic].
  destruct (Stack.topNode (Dungeon.path_tracker (dungeonLogic g)))
    as [| previous rest] eqn:Htop.
  - rewrite (moveBack_stuck _ Htop) in Hback. injection Hback as <-.
    rewrite Htop. auto.
  - rewrite (moveBack_previous _ _ _ Htop) in Hback. injection Hback as <-.
    cbn [Dungeon.rooms Dungeon.currentRoom Dungeon.path_tracker Stack.topNode].
    inversion Ht; subst. auto.
Qed.

Ltac session_trivial :=
  first [apply session_le_refl | apply session_le_eq; reflexivity].

Lemma session_le_handleEvent event g : session_le g (handleEvent event g).
Proof.
  unfold handleEvent.
  destruct event as [code |]; [| session_trivial].
  destruct (transitionState g); try session_trivial.
  destruct (currentState g), code; try session_trivial;
    repeat match goal with
           | |- context [if ?b then _ else _] => destruct b
           end;
    first [ session_trivial
          | apply session_le_eq, dungeonLogic_startTransition
          | apply session_le_of_frame; frame_step ].
Qed.

Lemma session_le_runCallback cb g g' : runCallback cb g = Ok g' -> session_le g g'.
Proof.
  destruct cb; cbn [runCallback]; cbv zeta.
  - intros [= <-]. split; [| split].
    + unfold roomsOf. cbn [set_dungeonLogic dungeonLogic]. rewrite rooms_moveForward.
      reflexivity.
    + apply player_moveForward.
    + apply pointers_moveForward.
  - destruct (Dungeon.moveBack _) as [d |] eqn:Hback; simpl; [| discriminate].
    intros [= <-]. split; [| split].
    + unfold roomsOf. cbn [set_dungeonLogic dungeonLogic].
      rewrite (rooms_moveBack _ _ Hback). reflexivity.
    + apply (player_moveBack _ _ _ Hback).
    + apply (pointers_moveBack _ _ Hback).
  - intros [= <-]. apply session_le_of_frame. frame_step.
  - intros [= <-]. apply session_le_of_frame. frame_step.
  - intros [= <-]. apply session_le_of_frame. frame_step.
  - intros [= <-]. apply session_le_eq. reflexivity.
Qed.

Lemma session_le_GamePlayScreen_update elapsed g g' :
  GamePlayScreen_update elapsed g = Ok g' -> session_le g g'.
Proof.
  unfold GamePlayScreen_update.
  destruct (transitionState g); destruct elapsed;
    try (intros [= <-]; session_trivial).
  unfold completeTransition.
  assert (Hcb : forall g1,
             match onTransitionComplete g with
             | Some cb => do g0 <- runCallback cb g; Ok (set_onTransitionComplete None g0)
             | None => Ok g
             end = Ok g1 -> session_le g g1).
  { intros g1. destruct (onTransitionComplete g) as [cb |];
      [| intros [= <-]; session_trivial].
    destruct (runCallback cb g) as [g0 |] eqn:Hrun; simpl; [| discriminate].
    intros [= <-]. apply (session_le_runCallback _ _ _ Hrun). }
  destruct (match onTransitionComplete g with Some _ => _ | None => _ end) as [g1 |];
    simpl; [| discriminate].
  specialize (Hcb g1 eq_refl).
  destruct (_ <? 0); intros [= <-]; (eapply session_le_trans; [exact Hcb |]);
    apply session_le_of_frame; frame_step.
Qed.

Lemma session_le_step i g g' : step i g = Ok g' -> session_le g g'.
Proof.
  destruct i as [event | screenElapsed gameElapsed]; simpl.
  - intros [= <-]. unfold processEvents.
    destruct (currentTransition g); try session_trivial.
    destruct (currentStateID g); try session_trivial.
    + apply session_le_handleEvent.
    + destruct (gameOverScreen g); [| session_trivial].
      unfold GameOverScreen_handleEvent.
      destruct event as [[] |]; try session_trivial.
      apply session_le_of_frame. frame_step.
  - unfold Game_update.
    assert (Hscr : forall g1,
               match currentTransition g with
               | TransitionState.NONE =>
                   match currentStateID g with
                   | GameStateID.GAMEPLAY => GamePlayScreen_update screenElapsed g
                   | _ => Ok g
                   end
               | _ => Ok g
               end = Ok g1 -> session_le g g1).
    { intros g1. destruct (currentTransition g);
        try (intros [= <-]; session_trivial).
      destruct (currentStateID g); try (intros [= <-]; session_trivial).
      apply session_le_GamePlayScreen_update. }
    destruct (match currentTransition g with
              | TransitionState.NONE => _ | _ => _ end) as [g1 |]; simpl; [| discriminate].
    intros [= <-]. eapply session_le_trans; [apply Hscr; reflexivity |].
    apply session_le_of_frame. frame_step.
Qed.

Lemma session_le_run inputs : forall g g', run inputs g = Ok g' -> session_le g g'.
Proof.
  induction inputs as [| i rest IH]; intros g g'; simpl.
  - intros [= <-]. session_trivial.
  - destruct (step i g) as [g1 |] eqn:Hstep; simpl; [| discriminate].
    intros Hrun. eapply session_le_trans; [apply (session_le_step _ _ _ Hstep) | apply IH, Hrun].
Qed.

Lemma rooms_le_run inputs g g' :
  run inputs g = Ok g' -> rooms_le (roomsOf g) (roomsOf g').
Proof. intros Hrun. apply (session_le_run _ _ _ Hrun). Qed.

(** Every reachable state descends from the start of its session. *)
Lemma reachable_from_start g :
  reachable g ->
  exists playerName g0, session_le (startGameplay playerName g0) g.
Proof.
  induction 1 as [playerName g0 _ _ | i g g' _ (playerName & g0 & IH) Hstep].
  - exists playerName, g0. apply session_le_refl.
  - exists playerName, g0. eapply session_le_trans; [exact IH |].
    apply (session_le_step _ _ _ Hstep).
Qed.

Lemma startGameplay_rooms playerName g :
  roomsOf (startGameplay playerName g) = roomsOf newGame.
Proof.
  unfold startGameplay, changeScreen. cbv zeta. cbn [currentTransition currentStateID].
  destruct (currentTransition g); [destruct (negb _) |..]; reflexivity.
Qed.

Lemma newGame_enemies_ok : enemies_ok (roomsOf newGame).
Proof.
  unfold enemies_ok. set (l := roomsOf newGame). vm_compute in l. subst l.
  repeat (constructor; [unfold enemy_ok, INT_MAX; cbn [Room.entity]; try exact I; lia |]).
  constructor.
Qed.

Lemma startGameplay_dungeon playerName g :
  dungeonLogic (startGameplay playerName g) =
  setupDungeon (Dungeon.new (Player.new playerName 100 10)).
Proof.
  unfold startGameplay, changeScreen. cbv zeta. cbn [currentTransition currentStateID].
  destruct (currentTransition g); [destruct (negb _) |..]; reflexivity.
Qed.

Lemma startGameplay_pointers playerName g : pointers_ok (startGameplay playerName g).
Proof.
  unfold pointers_ok, roomsOf. rewrite startGameplay_dungeon.
  set (d := setupDungeon _). vm_compute in d. subst d.
  cbn [Dungeon.rooms Dungeon.currentRoom Dungeon.path_tracker Stack.topNode Stack.empty].
  split; [simpl; lia | split; [constructor |]].
  repeat (constructor; [cbn [Room.next valid_ptr length]; first [left; reflexivity | right; lia] |]).
  constructor.
Qed.

(** X8: what every state of a session satisfies: health within 0..100 and
    moves within 0..10, so that no computation of the engine comes near
    the limits of [int]; the damage of every enemy an [int] that is not
    negative; and the cursor, the entries of the path tracker and the
    [next] pointers all refer to one of the nine rooms, so that no
    pointer the engine follows dangles. *)
Theorem reachable_ranges (g : Game) :
  reachable g ->
  0 <= Player.health (playerLogic g) <= 100 /\
  0 <= Player.moves (playerLogic g) <= 10 /\
  enemies_ok (roomsOf g) /\
  length (roomsOf g) = 9%nat /\
  pointers_ok g.
Proof.
  intros Hreach.
  destruct (reachable_from_start g Hreach) as (playerName & g0 & Hr & Hp & Hptr).
  pose proof (reachable_moves_ok g Hreach) as [Hmoves _].
  rewrite startGameplay_rooms in Hr, Hp.
  destruct (startGameplay_player playerName g0) as [Hstart _].
  rewrite Hstart in Hp.
  destruct (player_steps_facts _ _ _ Hp newGame_enemies_ok) as (Hh & Hm & _).
  cbn [Player.new Player.health Player.moves] in Hh, Hm.
  split; [apply Hh; lia |]. split; [lia |]. split; [| split].
  - apply (enemies_ok_le _ _ Hr), newGame_enemies_ok.
  - rewrite <- (Forall2_length _ _ _ Hr). reflexivity.
  - apply Hptr, startGameplay_pointers.
Qed.

(** A choice that was made stays made. *)
Lemma choice_stays_made l l' (a : nat) (r : Room.t) :
  rooms_le l l' -> l !! a = Some r -> Room.isChoiceRoom r = false ->
  exists r', l' !! a = Some r' /\ Room.isChoiceRoom r' = false.
Proof.
  intros Hle Hr Hoff.
  destruct (Forall2_lookup_l _ _ _ _ _ Hle Hr) as (r' & Hr' & Hrr').
  exists r'. split; [exact Hr' |].
  destruct (le_isChoiceRoom _ _ Hrr') as [Heq | Heq]; congruence.
Qed.

(* ================================================================= *)
(** * Running out of moves *)

(** C5, the claim as stated fails: in a state the game reaches, in combat
    with no move left, the key for going back is ignored and the key for
    going forward starts the fight; neither ends the session. *)
Lemma navigation_keys_in_combat :
  run to_monster_den newGame = Ok in_monster_den /\
  in_gameplay in_monster_den /\
  transitionState in_monster_den = GpTransitionState.NONE /\
  currentState in_monster_den = COMBAT /\
  Player.moves (playerLogic in_monster_den) = 0 /\
  gameOverScreen in_monster_den = None /\
  step (Poll (KeyPressed Keyboard.B)) in_monster_den = Ok in_monster_den /\
  step (Poll (KeyPressed Keyboard.F)) in_monster_den =
    Ok (startTransition call_handleCombat in_monster_den) /\
  gameOverScreen (startTransition call_handleCombat in_monster_den) = None.
Proof. unfold in_gameplay. vm_compute. repeat split. Qed.

Lemma completeTransition_navigation g g1 :
  is_navigation (onTransitionComplete g) = true ->
  completeTransition g = Ok g1 ->
  currentStateID g1 = currentStateID g /\
  currentTransition g1 = currentTransition g /\
  gameOverScreen g1 = gameOverScreen g /\
  currentState g1 = currentState g /\
  transitionState g1 = transitionState g /\
  actionsLog g1 = actionsLog g /\
  message g1 = message g /\
  roomsOf g1 = roomsOf g.
Proof.
  unfold completeTransition.
  destruct (onTransitionComplete g) as [[] |]; try discriminate; intros _;
    cbn [runCallback]; cbv zeta.
  - intros [= <-]. unfold roomsOf. cbn. rewrite rooms_moveForward. repeat split.
  - destruct (Dungeon.moveBack _) as [d |] eqn:Hback; simpl; [| discriminate].
    intros [= <-]. unfold roomsOf. cbn. rewrite (rooms_moveBack _ _ Hback). repeat split.
Qed.

(** C5 (amended): while the player explores and no fade is under way, a
    forward or back key pressed with moves at or below 0 ends the session
    as a loss for want of moves, and no navigation is done or scheduled.
    In the other interaction states, and during a fade, these keys end
    nothing, move nothing and schedule no navigation: they leave the
    state as it is, but for the forward key in combat with no fade under
    way, which stores the closure of the fight and starts the fade, and
    the fight leaves cursor, path tracker and moves alone.  And when the
    closure of a navigation has run and moves are below 0, [update] ends
    the session the same way, without evaluating the room. *)
Theorem out_of_moves_guards :
  (forall (g : Game) (code : Keyboard.Key),
     in_gameplay g ->
     transitionState g = GpTransitionState.NONE ->
     currentState g = EXPLORING ->
     code = Keyboard.F \/ code = Keyboard.B ->
     Player.moves (playerLogic g) <= 0 ->
     let g' := processEvents (KeyPressed code) g in
     session_ends "You have run out of moves." g' /\
     (forall s, gameOverScreen g' = Some s -> win s = false) /\
     dungeonLogic g' = dungeonLogic g /\
     transitionState g' = GpTransitionState.NONE /\
     onTransitionComplete g' = onTransitionComplete g) /\
  (forall (g : Game) (code : Keyboard.Key),
     currentState g <> EXPLORING \/ transitionState g <> GpTransitionState.NONE ->
     code = Keyboard.F \/ code = Keyboard.B ->
     let g' := handleEvent (KeyPressed code) g in
     (g' = g \/
      code = Keyboard.F /\ currentState g = COMBAT /\
      transitionState g = GpTransitionState.NONE /\
      g' = set_onTransitionComplete (Some call_handleCombat)
             (set_transitionState GpTransitionState.FADING_OUT g)) /\
     gameOverScreen g' = gameOverScreen g /\
     nextStateID g' = nextStateID g /\
     currentTransition g' = currentTransition g /\
     dungeonLogic g' = dungeonLogic g /\
     (is_navigation (onTransitionComplete g') = true -> g' = g) /\
     (forall g1, runCallback call_handleCombat g' = Ok g1 ->
        Dungeon.currentRoom (dungeonLogic g1) = Dungeon.currentRoom (dungeonLogic g) /\
        Dungeon.path_tracker (dungeonLogic g1) = Dungeon.path_tracker (dungeonLogic g) /\
        Player.moves (playerLogic g1) = Player.moves (playerLogic g))) /\
  (forall (g g1 : Game),
     in_gameplay g ->
     transitionState g = GpTransitionState.FADING_OUT ->
     is_navigation (onTransitionComplete g) = true ->
     completeTransition g = Ok g1 ->
     Player.moves (playerLogic g1) < 0 ->
     let g' := triggerGameOver "You have run out of moves." g1 in
     GamePlayScreen_update true g = Ok g' /\
     session_ends "You have run out of moves." g' /\
     (forall s, gameOverScreen g' = Some s -> win s = false) /\
     currentState g' = currentState g /\
     actionsLog g' = actionsLog g /\
     roomsOf g' = roomsOf g /\
     transitionState g' = GpTransitionState.FADING_OUT).
Proof.
  split; [| split].
  - intros g code Hin Htr Hstate Hcode Hmoves g'.
    assert (Hg' : g' = triggerGameOver "You have run out of moves." g).
    { subst g'. unfold processEvents. destruct Hin as [-> ->].
      unfold handleEvent. rewrite Htr, Hstate.
      apply Z.leb_le in Hmoves. unfold Player.getMoves.
      destruct Hcode as [-> | ->]; rewrite Hmoves; reflexivity. }
    rewrite Hg'.
    destruct (triggerGameOver_ends "You have run out of moves." g Hin)
      as (Hends & Hd & _ & Ht & Hcb & _).
    split; [exact Hends |]. split.
    + destruct Hends as (bg & Hs & _). intros s Hs'. rewrite Hs in Hs'.
      injection Hs' as <-. reflexivity.
    + rewrite Hd, Ht, Hcb, Htr. auto.
  - intros g code Hstate Hcode g'.
    assert (Hg' : g' = g \/
                  code = Keyboard.F /\ currentState g = COMBAT /\
                  transitionState g = GpTransitionState.NONE /\
                  g' = set_onTransitionComplete (Some call_handleCombat)
                         (set_transitionState GpTransitionState.FADING_OUT g)).
    { subst g'. unfold handleEvent, startTransition.
      destruct (transitionState g) eqn:Htr, (currentState g) eqn:Hcur;
        try (destruct Hstate as [Hne | Hne]; congruence);
        destruct Hcode as [-> | ->]; auto. }
    assert (Hd : dungeonLogic g' = dungeonLogic g)
      by (destruct Hg' as [-> | (_ & _ & _ & ->)]; reflexivity).
    split; [exact Hg' |].
    split; [destruct Hg' as [-> | (_ & _ & _ & ->)]; reflexivity |].
    split; [destruct Hg' as [-> | (_ & _ & _ & ->)]; reflexivity |].
    split; [destruct Hg' as [-> | (_ & _ & _ & ->)]; reflexivity |].
    split; [exact Hd |]. split.
    + destruct Hg' as [-> | (_ & _ & _ & ->)]; [reflexivity | discriminate].
    + intros g1 [= <-].
      destruct (frame_handleCombat g' g' (frame_refl g')) as (Hm & _ & _ & _ & Hcur & Htr).
      unfold playerLogic in *. rewrite Hm, Hcur, Htr, Hd. repeat split.
  - intros g g1 [Hid Hct] Htr Hnav Hg1 Hmoves g'.
    destruct (completeTransition_navigation _ _ Hnav Hg1)
      as (Hid1 & Hct1 & _ & Hstate1 & Htr1 & Hlog1 & _ & Hrooms1).
    assert (Hin1 : in_gameplay g1) by (split; congruence).
    destruct (triggerGameOver_ends "You have run out of moves." g1 Hin1)
      as (Hends & Hd & Hstate & Ht & _ & Hlog).
    split.
    { unfold GamePlayScreen_update. rewrite Htr, Hg1. simpl.
      apply Z.ltb_lt in Hmoves. unfold Player.getMoves. rewrite Hmoves. reflexivity. }
    split; [exact Hends |]. split.
    { destruct Hends as (bg & Hs & _). intros s Hs'. fold g' in Hs. rewrite Hs in Hs'.
      injection Hs' as <-. reflexivity. }
    fold g' in Hd, Hstate, Ht, Hlog.
    unfold roomsOf in *. rewrite Hd, Hstate, Ht, Hlog. repeat split; congruence.
Qed.

Lemma out_of_moves_guards_witness :
  session_ends "You have run out of moves."
    (processEvents (KeyPressed Keyboard.F) spent_and_exploring) /\
  gameOverScreen (handleEvent (KeyPressed Keyboard.B) in_monster_den) =
    gameOverScreen in_monster_den /\
  session_ends "You have run out of moves."
    (triggerGameOver "You have run out of moves."
       (set_onTransitionComplete None
          (set_dungeonLogic
             (Dungeon.moveForward (dungeonLogic (set_m_isNewRoomEntry true spent_and_pending)))
             (set_m_isNewRoomEntry true spent_and_pending)))).
Proof.
  destruct out_of_moves_guards as (Hpre & Hother & Hpost). split; [| split].
  - refine (proj1 (Hpre spent_and_exploring Keyboard.F _ _ _ _ _)).
    + split; vm_compute; reflexivity.
    + vm_compute; reflexivity.
    + vm_compute; reflexivity.
    + left; reflexivity.
    + vm_compute. discriminate.
  - refine (proj1 (proj2 (Hother in_monster_den Keyboard.B _ _))).
    + left. vm_compute. discriminate.
    + right; reflexivity.
  - refine (proj1 (proj2 (Hpost spent_and_pending _ _ _ _ _ _))).
    + split; vm_compute; reflexivity.
    + vm_compute; reflexivity.
    + vm_compute; reflexivity.
    + reflexivity.
    + vm_compute. reflexivity.
Defined.

(* ================================================================= *)
(** * The room of choice *)

Lemma update_room_lookup (a : nat) f d r :
  Dungeon.rooms d !! a = Some r ->
  Dungeon.rooms (Dungeon.update_room (Some a) f d) !! a = Some (f r).
Proof.
  intros Hr. unfold Dungeon.update_room. rewrite Hr.
  cbn [Dungeon.set_rooms Dungeon.rooms].
  apply list_lookup_insert_eq. eapply lookup_lt_Some, Hr.
Qed.

Lemma currentRoomObj_lookup g (here : nat) :
  Dungeon.getCurrentRoom (dungeonLogic g) = Some here ->
  currentRoomObj g = roomsOf g !! here.
Proof. unfold currentRoomObj, Dungeon.deref. intros ->. reflexivity. Qed.

(** What [handleChoice] does in a room whose choice is still open. *)
Lemma handleChoice_open g (here : nat) room choice :
  Dungeon.getCurrentRoom (dungeonLogic g) = Some here ->
  roomsOf g !! here = Some room ->
  Room.isChoiceRoom room = true ->
  playerLogic (handleChoice choice g) =
    (if choice =? 1 then Player.collectItem "Golden Key" (playerLogic g)
     else Player.heal 100 (playerLogic g)) /\
  currentState (handleChoice choice g) = EXPLORING /\
  Dungeon.getCurrentRoom (dungeonLogic (handleChoice choice g)) = Some here /\
  exists room',
    roomsOf (handleChoice choice g) !! here = Some room' /\
    Room.isChoiceRoom room' = false.
Proof.
  intros Hhere Hroom Hopen. unfold handleChoice.
  rewrite (currentRoomObj_lookup _ _ Hhere), Hroom, Hopen.
  cbn [negb]. cbv zeta. rewrite Hhere.
  destruct (choice =? 1); norm_addAction;
    unfold update_room, playerLogic, roomsOf, Dungeon.getCurrentRoom;
    cbn [set_currentState set_dungeonLogic set_actionsLog set_playerLogic
         dungeonLogic currentState];
    rewrite !(proj1 (update_room_fields _ _ _));
    rewrite !(proj1 (proj2 (update_room_fields _ _ _)));
    cbn [Dungeon.set_player Dungeon.player Dungeon.currentRoom];
    (split; [reflexivity |]); (split; [reflexivity |]);
    (split; [exact Hhere |]);
    eexists; (split; [apply update_room_lookup, update_room_lookup; exact Hroom |]);
    reflexivity.
Qed.

(** Once the choice of a room is made, [handleChoice] does nothing
    there. *)
Lemma handleChoice_made g (here : nat) room choice :
  Dungeon.getCurrentRoom (dungeonLogic g) = Some here ->
  roomsOf g !! here = Some room ->
  Room.isChoiceRoom room = false ->
  handleChoice choice g = g.
Proof.
  intros Hhere Hroom Hmade. unfold handleChoice.
  rewrite (currentRoomObj_lookup _ _ Hhere), Hroom, Hmade. reflexivity.
Qed.

(** C6, the claim as stated fails: for a player whose health is already
    100, taking the potion makes neither of the two facts newly true,
    health was 100 before and the key is not granted. *)
Lemma potion_at_full_health :
  Room.isChoiceRoom (room_here in_choice_room_unhurt) = true /\
  currentRoomObj in_choice_room_unhurt = Some (room_here in_choice_room_unhurt) /\
  Player.health (playerLogic in_choice_room_unhurt) = 100 /\
  hasKey in_choice_room_unhurt = false /\
  let g' := handleChoice 2 in_choice_room_unhurt in
  newly hasKey in_choice_room_unhurt g' = false /\
  newly fullHealth in_choice_room_unhurt g' = false /\
  xorb (newly hasKey in_choice_room_unhurt g') (newly fullHealth in_choice_room_unhurt g') = false.
Proof. vm_compute. repeat split. Qed.

(** C6 (amended): in a room whose choice is open, for a player without
    the "Golden Key" and with health from 0 to 99, resolving the choice
    makes exactly one of "the Golden Key is in the inventory" and "health
    is 100" newly true: option 1 adds the key and leaves health as it
    was, option 2 sets health to 100 and leaves the inventory as it was.
    The choice flag of the room is cleared and stays cleared whatever the
    session does next, so that [handleChoice] does nothing there any
    more, and the interaction state becomes EXPLORING. *)
Theorem choice_resolution (g : Game) (here : nat) (room : Room.t) (choice : Z) :
  Dungeon.getCurrentRoom (dungeonLogic g) = Some here ->
  roomsOf g !! here = Some room ->
  Room.isChoiceRoom room = true ->
  choice = 1 \/ choice = 2 ->
  hasKey g = false ->
  0 <= Player.health (playerLogic g) < 100 ->
  let g' := handleChoice choice g in
  xorb (newly hasKey g g') (newly fullHealth g g') = true /\
  (choice = 1 ->
     hasKey g' = true /\
     Player.health (playerLogic g') = Player.health (playerLogic g)) /\
  (choice = 2 ->
     Player.health (playerLogic g') = 100 /\
     Player.inventory (playerLogic g') = Player.inventory (playerLogic g)) /\
  currentState g' = EXPLORING /\
  forall inputs g'',
    run inputs g' = Ok g'' ->
    (exists room'', roomsOf g'' !! here = Some room'' /\
                    Room.isChoiceRoom room'' = false) /\
    (Dungeon.getCurrentRoom (dungeonLogic g'') = Some here ->
     forall c, handleChoice c g'' = g'').
Proof.
  intros Hhere Hroom Hopen Hchoice Hkey Hhealth g'.
  destruct (handleChoice_open g here room choice Hhere Hroom Hopen)
    as (Hp & Hstate & _ & room' & Hroom' & Hmade).
  fold g' in Hp, Hstate, Hroom'.
  assert (Hfull : fullHealth g = false).
  { unfold fullHealth. apply Z.eqb_neq. lia. }
  assert (Heffect :
    (choice = 1 ->
       hasKey g' = true /\
       Player.health (playerLogic g') = Player.health (playerLogic g)) /\
    (choice = 2 ->
       Player.health (playerLogic g') = 100 /\
       Player.inventory (playerLogic g') = Player.inventory (playerLogic g))).
  { split; intros ->; rewrite ?(Z.eqb_refl 1) in Hp;
      unfold hasKey; rewrite Hp; cbn [Z.eqb Pos.eqb].
    - split; [apply has_add | reflexivity].
    - split; [| reflexivity].
      rewrite heal_health_small; unfold INT_MIN, INT_MAX; lia. }
  destruct Heffect as [H1 H2].
  split.
  { unfold newly. rewrite Hkey, Hfull. cbn [negb andb].
    destruct Hchoice as [-> | ->].
    - destruct (H1 eq_refl) as [-> Hh]. unfold fullHealth. rewrite Hh.
      fold (fullHealth g). rewrite Hfull. reflexivity.
    - destruct (H2 eq_refl) as [Hh Hinv]. unfold fullHealth. rewrite Hh.
      unfold hasKey, Player.hasItem. rewrite Hinv.
      fold (Player.hasItem "Golden Key" (playerLogic g)). fold (hasKey g).
      rewrite Hkey. reflexivity. }
  split; [exact H1 |]. split; [exact H2 |]. split; [exact Hstate |].
  intros inputs g'' Hrun.
  destruct (choice_stays_made _ _ _ _ (rooms_le_run _ _ _ Hrun) Hroom' Hmade)
    as (room'' & Hroom'' & Hmade'').
  split; [eauto |].
  intros Hhere'' c. eapply handleChoice_made; eassumption.
Qed.

Lemma choice_resolution_witness :
  Dungeon.getCurrentRoom (dungeonLogic in_choice_room) = Some 5%nat /\
  roomsOf in_choice_room !! 5%nat = Some (room_here in_choice_room) /\
  Room.isChoiceRoom (room_here in_choice_room) = true /\
  hasKey in_choice_room = false /\
  0 <= Player.health (playerLogic in_choice_room) < 100 /\
  hasKey (handleChoice 1 in_choice_room) = true /\
  Player.health (playerLogic (handleChoice 2 in_choice_room)) = 100.
Proof.
  assert (Hhere : Dungeon.getCurrentRoom (dungeonLogic in_choice_room) = Some 5%nat)
    by (vm_compute; reflexivity).
  assert (Hroom : roomsOf in_choice_room !! 5%nat = Some (room_here in_choice_room))
    by (vm_compute; reflexivity).
  assert (Hopen : Room.isChoiceRoom (room_here in_choice_room) = true)
    by (vm_compute; reflexivity).
  assert (Hkey : hasKey in_choice_room = false) by (vm_compute; reflexivity).
  assert (Hhealth : 0 <= Player.health (playerLogic in_choice_room) < 100)
    by (vm_compute; split; [discriminate | reflexivity]).
  split; [exact Hhere |]. split; [exact Hroom |]. split; [exact Hopen |].
  split; [exact Hkey |]. split; [exact Hhealth |]. split.
  - exact (proj1 (proj1 (proj2
      (choice_resolution _ _ _ 1 Hhere Hroom Hopen (or_introl eq_refl) Hkey Hhealth))
      eq_refl)).
  - exact (proj1 (proj1 (proj2 (proj2
      (choice_resolution _ _ _ 2 Hhere Hroom Hopen (or_intror eq_refl) Hkey Hhealth)))
      eq_refl)).
Defined.

(* ================================================================= *)
(** * Further properties of the code *)

(** ** [Stack] *)

Section StackMore.
Context {T : Type}.
Implicit Types (s : Stack.t T).

Lemma stack_op_count (op : StackOp T) s :
  Zmod.unsigned (Stack.count s) = Z.of_nat (length (Stack.topNode s)) ->
  Z.of_nat (length (Stack.topNode s)) + 1 < 2 ^ 64 ->
  let s' := stack_op op s in
  Zmod.unsigned (Stack.count s') = Z.of_nat (length (Stack.topNode s')) /\
  (length (Stack.topNode s') <= S (length (Stack.topNode s)))%nat.
Proof.
  intros Hs Hroom. destruct op as [value |]; cbn [stack_op]; cbv zeta.
  - unfold Stack.push. cbn [Stack.topNode Stack.count length].
    rewrite unsigned_incr_small by lia. split; lia.
  - unfold Stack.pop, Stack.isEmpty.
    destruct (Stack.topNode s) as [| x rest] eqn:Htop.
    + rewrite Htop. cbn [length]. split; [exact Hs | lia].
    + cbn [Stack.topNode Stack.count tail length] in *.
      rewrite unsigned_decr_small by lia. split; lia.
Qed.

Lemma stack_ops_count (ops : list (StackOp T)) s :
  Zmod.unsigned (Stack.count s) = Z.of_nat (length (Stack.topNode s)) ->
  Z.of_nat (length (Stack.topNode s)) + Z.of_nat (length ops) < 2 ^ 64 ->
  Zmod.unsigned (Stack.count (stack_ops ops s)) =
  Z.of_nat (length (Stack.topNode (stack_ops ops s))).
Proof.
  revert s. induction ops as [| op rest IH]; intros s Hs Hroom; [exact Hs |].
  cbn [length] in Hroom.
  destruct (stack_op_count op s Hs ltac:(lia)) as [Hs' Hlen].
  unfold stack_ops in *. cbn [fold_left]. apply IH; [exact Hs' | lia].
Qed.

(** X1: whatever pushes and pops, fewer than 2^64 of them, are made on a
    new stack, [size] is the number of nodes, and [isEmpty] holds exactly
    when it is 0.  ([pop] returns before [count--] on an empty stack;
    the decrement would leave 2^64 - 1 there.) *)
Theorem stack_size_is_node_count (ops : list (StackOp T)) :
  Z.of_nat (length ops) < 2 ^ 64 ->
  let s := stack_ops ops Stack.empty in
  Zmod.unsigned (Stack.size s) = Z.of_nat (length (Stack.topNode s)) /\
  (Stack.isEmpty s = true <-> Stack.size s = Zmod.zero).
Proof.
  intros Hops. cbv zeta.
  assert (Hcount : Zmod.unsigned (Stack.count (stack_ops ops Stack.empty)) =
                   Z.of_nat (length (Stack.topNode (stack_ops ops Stack.empty)))).
  { apply stack_ops_count; [reflexivity |]. cbn [Stack.empty Stack.topNode length]. lia. }
  split; [exact Hcount |].
  unfold Stack.size. rewrite isEmpty_topNode. split.
  - intros Hnil. apply Zmod.unsigned_inj. rewrite Hcount, Hnil. reflexivity.
  - intros Hzero. rewrite Hzero in Hcount.
    destruct (Stack.topNode _); [reflexivity | discriminate Hcount].
Qed.

Lemma push_all_topNode (values : list T) s :
  Stack.topNode (push_all values s) = rev values ++ Stack.topNode s.
Proof.
  revert s. induction values as [| v rest IH]; intros s; [reflexivity |].
  simpl. rewrite IH. simpl. rewrite <- app_assoc. reflexivity.
Qed.

(** X2: last in, first out.  After the values of a list are pushed on a
    stack, reading [top] and popping as many times gives the values back
    in reverse order and leaves the stack as it was before the pushes;
    no [top] in between throws. *)
Theorem stack_lifo (values : list T) s :
  take_tops (length values) (push_all values s) = Ok (rev values, s).
Proof.
  revert s. induction values as [| v rest IH] using rev_ind; intros s; [reflexivity |].
  unfold push_all in *. rewrite fold_left_app. simpl.
  rewrite length_app, Nat.add_comm. simpl.
  rewrite rev_app_distr. simpl.
  rewrite pop_push, IH. reflexivity.
Qed.
End StackMore.

Lemma stack_size_is_node_count_witness :
  Z.of_nat (length [Push 7; Pop; Pop; Push 8; Push 9]) < 2 ^ 64 /\
  Zmod.unsigned (Stack.size (stack_ops [Push 7; Pop; Pop; Push 8; Push 9] Stack.empty)) = 2 /\
  Stack.topNode (stack_ops [Push 7; Pop; Pop; Push 8; Push 9] Stack.empty) = [9; 8].
Proof.
  assert (Hops : Z.of_nat (length [Push 7; Pop; Pop; Push 8; Push 9]) < 2 ^ 64)
    by reflexivity.
  split; [exact Hops |]. split; [| reflexivity].
  rewrite (proj1 (stack_size_is_node_count [Push 7; Pop; Pop; Push 8; Push 9] Hops)).
  reflexivity.
Defined.

(** ** [Inventory] *)

Lemma has_In (item : string) (inv : Inventory.t string) :
  Inventory.has item inv = true <-> In item (Inventory.items inv).
Proof.
  unfold Inventory.has. rewrite existsb_exists. split.
  - intros (x & Hx & Heq). apply bool_decide_eq_true in Heq. subst. exact Hx.
  - intros Hin. exists item. split; [exact Hin | apply bool_decide_eq_true; reflexivity].
Qed.

Lemma add_capacity (item : string) (inv : Inventory.t string) :
  (Inventory.size inv <= Inventory.capacity inv <= 2 * Inventory.size inv)%nat ->
  (Inventory.size (Inventory.add item inv) <= Inventory.capacity (Inventory.add item inv)
   <= 2 * Inventory.size (Inventory.add item inv))%nat /\
  Inventory.size (Inventory.add item inv) = S (Inventory.size inv).
Proof.
  unfold Inventory.size, Inventory.add, Inventory.current_size, Inventory.resize.
  intros Hcap.
  destruct (Nat.eqb_spec (length (Inventory.items inv)) (Inventory.capacity inv)) as [Heq | Hne];
    cbn [Inventory.items Inventory.capacity]; rewrite length_app; simpl.
  - destruct (Nat.eqb_spec (Inventory.capacity inv) 0); lia.
  - lia.
Qed.

Lemma add_all_items (names : list string) : forall inv,
  (Inventory.size inv <= Inventory.capacity inv <= 2 * Inventory.size inv)%nat ->
  Inventory.items (add_all names inv) = Inventory.items inv ++ names /\
  (Inventory.size (add_all names inv) <= Inventory.capacity (add_all names inv)
   <= 2 * Inventory.size (add_all names inv))%nat.
Proof.
  induction names as [| name rest IH]; intros inv Hinv.
  - simpl. rewrite app_nil_r. auto.
  - change (add_all (name :: rest) inv) with (add_all rest (Inventory.add name inv)).
    destruct (add_capacity name inv Hinv) as [Hcap _].
    destruct (IH _ Hcap) as [Hitems Hcap']. split; [| exact Hcap'].
    rewrite Hitems, items_add, <- app_assoc. reflexivity.
Qed.

Lemma add_all_empty (names : list string) :
  Inventory.items (add_all names Inventory.empty) = names /\
  (Inventory.size (add_all names Inventory.empty)
   <= Inventory.capacity (add_all names Inventory.empty)
   <= 2 * Inventory.size (add_all names Inventory.empty))%nat.
Proof.
  apply (add_all_items names Inventory.empty).
  unfold Inventory.size, Inventory.current_size; simpl; lia.
Qed.

(** X3: an inventory filled by [add] from the empty one holds the names
    in the order they were added, duplicates included; its size never
    exceeds its capacity, so that [add] never writes past the array, and
    the capacity is never more than twice the size. *)
Theorem inventory_add_all (names : list string) :
  let inv := add_all names Inventory.empty in
  Inventory.items inv = names /\
  Inventory.size inv = length names /\
  (Inventory.size inv <= Inventory.capacity inv <= 2 * Inventory.size inv)%nat.
Proof.
  cbv zeta. destruct (add_all_empty names) as [Hitems Hcap].
  split; [exact Hitems |]. split; [| exact Hcap].
  unfold Inventory.size, Inventory.current_size. rewrite Hitems. reflexivity.
Qed.

(** X4: [has] finds exactly the names that were added: after [add] a
    name is found if it is the one added or was found before, and in an
    inventory filled from the empty one if it is among the names
    added. *)
Theorem inventory_has_after_add (names : list string) (item added : string)
    (inv : Inventory.t string) :
  (Inventory.has item (Inventory.add added inv) = true <->
   item = added \/ Inventory.has item inv = true) /\
  (Inventory.has item (add_all names Inventory.empty) = true <-> In item names).
Proof.
  split.
  - rewrite !has_In, items_add, in_app_iff. simpl. intuition congruence.
  - rewrite has_In. destruct (add_all_empty names) as [-> _]. reflexivity.
Qed.

(** ** The sorted listing of the inventory *)

Lemma string_compare_trans (a b c : string) :
  String.compare a b <> Gt -> String.compare b c <> Gt -> String.compare a c <> Gt.
Proof.
  revert b c. induction a as [| x a IH]; intros [| y b] [| z c]; simpl;
    try congruence.
  unfold Ascii.compare.
  destruct (N.compare_spec (N_of_ascii x) (N_of_ascii y)) as [Hxy | Hxy | Hxy];
    destruct (N.compare_spec (N_of_ascii y) (N_of_ascii z)) as [Hyz | Hyz | Hyz];
    destruct (N.compare_spec (N_of_ascii x) (N_of_ascii z)) as [Hxz | Hxz | Hxz];
    try congruence; try lia.
  apply IH.
Qed.

#[export] Instance string_le_trans : Transitive string_le.
Proof.
  intros a b c. unfold string_le, String.leb.
  pose proof (string_compare_trans a b c) as Htrans.
  destruct (String.compare a b), (String.compare b c), (String.compare a c);
    intros; try reflexivity; try discriminate; exfalso; apply Htrans; congruence.
Qed.

#[export] Instance string_le_total : Total string_le.
Proof. intros a b. apply String.leb_total. Qed.

#[export] Instance string_le_antisym : AntiSymm eq string_le.
Proof. intros a b. apply String.leb_antisym. Qed.



(** ** The log of recent actions *)

Lemma lookup_take_Some {A} (l : list A) (n i : nat) (x : A) :
  take n l !! i = Some x -> l !! i = Some x /\ (i < n)%nat.
Proof.
  intros Hx. destruct (Nat.lt_ge_cases i n) as [Hlt | Hge].
  - rewrite lookup_take_lt in Hx by exact Hlt. auto.
  - rewrite lookup_take_ge in Hx by exact Hge. discriminate.
Qed.

Lemma In_take {A} (l : list A) (n : nat) (x : A) : In x (take n l) -> In x l.
Proof.
  revert n. induction l as [| y l IH]; intros [| n]; simpl; try tauto.
  intros [-> | Hin]; [left; reflexivity | right; eapply IH, Hin].
Qed.

(** X6: [addAction] drops an empty line and a line equal to the most
    recent one; any other line becomes the most recent, the older lines
    follow in order, and only the four most recent are kept.  A log
    with at most four lines, no empty line and no line repeated at once
    keeps these properties, and nothing but the log changes. *)
Theorem addAction_log (action : string) (g : Game) :
  log_ok (actionsLog g) ->
  actionsLog (addAction action g) =
    (if String.eqb action "" || bool_decide (head (actionsLog g) = Some action)
     then actionsLog g
     else take MAX_LOG_SIZE (action :: actionsLog g)) /\
  log_ok (actionsLog (addAction action g)) /\
  set_actionsLog (actionsLog g) (addAction action g) = g.
Proof.
  intros (Hlen & Hempty & Hadj).
  assert (Hcond :
    (String.eqb action "" ||
     match actionsLog g with [] => false | front :: _ => String.eqb action front end) =
    (String.eqb action "" || bool_decide (head (actionsLog g) = Some action))).
  { f_equal. destruct (actionsLog g) as [| front rest]; cbn [head].
    - symmetry. apply bool_decide_eq_false_2. discriminate.
    - destruct (String.eqb_spec action front) as [-> | Hne].
      + symmetry. apply bool_decide_eq_true_2. reflexivity.
      + symmetry. apply bool_decide_eq_false_2. congruence. }
  assert (Hlog : actionsLog (addAction action g) =
    (if String.eqb action "" || bool_decide (head (actionsLog g) = Some action)
     then actionsLog g
     else take MAX_LOG_SIZE (action :: actionsLog g))).
  { unfold addAction. rewrite Hcond. clear Hcond.
    destruct (String.eqb action "" || bool_decide (head (actionsLog g) = Some action));
      [reflexivity |].
    cbn [set_actionsLog actionsLog].
    destruct (Nat.ltb_spec MAX_LOG_SIZE (length (action :: actionsLog g))) as [Hfull | Hroom].
    - rewrite removelast_firstn_len. f_equal. simpl in *. unfold MAX_LOG_SIZE in *. lia.
    - symmetry. apply take_ge. exact Hroom. }
  split; [exact Hlog |]. split.
  - rewrite Hlog.
    destruct (String.eqb_spec action "") as [-> | Hne]; simpl; [repeat split; assumption |].
    destruct (bool_decide (head (actionsLog g) = Some action)) eqn:Hfront;
      [repeat split; assumption |].
    apply bool_decide_eq_false in Hfront.
    replace (action :: take 3 (actionsLog g)) with (take 4 (action :: actionsLog g))
      by reflexivity.
    split; [| split].
    + rewrite length_take. unfold MAX_LOG_SIZE. lia.
    + intros Hin. apply In_take in Hin. destruct Hin as [Heq | Hin]; auto.
    + intros i line Hi Hnext.
      apply lookup_take_Some in Hi as [Hi _].
      apply lookup_take_Some in Hnext as [Hnext _].
      destruct i as [| i]; simpl in Hi, Hnext.
      * injection Hi as <-. apply Hfront.
        destruct (actionsLog g); simpl in *; congruence.
      * apply (Hadj i line Hi Hnext).
  - unfold addAction. destruct (_ || _); destruct g; reflexivity.
Qed.

Lemma addAction_log_witness :
  log_ok ["b"; "a"] /\
  actionsLog (addAction "c" (set_actionsLog ["b"; "a"] newGame)) = ["c"; "b"; "a"] /\
  actionsLog (addAction "b" (set_actionsLog ["b"; "a"] newGame)) = ["b"; "a"].
Proof.
  assert (Hok : log_ok (actionsLog (set_actionsLog ["b"; "a"] newGame))).
  { split; [simpl; unfold MAX_LOG_SIZE; lia | split].
    - simpl. intros [H | [H | []]]; discriminate.
    - intros [| [| i]] line; simpl; intros [= <-]; discriminate. }
  split; [exact Hok | split].
  - rewrite (proj1 (addAction_log "c" _ Hok)). reflexivity.
  - rewrite (proj1 (addAction_log "b" _ Hok)). reflexivity.
Defined.

(** ** [Dungeon::addRoom] *)

Lemma linked_functional d p l1 l2 : linked d p l1 -> linked d p l2 -> l1 = l2.
Proof.
  intros H1. revert l2. induction H1 as [| a r l Hr _ IH]; intros l2 H2.
  - inversion H2. reflexivity.
  - inversion H2 as [| a' r' l' Hr' Hl']; subst.
    rewrite Hr in Hr'. injection Hr' as <-. f_equal. apply IH, Hl'.
Qed.

Lemma linked_suffix d p l1 a l2 :
  linked d p (l1 ++ a :: l2) -> linked d (Some a) (a :: l2).
Proof.
  revert p. induction l1 as [| b l1 IH]; intros p H; simpl in H.
  - inversion H; subst. econstructor; eassumption.
  - inversion H; subst. eapply IH. eassumption.
Qed.

Lemma linked_NoDup d p l : linked d p l -> List.NoDup l.
Proof.
  induction 1 as [| a r l Hr Hl IH]; constructor; [| exact IH].
  intros Hin. apply in_split in Hin as (l1 & l2 & ->).
  pose proof (linked_suffix _ _ _ _ _ Hl) as Hsuffix.
  pose proof (linked_functional _ _ _ _ (linked_cons _ _ _ _ Hr Hl) Hsuffix) as Heq.
  apply (f_equal (@length nat)) in Heq. simpl in Heq. rewrite length_app in Heq.
  simpl in Heq. lia.
Qed.

Lemma linked_valid d p l : linked d p l -> Forall (fun a => (a < length (Dungeon.rooms d))%nat) l.
Proof.
  induction 1 as [| a r l Hr _ IH]; constructor; [| exact IH].
  eapply lookup_lt_Some, Hr.
Qed.

Lemma linked_length d p l : linked d p l -> (length l <= length (Dungeon.rooms d))%nat.
Proof.
  intros H.
  assert (Hincl : incl l (seq 0 (length (Dungeon.rooms d)))).
  { intros a Ha. apply in_seq.
    pose proof (linked_valid _ _ _ H) as Hvalid.
    rewrite List.Forall_forall in Hvalid. specialize (Hvalid a Ha). lia. }
  pose proof (List.NoDup_incl_length (linked_NoDup _ _ _ H) Hincl) as Hlen.
  rewrite length_seq in Hlen. exact Hlen.
Qed.

Lemma last_cons_default {A} (l : list A) (a b : A) :
  List.last (b :: l) a = List.last l b.
Proof.
  revert a b. induction l as [| c l IH]; intros a b; [reflexivity |].
  change (List.last (b :: c :: l) a) with (List.last (c :: l) a).
  rewrite (IH a c), (IH b c). reflexivity.
Qed.

Lemma last_In {A} (l : list A) (a : A) : In (List.last l a) (a :: l).
Proof.
  revert a. induction l as [| b l IH]; intros a; [left; reflexivity |].
  rewrite last_cons_default. right. apply IH.
Qed.

(** The loop of [addRoom] stops on the last room of the chain. *)
Lemma last_room_linked d (fuel : nat) : forall a l,
  linked d (Some a) (a :: l) -> (length l <= fuel)%nat ->
  Dungeon.last_room fuel d a = List.last l a.
Proof.
  induction fuel as [| fuel IH]; intros a l H Hlen.
  - destruct l; [reflexivity | simpl in Hlen; lia].
  - inversion H as [| a' r l' Hr Hl]; subst. cbn [Dungeon.last_room].
    unfold Dungeon.next_of, Dungeon.deref. rewrite Hr.
    inversion Hl as [Hnone | b rb l' Hrb Hl' Hsome]; subst.
    + reflexivity.
    + rewrite <- Hsome in *.
      rewrite (IH b l'); [| exact Hl | simpl in Hlen; lia].
      symmetry. apply last_cons_default.
Qed.

Lemma linked_set_last d (newRoom : nat) (rnew : Room.t) : forall l a,
  linked d (Some a) (a :: l) ->
  ~ In newRoom (a :: l) ->
  Dungeon.rooms d !! newRoom = Some rnew ->
  Room.next rnew = None ->
  linked (Dungeon.update_room (Some (List.last l a)) (Room.set_next (Some newRoom)) d)
    (Some a) ((a :: l) ++ [newRoom]).
Proof.
  induction l as [| b l IH]; intros a H Hnew Hrnew Hnext;
    pose proof (linked_NoDup _ _ _ H) as Hnodup;
    inversion H as [| a' r l' Hr Hl]; subst.
  - cbn [List.last]. unfold Dungeon.update_room. rewrite Hr.
    assert (Hne : newRoom <> a) by (intros ->; apply Hnew; left; reflexivity).
    simpl app. econstructor.
    + cbn [Dungeon.set_rooms Dungeon.rooms].
      apply list_lookup_insert_eq. eapply lookup_lt_Some, Hr.
    + cbn [Room.set_next Room.next]. econstructor.
      * cbn [Dungeon.set_rooms Dungeon.rooms].
        rewrite list_lookup_insert_ne by congruence. exact Hrnew.
      * rewrite Hnext. constructor.
  - rewrite last_cons_default.
    inversion Hl as [Hnone | b' rb l' Hrb Hl' Hsome]; subst.
    rewrite <- Hsome in Hl.
    assert (Hab : a <> List.last l b).
    { inversion Hnodup as [| ? ? Hnotin _]; subst. intros Heq. apply Hnotin.
      rewrite Heq. apply last_In. }
    assert (IH' := IH b Hl (fun Hin => Hnew (or_intror Hin)) Hrnew Hnext).
    revert IH'. unfold Dungeon.update_room.
    destruct (Dungeon.rooms d !! List.last l b) as [rz |] eqn:Hrz.
    + intros IH'. simpl app. econstructor.
      * cbn [Dungeon.set_rooms Dungeon.rooms].
        rewrite list_lookup_insert_ne by congruence. exact Hr.
      * rewrite <- Hsome. exact IH'.
    + exfalso. pose proof (linked_valid _ _ _ Hl) as Hvalid.
      rewrite List.Forall_forall in Hvalid.
      specialize (Hvalid _ (last_In l b)).
      apply lookup_ge_None in Hrz. lia.
Qed.

Lemma same_but_next_refl (l : list Room.t) : Forall2 same_but_next l l.
Proof. induction l; constructor; [reflexivity | assumption]. Qed.

Lemma same_but_next_update p n d :
  Forall2 same_but_next (Dungeon.rooms d)
    (Dungeon.rooms (Dungeon.update_room p (Room.set_next n) d)).
Proof.
  unfold Dungeon.update_room. destruct p as [a |]; [| apply same_but_next_refl].
  destruct (Dungeon.rooms d !! a) as [r |] eqn:Hr; [| apply same_but_next_refl].
  cbn [Dungeon.set_rooms Dungeon.rooms].
  rewrite <- (list_insert_id (Dungeon.rooms d) a r Hr) at 1.
  apply Forall2_insert; [apply same_but_next_refl |].
  destruct r. reflexivity.
Qed.

(** X7: [addRoom] appends the new room to the chain that starts at
    [head]: if following [next] from [head] visits the rooms [l], and the
    new room is none of them and has no successor, then afterwards the
    chain is [l] followed by the new room.  An empty dungeon gets the new
    room as head and as current room; otherwise head and current room
    stay.  No room changes in anything but its [next], and the player
    and the path tracker are untouched. *)
Theorem addRoom_appends (d : Dungeon.t) (l : list nat) (newRoom : nat) (rnew : Room.t) :
  linked d (Dungeon.head d) l ->
  Dungeon.rooms d !! newRoom = Some rnew ->
  Room.next rnew = None ->
  ~ In newRoom l ->
  let d' := Dungeon.addRoom newRoom d in
  linked d' (Dungeon.head d') (l ++ [newRoom])
  /\ Dungeon.head d' = List.head (l ++ [newRoom])
  /\ Dungeon.currentRoom d' =
       match Dungeon.head d with
       | Some _ => Dungeon.currentRoom d
       | None => Some newRoom
       end
  /\ Forall2 same_but_next (Dungeon.rooms d) (Dungeon.rooms d')
  /\ Dungeon.player d' = Dungeon.player d
  /\ Dungeon.path_tracker d' = Dungeon.path_tracker d.
Proof.
  intros Hl Hrnew Hnext Hnew d'. subst d'. unfold Dungeon.addRoom.
  destruct (Dungeon.head d) as [h |] eqn:Hhead.
  - inversion Hl as [| a r l' Hr Hl' Ha]; subst.
    rewrite (last_room_linked d _ h l' Hl).
    2: { pose proof (linked_length _ _ _ Hl) as Hlen. simpl in Hlen. lia. }
    pose proof (linked_set_last d newRoom rnew l' h Hl Hnew Hrnew Hnext) as Hchain.
    assert (Hframe : forall p f,
      Dungeon.head (Dungeon.update_room p f d) = Dungeon.head d
      /\ Dungeon.currentRoom (Dungeon.update_room p f d) = Dungeon.currentRoom d
      /\ Dungeon.player (Dungeon.update_room p f d) = Dungeon.player d
      /\ Dungeon.path_tracker (Dungeon.update_room p f d) = Dungeon.path_tracker d).
    { intros p f. unfold Dungeon.update_room. destruct p as [a |]; [| tauto].
      destruct (Dungeon.rooms d !! a); cbn; tauto. }
    destruct (Hframe (Some (List.last l' h)) (Room.set_next (Some newRoom)))
      as (Hh & Hc & Hp & Ht).
    rewrite Hh, Hc, Hp, Ht, Hhead.
    repeat split; try assumption.
    apply same_but_next_update.
  - inversion Hl; subst. cbn.
    repeat split; try reflexivity.
    + econstructor; [exact Hrnew |]. rewrite Hnext. constructor.
    + apply same_but_next_refl.
Qed.

Lemma addRoom_appends_witness :
  let d := Dungeon.addRoom 0 (fst (Dungeon.alloc (Room.new "B" "" "")
             (fst (Dungeon.alloc (Room.new "A" "" "") (Dungeon.new (Player.new "Hero" 100 10)))))) in
  linked (Dungeon.addRoom 1 d) (Dungeon.head (Dungeon.addRoom 1 d)) [0; 1]%nat.
Proof.
  intros d.
  refine (proj1 (addRoom_appends d [0%nat] 1%nat (Room.new "B" "" "") _ _ _ _)).
  - econstructor; [vm_compute; reflexivity |]. vm_compute. constructor.
  - vm_compute; reflexivity.
  - reflexivity.
  - simpl. intros [H | []]. discriminate H.
Defined.

(* ================================================================= *)
(** * Sessions as a whole *)

(** X8 is [reachable_ranges] above; here it is applied to the session
    that ends in the den of the monster. *)
Lemma reachable_ranges_witness :
  (0 <= Player.health (playerLogic in_monster_den) <= 100) /\
  (0 <= Player.moves (playerLogic in_monster_den) <= 10) /\
  pointers_ok in_monster_den.
Proof.
  destruct (reachable_ranges in_monster_den (state_after_reachable to_monster_den))
    as (Hh & Hm & _ & _ & Hp).
  split; [exact Hh | split; [exact Hm | exact Hp]].
Defined.

(** What a history never undoes, whatever the damage taken. *)
Lemma player_steps_mono (ok : Prop) p p' :
  player_steps ok p p' ->
  Player.name p' = Player.name p /\
  Player.moves p' <= Player.moves p /\
  (Player.finalBossDefeated p = true -> Player.finalBossDefeated p' = true) /\
  (forall item, Player.hasItem item p = true -> Player.hasItem item p' = true).
Proof.
  intros H.
  induction H as [| damage p' Hd _ IH | amount p' Ha _ IH | item p' _ IH
                  | p' _ IH | p' _ IH];
    [| destruct IH as (Hn & Hm & Hb & Hi) ..];
    (split; [| split; [| split]]);
    try (intros; assumption); try reflexivity; try lia;
    try exact Hn; try exact Hm; try exact Hb; try exact Hi.
  - intros it Hit. unfold Player.hasItem, Player.collectItem, Inventory.has.
    cbn [Player.set_inventory Player.inventory]. rewrite items_add, existsb_app.
    apply orb_true_iff. left. apply Hi, Hit.
  - unfold Player.useMove, Player.set_moves. cbn [Player.moves]. lia.
Qed.



(* ================================================================= *)
(** * The endings *)

Lemma keeps_refl p : player_keeps p p.
Proof. split; auto. Qed.

Lemma keeps_takeDamage p damage : player_keeps p (fst (Player.takeDamage damage p)).
Proof. split; intros H; exact H. Qed.

Lemma keeps_heal p amount : player_keeps p (Player.heal amount p).
Proof. split; intros H; exact H. Qed.

Lemma keeps_useMove p : player_keeps p (Player.useMove p).
Proof. split; intros H; exact H. Qed.

Lemma keeps_setBossDefeated p : player_keeps p (Player.setBossDefeated true p).
Proof. split; intros H; [exact H | reflexivity]. Qed.

Lemma keeps_collectItem p item : player_keeps p (Player.collectItem item p).
Proof.
  split; intros H; [| exact H].
  unfold Player.hasItem, Player.collectItem, Inventory.has in *.
  cbn [Player.set_inventory Player.inventory]. rewrite items_add, existsb_app.
  apply orb_true_iff. left. exact H.
Qed.

Lemma keeps_trans p1 p2 p3 : player_keeps p1 p2 -> player_keeps p2 p3 -> player_keeps p1 p3.
Proof. intros [H1 H2] [H3 H4]. split; auto. Qed.

Create HintDb ending discriminated.

Lemma ending_refl g : ending_ok g g.
Proof. left. reflexivity. Qed.

Lemma ending_ext g0 g g' :
  gameOverScreen g' = gameOverScreen g ->
  player_keeps (playerLogic g) (playerLogic g') ->
  ending_ok g0 g -> ending_ok g0 g'.
Proof.
  intros Hs [Hk Hb] [H | (s & H & Hin & Hwin)].
  - left. congruence.
  - right. exists s. split; [congruence |]. split; [exact Hin |].
    intros Hw. destruct (Hwin Hw) as [H1 H2]. unfold hasKey, bossDefeated in *. auto.
Qed.

Ltac ending_setter :=
  let H := fresh in
  intros H; eapply ending_ext; [| | exact H]; [reflexivity | apply keeps_refl].

Lemma ending_set_currentState g g' x : ending_ok g g' -> ending_ok g (set_currentState x g').
Proof. ending_setter. Qed.
Lemma ending_set_message g g' x : ending_ok g g' -> ending_ok g (set_message x g').
Proof. ending_setter. Qed.
Lemma ending_set_actionsLog g g' x : ending_ok g g' -> ending_ok g (set_actionsLog x g').
Proof. ending_setter. Qed.
Lemma ending_set_m_isNewRoomEntry g g' x :
  ending_ok g g' -> ending_ok g (set_m_isNewRoomEntry x g').
Proof. ending_setter. Qed.
Lemma ending_set_nextStateID g g' x : ending_ok g g' -> ending_ok g (set_nextStateID x g').
Proof. ending_setter. Qed.
Lemma ending_set_currentStateID g g' x :
  ending_ok g g' -> ending_ok g (set_currentStateID x g').
Proof. ending_setter. Qed.
Lemma ending_set_currentTransition g g' x :
  ending_ok g g' -> ending_ok g (set_currentTransition x g').
Proof. ending_setter. Qed.
Lemma ending_set_transitionState g g' x :
  ending_ok g g' -> ending_ok g (set_transitionState x g').
Proof. ending_setter. Qed.
Lemma ending_set_onTransitionComplete g g' x :
  ending_ok g g' -> ending_ok g (set_onTransitionComplete x g').
Proof. ending_setter. Qed.

Lemma ending_addAction g g' action : ending_ok g g' -> ending_ok g (addAction action g').
Proof.
  intros H. destruct (addAction_fields action g') as [log ->].
  apply ending_set_actionsLog, H.
Qed.

Lemma ending_changeScreen g g' s : ending_ok g g' -> ending_ok g (changeScreen s g').
Proof.
  intros H. unfold changeScreen.
  destruct (currentTransition g'); try exact H.
  destruct (negb _); exact H.
Qed.

Lemma ending_startTransition g g' cb : ending_ok g g' -> ending_ok g (startTransition cb g').
Proof.
  intros H. unfold startTransition. destruct (transitionState g'); exact H.
Qed.

Lemma ending_update_room g g' p f : ending_ok g g' -> ending_ok g (update_room p f g').
Proof.
  intros H. eapply ending_ext; [| | exact H]; [reflexivity |].
  rewrite playerLogic_update_room. apply keeps_refl.
Qed.

Lemma ending_set_playerLogic g g' p :
  player_keeps (playerLogic g') p -> ending_ok g g' -> ending_ok g (set_playerLogic p g').
Proof. intros Hk H. eapply ending_ext; [| | exact H]; [reflexivity | exact Hk]. Qed.

Lemma ending_set_dungeonLogic g g' d :
  player_keeps (playerLogic g') (Dungeon.player d) ->
  ending_ok g g' -> ending_ok g (set_dungeonLogic d g').
Proof. intros Hk H. eapply ending_ext; [| | exact H]; [reflexivity | exact Hk]. Qed.

(** A new game-over screen with a reason that is no victory. *)
Lemma ending_loss g0 g why :
  In why reasons -> contains "VICTORIOUS" why = false ->
  ending_ok g0 (triggerGameOver why g).
Proof.
  intros Hin Hlose. right. unfold triggerGameOver.
  set (s := mkGameOverScreen why _).
  exists s. split.
  - unfold changeScreen. cbn [set_gameOverScreen currentTransition currentStateID].
    destruct (currentTransition g); try reflexivity.
    destruct (negb _); reflexivity.
  - split; [exact Hin |]. unfold win. cbn [s reason]. congruence.
Qed.

(** The victory, given under its two conditions. *)
Lemma ending_victory g0 g why :
  In why reasons -> hasKey g = true -> bossDefeated g = true ->
  ending_ok g0 (triggerGameOver why g).
Proof.
  intros Hin Hkey Hboss. right. unfold triggerGameOver.
  set (s := mkGameOverScreen why _).
  exists s. split.
  - unfold changeScreen. cbn [set_gameOverScreen currentTransition currentStateID].
    destruct (currentTransition g); try reflexivity.
    destruct (negb _); reflexivity.
  - split; [exact Hin |]. intros _.
    assert (Hp : playerLogic (changeScreen GameStateID.GAME_OVER
                   (set_gameOverScreen (Some s) g)) = playerLogic g).
    { unfold changeScreen. cbn [set_gameOverScreen currentTransition currentStateID].
      destruct (currentTransition g); try reflexivity.
      destruct (negb _); reflexivity. }
    unfold hasKey, bossDefeated in *. rewrite Hp. auto.
Qed.

Ltac in_reasons := unfold reasons; repeat (first [left; reflexivity | right]).

#[export] Hint Resolve ending_refl ending_set_currentState ending_set_message
  ending_set_actionsLog ending_set_m_isNewRoomEntry ending_set_nextStateID
  ending_set_currentStateID ending_set_currentTransition ending_set_transitionState
  ending_set_onTransitionComplete ending_addAction ending_changeScreen
  ending_startTransition ending_update_room ending_set_playerLogic
  ending_set_dungeonLogic keeps_refl keeps_takeDamage keeps_heal keeps_useMove
  keeps_setBossDefeated keeps_collectItem : ending.

#[export] Hint Extern 1 (ending_ok _ (triggerGameOver _ _)) =>
  apply ending_loss; [in_reasons | reflexivity] : ending.

Ltac ending_step := eauto 20 with ending.

Lemma ending_handleItemInteraction g g' :
  ending_ok g g' -> ending_ok g (handleItemInteraction g').
Proof.
  intros H. unfold handleItemInteraction.
  destruct (currentRoomObj g') as [room |]; [| exact H].
  destruct (Room.entity room) as [[c n | c n damage] |]; try exact H.
  destruct c; cbn [Item_interact]; ending_step.
Qed.

Lemma ending_checkRoomState g g' : ending_ok g g' -> ending_ok g (checkRoomState g').
Proof.
  intros H. unfold checkRoomState.
  destruct (currentRoomObj g') as [room |]; [| exact H].
  cbv zeta.
  assert (H' : ending_ok g (if m_isNewRoomEntry g'
                            then set_m_isNewRoomEntry false
                                   (addAction ("Entered The " +:+ Room.name room) g')
                            else g'))
    by (destruct (m_isNewRoomEntry g'); ending_step).
  set (g1 := if m_isNewRoomEntry g' then _ else _) in *.
  destruct (Room.isFinalDoor room).
  - destruct (Player.hasItem "Golden Key" (playerLogic g1)) eqn:Hkey;
      [destruct (Player.isFinalBossDefeated (playerLogic g1)) eqn:Hboss |];
      cbn [andb]; try ending_step.
    apply ending_victory; [in_reasons | exact Hkey | exact Hboss].
  - destruct (Room.entity room) as [e |].
    + destruct (_ && _); [ending_step |].
      destruct (is_Enemy e); [ending_step |].
      apply ending_handleItemInteraction, H'.
    + destruct (Room.isChoiceRoom room); ending_step.
Qed.

Lemma ending_handleCombat g g' : ending_ok g g' -> ending_ok g (handleCombat g').
Proof.
  intros H. unfold handleCombat.
  destruct (currentRoomObj g') as [room |]; [| exact H].
  destruct (Room.entity room) as [[c n | c n damage] |]; try exact H.
  cbv zeta.
  assert (H0 : ending_ok g (addAction ("Fought the " +:+ n) g')) by ending_step.
  set (g0 := addAction ("Fought the " +:+ n) g') in *.
  destruct (is_BossEnemy (Enemy c n damage));
    [destruct (Player.hasItem "Sword" _) |];
    rewrite takeDamage_pair; cbv beta iota zeta;
    destruct (Player.getHealth _ <=? 0); ending_step.
Qed.

Lemma ending_handleChoice g g' choice :
  ending_ok g g' -> ending_ok g (handleChoice choice g').
Proof.
  intros H. unfold handleChoice.
  destruct (currentRoomObj g') as [room |]; [| exact H].
  destruct (negb (Room.isChoiceRoom room)); [exact H |].
  cbv zeta. destruct (choice =? 1); ending_step.
Qed.

#[export] Hint Resolve ending_handleItemInteraction ending_checkRoomState
  ending_handleCombat ending_handleChoice : ending.

Lemma ending_handleEvent g g' event : ending_ok g g' -> ending_ok g (handleEvent event g').
Proof.
  intros H. unfold handleEvent.
  destruct event as [code |]; [| exact H].
  destruct (transitionState g'); try exact H.
  destruct (currentState g'), code; try exact H;
    repeat match goal with
           | |- context [if ?b then _ else _] => destruct b
           end; ending_step.
Qed.

Lemma ending_runCallback g g' g'' cb :
  ending_ok g g' -> runCallback cb g' = Ok g'' -> ending_ok g g''.
Proof.
  intros H. destruct cb; cbn [runCallback]; cbv zeta.
  - intros [= <-]. apply ending_set_dungeonLogic; [| ending_step].
    unfold Dungeon.moveForward. destruct (Dungeon.canMoveForward _); ending_step.
  - unfold Dungeon.moveBack. destruct (Dungeon.canMoveBack _).
    + cbv zeta. destruct (Stack.top _); cbn [rbind]; [| discriminate].
      intros [= <-]. apply ending_set_dungeonLogic; ending_step.
    + cbn [rbind]. intros [= <-]. apply ending_set_dungeonLogic; ending_step.
  - intros [= <-]. ending_step.
  - intros [= <-]. ending_step.
  - intros [= <-]. ending_step.
  - intros [= <-]. ending_step.
Qed.

Lemma ending_GamePlayScreen_update g g' g'' elapsed :
  ending_ok g g' -> GamePlayScreen_update elapsed g' = Ok g'' -> ending_ok g g''.
Proof.
  intros H. unfold GamePlayScreen_update.
  destruct (transitionState g'); destruct elapsed;
    try (intros [= <-]; ending_step).
  unfold completeTransition.
  destruct (onTransitionComplete g') as [cb |]; cbn [rbind].
  - destruct (runCallback cb g') as [g1 |] eqn:Hcb; cbn [rbind]; [| discriminate].
    pose proof (ending_runCallback _ _ _ _ H Hcb) as H1.
    destruct (_ <? 0); intros [= <-]; ending_step.
  - destruct (_ <? 0); intros [= <-]; ending_step.
Qed.

Lemma ending_handleScreenTransition g g' elapsed :
  ending_ok g g' -> ending_ok g (handleScreenTransition elapsed g').
Proof.
  intros H. unfold handleScreenTransition.
  destruct (currentTransition g'); [exact H | |]; destruct elapsed; try exact H.
  cbv zeta. apply ending_set_currentTransition.
  destruct (currentStateID _); try (apply ending_set_currentStateID, H).
  unfold onEnter. ending_step.
Qed.

(** The game-over screen a step leaves is the one it found, or one that
    is in order. *)
Lemma step_ending i g g' : step i g = Ok g' -> ending_ok g g'.
Proof.
  intros Hstep.
  destruct i as [event | screenElapsed gameElapsed]; cbn [step] in Hstep.
  - injection Hstep as <-. unfold processEvents.
    destruct (currentTransition g); try apply ending_refl.
    destruct (currentStateID g); try apply ending_refl.
    + apply ending_handleEvent, ending_refl.
    + destruct (gameOverScreen g); [| apply ending_refl].
      unfold GameOverScreen_handleEvent.
      destruct event as [[] |]; ending_step.
  - unfold Game_update in Hstep.
    destruct (match currentTransition g with
              | TransitionState.NONE => _ | _ => _ end) as [g1 |] eqn:Hscr;
      cbn [rbind] in Hstep; [| discriminate].
    injection Hstep as <-. apply ending_handleScreenTransition.
    destruct (currentTransition g); try (injection Hscr as <-; apply ending_refl).
    destruct (currentStateID g); try (injection Hscr as <-; apply ending_refl).
    eapply ending_GamePlayScreen_update; [apply ending_refl | exact Hscr].
Qed.

(** X10: a step installs no game-over screen, or one that is in order:
    its reason is one of the six the gameplay screen knows, and it shows
    the victory only if, in the state the step leaves, the player holds
    the Golden Key and has defeated the final boss. *)
Theorem new_ending_is_fair (i : Input) (g g' : Game) :
  step i g = Ok g' ->
  gameOverScreen g' = gameOverScreen g \/
  exists s, gameOverScreen g' = Some s /\
    In (reason s) reasons /\
    (win s = true -> hasKey g' = true /\ bossDefeated g' = true).
Proof. intros Hstep. exact (step_ending _ _ _ Hstep). Qed.

Lemma new_ending_is_fair_witness :
  exists s, gameOverScreen (state_after (to_final_door ++ [Update true false])) = Some s /\
    win s = true.
Proof.
  assert (Hstep : step (Update true false) (state_after to_final_door)
                  = Ok (state_after (to_final_door ++ [Update true false])))
    by (vm_compute; reflexivity).
  destruct (new_ending_is_fair _ _ _ Hstep) as [Hsame | (s & Hs & _ & _)].
  - vm_compute in Hsame. discriminate Hsame.
  - exists s. split; [exact Hs |].
    vm_compute in Hs. injection Hs as <-. vm_compute. reflexivity.
Defined.

(* ================================================================= *)
(** * Prompts and keys *)

Lemma startTransition_acts cb g :
  transitionState g = GpTransitionState.NONE -> startTransition cb g <> g.
Proof.
  intros Htr Heq. apply (f_equal transitionState) in Heq.
  unfold startTransition in Heq. rewrite Htr in Heq. cbn in Heq. congruence.
Qed.

Lemma quit_acts g : in_gameplay g -> changeScreen GameStateID.MENU g <> g.
Proof.
  intros [Hid Htr] Heq. apply (f_equal currentTransition) in Heq.
  unfold changeScreen in Heq. rewrite Htr, Hid in Heq. cbn in Heq. congruence.
Qed.

(** X11: while exploring with moves left and no fade under way, the
    prompts [updateUI] lists are exactly the keys [handleEvent] acts on:
    each of Forward, Backtrack, Collect Sword and Quit is listed if and
    only if its key changes the state, and no other key changes it. *)
Theorem prompts_match_keys (g : Game) :
  in_gameplay g ->
  transitionState g = GpTransitionState.NONE ->
  currentState g = EXPLORING ->
  0 < Player.getMoves (playerLogic g) ->
  (In "[F] Forward" (explorationPrompts g) <->
   handleEvent (KeyPressed Keyboard.F) g <> g) /\
  (In "[B] Backtrack" (explorationPrompts g) <->
   handleEvent (KeyPressed Keyboard.B) g <> g) /\
  (In "[C] Collect Sword" (explorationPrompts g) <->
   handleEvent (KeyPressed Keyboard.C) g <> g) /\
  (In "[Q] Quit" (explorationPrompts g) <->
   handleEvent (KeyPressed Keyboard.Q) g <> g) /\
  (forall code,
     ~ In code [Keyboard.F; Keyboard.B; Keyboard.C; Keyboard.Q] ->
     handleEvent (KeyPressed code) g = g).
Proof.
  intros Hin Htr Hst Hmoves.
  assert (Hleb : (Player.getMoves (playerLogic g) <=? 0) = false) by (apply Z.leb_gt; lia).
  unfold handleEvent, explorationPrompts. rewrite Htr, Hst, Hleb.
  pose proof (fun cb => startTransition_acts cb g Htr) as Hact.
  pose proof (quit_acts g Hin) as Hquit.
  repeat split;
    try (destruct (inSwordRoomWithSword g), (Dungeon.canMoveForward (dungeonLogic g)),
           (Dungeon.canMoveBack (dungeonLogic g)); cbn [negb app In];
         first [ intros _; first [apply Hact | exact Hquit]
               | solve [intros _; simpl; auto 10]
               | intros H; exfalso; apply H; reflexivity
               | intros H; repeat destruct H as [H | H]; try discriminate H; contradiction ]).
  intros code Hcode. destruct code; try reflexivity; exfalso; apply Hcode; simpl; auto.
Qed.

Lemma prompts_match_keys_witness :
  In "[F] Forward" (explorationPrompts (state_after boot)) /\
  handleEvent (KeyPressed Keyboard.F) (state_after boot) <> state_after boot.
Proof.
  assert (H1 : in_gameplay (state_after boot)) by (vm_compute; split; reflexivity).
  assert (H2 : transitionState (state_after boot) = GpTransitionState.NONE)
    by (vm_compute; reflexivity).
  assert (H3 : currentState (state_after boot) = EXPLORING) by (vm_compute; reflexivity).
  assert (H4 : 0 < Player.getMoves (playerLogic (state_after boot)))
    by (vm_compute; reflexivity).
  assert (H : In "[F] Forward" (explorationPrompts (state_after boot)))
    by (vm_compute; left; reflexivity).
  split; [exact H |].
  exact (proj1 (proj1 (prompts_match_keys (state_after boot) H1 H2 H3 H4)) H).
Defined.

(* ================================================================= *)
(** * The screens *)

Create HintDb flow discriminated.

Lemma move_refl g : gameplay_move g g.
Proof. split; [reflexivity | split; [auto | left; split; reflexivity]]. Qed.

(** A change of fields the screens do not look at. *)
Lemma move_ext g0 g g' :
  currentStateID g' = currentStateID g ->
  nextStateID g' = nextStateID g ->
  currentTransition g' = currentTransition g ->
  gameOverScreen g' = gameOverScreen g ->
  gameplay_move g0 g -> gameplay_move g0 g'.
Proof.
  intros Hc Hn Ht Hs (H1 & H2 & H3). unfold gameplay_move.
  rewrite Hc, Hn, Ht, Hs. auto.
Qed.

Ltac move_setter :=
  let H := fresh in
  intros H; eapply move_ext; [| | | | exact H]; reflexivity.

Lemma move_set_currentState g g' x :
  gameplay_move g g' -> gameplay_move g (set_currentState x g').
Proof. move_setter. Qed.
Lemma move_set_message g g' x : gameplay_move g g' -> gameplay_move g (set_message x g').
Proof. move_setter. Qed.
Lemma move_set_actionsLog g g' x :
  gameplay_move g g' -> gameplay_move g (set_actionsLog x g').
Proof. move_setter. Qed.
Lemma move_set_m_isNewRoomEntry g g' x :
  gameplay_move g g' -> gameplay_move g (set_m_isNewRoomEntry x g').
Proof. move_setter. Qed.
Lemma move_set_transitionState g g' x :
  gameplay_move g g' -> gameplay_move g (set_transitionState x g').
Proof. move_setter. Qed.
Lemma move_set_onTransitionComplete g g' x :
  gameplay_move g g' -> gameplay_move g (set_onTransitionComplete x g').
Proof. move_setter. Qed.
Lemma move_set_dungeonLogic g g' x :
  gameplay_move g g' -> gameplay_move g (set_dungeonLogic x g').
Proof. move_setter. Qed.
Lemma move_set_playerLogic g g' x :
  gameplay_move g g' -> gameplay_move g (set_playerLogic x g').
Proof. move_setter. Qed.
Lemma move_update_room g g' p f :
  gameplay_move g g' -> gameplay_move g (update_room p f g').
Proof. move_setter. Qed.

Lemma move_addAction g g' action :
  gameplay_move g g' -> gameplay_move g (addAction action g').
Proof.
  intros H. destruct (addAction_fields action g') as [log ->].
  apply move_set_actionsLog, H.
Qed.

Lemma move_startTransition g g' cb :
  gameplay_move g g' -> gameplay_move g (startTransition cb g').
Proof.
  intros H. unfold startTransition. destruct (transitionState g'); exact H.
Qed.

Lemma eqb_neq (a b : GameStateID.t) : GameStateID.eqb a b = false -> a <> b.
Proof. intros H ->. destruct b; discriminate H. Qed.

Lemma move_quit g g' :
  gameplay_move g g' -> gameplay_move g (changeScreen GameStateID.MENU g').
Proof.
  intros Hall. pose proof Hall as (Hc & Hs & H). unfold changeScreen.
  destruct (currentTransition g') eqn:Htr; try exact Hall.
  destruct (GameStateID.eqb GameStateID.MENU (currentStateID g')) eqn:Heq; cbn [negb];
    [exact Hall |].
  split; [exact Hc |]. split; [exact Hs |].
  destruct H as [[Hn Ht] | (_ & Ht & _)]; [| congruence].
  right. cbn. split; [congruence |]. split; [reflexivity |].
  split; [| left; reflexivity].
  apply eqb_neq in Heq. congruence.
Qed.

Lemma move_triggerGameOver g g' why :
  gameplay_move g g' -> gameplay_move g (triggerGameOver why g').
Proof.
  intros Hall. pose proof Hall as (Hc & Hs & H). unfold triggerGameOver, changeScreen.
  cbn [set_gameOverScreen currentTransition currentStateID].
  assert (Hkeep : forall s, gameplay_move g (set_gameOverScreen (Some s) g')).
  { intros s. split; [exact Hc |]. split; [discriminate |].
    destruct H as [H | (H1 & H2 & H3 & [H4 | [H4 _]])]; [left; exact H | |].
    - right. repeat split; try assumption. left. exact H4.
    - right. repeat split; try assumption. right. split; [exact H4 | discriminate]. }
  destruct (currentTransition g') eqn:Htr; try apply Hkeep.
  destruct (GameStateID.eqb GameStateID.GAME_OVER (currentStateID g')) eqn:Heq; cbn [negb];
    [apply Hkeep |].
  split; [exact Hc |]. split; [discriminate |].
  destruct H as [[Hn Ht] | (_ & Ht & _)]; [| congruence].
  right. cbn. split; [congruence |]. split; [reflexivity |].
  split; [| right; split; [reflexivity | discriminate]].
  apply eqb_neq in Heq. congruence.
Qed.

#[export] Hint Resolve move_refl move_set_currentState move_set_message
  move_set_actionsLog move_set_m_isNewRoomEntry move_set_transitionState
  move_set_onTransitionComplete move_set_dungeonLogic move_set_playerLogic
  move_update_room move_addAction move_startTransition move_quit
  move_triggerGameOver : flow.

Ltac flow_step := eauto 20 with flow.

Lemma move_handleItemInteraction g g' :
  gameplay_move g g' -> gameplay_move g (handleItemInteraction g').
Proof.
  intros H. unfold handleItemInteraction.
  destruct (currentRoomObj g') as [room |]; [| exact H].
  destruct (Room.entity room) as [[c n | c n damage] |]; try exact H.
  destruct c; cbn [Item_interact]; flow_step.
Qed.

Lemma move_checkRoomState g g' :
  gameplay_move g g' -> gameplay_move g (checkRoomState g').
Proof.
  intros H. unfold checkRoomState.
  destruct (currentRoomObj g') as [room |]; [| exact H].
  cbv zeta.
  assert (H' : gameplay_move g (if m_isNewRoomEntry g'
                                then set_m_isNewRoomEntry false
                                       (addAction ("Entered The " +:+ Room.name room) g')
                                else g'))
    by (destruct (m_isNewRoomEntry g'); flow_step).
  destruct (Room.isFinalDoor room).
  - repeat (match goal with |- context [if ?b then _ else _] =>
                              destruct b end); flow_step.
  - destruct (Room.entity room) as [e |].
    + destruct (_ && _); [flow_step |].
      destruct (is_Enemy e); [flow_step |].
      apply move_handleItemInteraction, H'.
    + destruct (Room.isChoiceRoom room); flow_step.
Qed.

Lemma move_handleCombat g g' : gameplay_move g g' -> gameplay_move g (handleCombat g').
Proof.
  intros H. unfold handleCombat.
  destruct (currentRoomObj g') as [room |]; [| exact H].
  destruct (Room.entity room) as [[c n | c n damage] |]; try exact H.
  cbv zeta.
  assert (H0 : gameplay_move g (addAction ("Fought the " +:+ n) g')) by flow_step.
  set (g0 := addAction ("Fought the " +:+ n) g') in *.
  destruct (is_BossEnemy (Enemy c n damage));
    [destruct (Player.hasItem "Sword" _) |];
    rewrite takeDamage_pair; cbv beta iota zeta;
    destruct (Player.getHealth _ <=? 0); flow_step.
Qed.

Lemma move_handleChoice g g' choice :
  gameplay_move g g' -> gameplay_move g (handleChoice choice g').
Proof.
  intros H. unfold handleChoice.
  destruct (currentRoomObj g') as [room |]; [| exact H].
  destruct (negb (Room.isChoiceRoom room)); [exact H |].
  cbv zeta. destruct (choice =? 1); flow_step.
Qed.

#[export] Hint Resolve move_handleItemInteraction move_checkRoomState
  move_handleCombat move_handleChoice : flow.

Lemma move_handleEvent g g' event :
  gameplay_move g g' -> gameplay_move g (handleEvent event g').
Proof.
  intros H. unfold handleEvent.
  destruct event as [code |]; [| exact H].
  destruct (transitionState g'); try exact H.
  destruct (currentState g'), code; try exact H;
    repeat match goal with
           | |- context [if ?b then _ else _] => destruct b
           end; flow_step.
Qed.

Lemma move_runCallback g g' g'' cb :
  gameplay_move g g' -> runCallback cb g' = Ok g'' -> gameplay_move g g''.
Proof.
  intros H. destruct cb; cbn [runCallback]; cbv zeta.
  - intros [= <-]. flow_step.
  - destruct (Dungeon.moveBack _); cbn [rbind]; [| discriminate].
    intros [= <-]. flow_step.
  - intros [= <-]. flow_step.
  - intros [= <-]. flow_step.
  - intros [= <-]. flow_step.
  - intros [= <-]. flow_step.
Qed.

Lemma move_GamePlayScreen_update g g' g'' elapsed :
  gameplay_move g g' -> GamePlayScreen_update elapsed g' = Ok g'' -> gameplay_move g g''.
Proof.
  intros H. unfold GamePlayScreen_update.
  destruct (transitionState g'); destruct elapsed;
    try (intros [= <-]; flow_step).
  unfold completeTransition.
  destruct (onTransitionComplete g') as [cb |]; cbn [rbind].
  - destruct (runCallback cb g') as [g1 |] eqn:Hcb; cbn [rbind]; [| discriminate].
    pose proof (move_runCallback _ _ _ _ H Hcb) as H1.
    destruct (_ <? 0); intros [= <-]; flow_step.
  - destruct (_ <? 0); intros [= <-]; flow_step.
Qed.

Lemma move_onEnter g g' : gameplay_move g g' -> gameplay_move g (onEnter g').
Proof. intros H. unfold onEnter. flow_step. Qed.

(** A move of the gameplay screen keeps the screens in order. *)
Lemma flow_move g g' :
  flow_ok g -> currentStateID g = GameStateID.GAMEPLAY ->
  gameplay_move g g' -> flow_ok g'.
Proof.
  unfold flow_ok. intros [Hflow Hscreen] Hcur (Hc & Hs & H).
  rewrite Hc, Hcur in *.
  destruct H as [[Hn Ht] | (Ht & Ht' & Hne & Hnext)].
  - rewrite Hn, Ht. split; [exact Hflow |]. intros Hover. apply Hs, Hscreen, Hover.
  - rewrite Ht'. split.
    + destruct Hnext as [-> | [-> _]]; simpl; auto 10.
    + intros [Hover | Hover]; [discriminate Hover |].
      destruct Hnext as [Hmenu | [_ Hsome]]; [congruence | exact Hsome].
Qed.

(** On the gameplay and the game-over screen, and during a change of
    screen, the game with its screens is the game of the sessions. *)
Lemma App_handleScreenTransition_game elapsed a :
  game (App_handleScreenTransition elapsed a) = handleScreenTransition elapsed (game a).
Proof.
  unfold App_handleScreenTransition, handleScreenTransition.
  destruct (currentTransition (game a)), elapsed; try reflexivity.
  cbv zeta. cbn [currentStateID set_currentStateID].
  destruct (nextStateID (game a)); reflexivity.
Qed.

Lemma App_update_game screenElapsed gameElapsed a a' :
  App_update screenElapsed gameElapsed a = Ok a' ->
  Game_update screenElapsed gameElapsed (game a) = Ok (game a').
Proof.
  unfold App_update, Game_update.
  destruct (match currentTransition (game a) with
            | TransitionState.NONE => _ | _ => _ end) as [g1 |]; cbn [rbind]; [| discriminate].
  intros [= <-]. rewrite App_handleScreenTransition_game. reflexivity.
Qed.

Lemma App_processEvents_game event a :
  currentTransition (game a) <> TransitionState.NONE \/
  currentStateID (game a) <> GameStateID.MENU /\
  currentStateID (game a) <> GameStateID.NAME_INPUT ->
  game (App_processEvents event a) = processEvents (keyEvent event) (game a).
Proof.
  unfold App_processEvents, processEvents.
  destruct (currentTransition (game a)); try reflexivity.
  destruct (currentStateID (game a)); try reflexivity; intros [H | [H1 H2]]; congruence.
Qed.

Lemma flow_changeScreen g s :
  flow_ok g -> currentTransition g = TransitionState.NONE ->
  In (currentStateID g, s) screen_edges -> s <> GameStateID.GAME_OVER ->
  flow_ok (changeScreen s g).
Proof.
  intros [_ Hscreen] Htr Hedge Hs. unfold changeScreen. rewrite Htr.
  assert (Hne : GameStateID.eqb s (currentStateID g) = false).
  { unfold screen_edges in Hedge. simpl in Hedge.
    repeat destruct Hedge as [Hedge | Hedge]; try contradiction;
      injection Hedge as <- <-; reflexivity. }
  rewrite Hne. cbn [negb]. unfold flow_ok. cbn. split; [exact Hedge |].
  intros [Hover | Hover]; [| congruence]. apply Hscreen. left. exact Hover.
Qed.

(** The steps of the sessions keep the screens in order. *)
Lemma flow_processEvents event g : flow_ok g -> flow_ok (processEvents event g).
Proof.
  intros Hflow. unfold processEvents.
  destruct (currentTransition g) eqn:Htr; try exact Hflow.
  destruct (currentStateID g) eqn:Hcur; try exact Hflow.
  - apply (flow_move g); [exact Hflow | exact Hcur |].
    apply move_handleEvent, move_refl.
  - destruct (gameOverScreen g); [| exact Hflow].
    unfold GameOverScreen_handleEvent. destruct event as [[] |]; try exact Hflow.
    apply flow_changeScreen; [exact Hflow | exact Htr | | discriminate].
    rewrite Hcur. simpl. auto 10.
Qed.

Lemma flow_handleScreenTransition elapsed g :
  flow_ok g -> flow_ok (handleScreenTransition elapsed g).
Proof.
  intros Hflow. pose proof Hflow as [Hfl Hscreen]. unfold handleScreenTransition.
  destruct (currentTransition g) eqn:Htr; [exact Hflow | |]; destruct elapsed;
    try exact Hflow.
  - cbv zeta. cbn [currentStateID set_currentStateID].
    assert (Hnext : nextStateID g <> GameStateID.NONE).
    { unfold screen_edges in Hfl. simpl in Hfl.
      repeat destruct Hfl as [Hfl | Hfl]; try contradiction;
        injection Hfl as _ <-; discriminate. }
    destruct (nextStateID g) eqn:Hn; try congruence.
    + unfold flow_ok. cbn. rewrite Hn.
      split; [split; [discriminate | reflexivity] |]. intros [H | H]; discriminate H.
    + unfold flow_ok. cbn. rewrite Hn.
      split; [split; [discriminate | reflexivity] |]. intros [H | H]; discriminate H.
    + set (g2 := set_currentStateID GameStateID.GAMEPLAY g).
      destruct (move_onEnter g2 g2 (move_refl g2)) as (Hc & Hs & Hm).
      destruct Hm as [[Hmn Hmt] | (Hmt & _)];
        [| cbn in Hmt; congruence].
      unfold flow_ok. cbn [currentTransition set_currentTransition currentStateID
                           nextStateID gameOverScreen].
      rewrite Hc, Hmn. cbn. rewrite Hn.
      split; [split; [discriminate | reflexivity] |]. intros [H | H]; discriminate H.
    + unfold flow_ok. cbn. rewrite Hn.
      split; [split; [discriminate | reflexivity] |].
      intros _. apply Hscreen. right. reflexivity.
  - unfold flow_ok in *. cbn. split; [| exact Hscreen].
    destruct Hfl as [H1 H2]. split; [exact H1 | left; exact H2].
Qed.

Lemma flow_Game_update screenElapsed gameElapsed g g' :
  flow_ok g -> Game_update screenElapsed gameElapsed g = Ok g' -> flow_ok g'.
Proof.
  intros Hflow. unfold Game_update.
  destruct (match currentTransition g with
            | TransitionState.NONE => _ | _ => _ end) as [g1 |] eqn:Hscr;
    cbn [rbind]; [| discriminate].
  intros [= <-]. apply flow_handleScreenTransition.
  destruct (currentTransition g); try (injection Hscr as <-; exact Hflow).
  destruct (currentStateID g) eqn:Hcur; try (injection Hscr as <-; exact Hflow).
  apply (flow_move g); [exact Hflow | exact Hcur |].
  eapply move_GamePlayScreen_update; [apply move_refl | exact Hscr].
Qed.

Lemma flow_startGameplay playerName g :
  flow_ok g -> currentStateID g = GameStateID.NAME_INPUT ->
  currentTransition g = TransitionState.NONE ->
  flow_ok (startGameplay playerName g).
Proof.
  intros [_ Hscreen] Hcur Htr. unfold startGameplay, changeScreen.
  cbn [currentTransition currentStateID]. rewrite Htr, Hcur.
  cbn [GameStateID.eqb negb]. unfold flow_ok.
  cbn [set_currentTransition set_nextStateID currentTransition currentStateID
       nextStateID gameOverScreen].
  split; [right; right; left; reflexivity |].
  intros [H | H]; discriminate H.
Qed.

Lemma flow_App_step i a a' :
  flow_ok (game a) -> App_step i a = Ok a' -> flow_ok (game a').
Proof.
  intros Hflow. destruct i as [event | screenElapsed gameElapsed]; cbn [App_step].
  - intros [= <-].
    destruct (currentTransition (game a)) eqn:Htr.
    + destruct (currentStateID (game a)) eqn:Hcur.
      * rewrite App_processEvents_game by (right; rewrite Hcur; split; discriminate).
        apply flow_processEvents, Hflow.
      * unfold App_processEvents. rewrite Htr, Hcur. cbn [game].
        unfold MenuScreen_handleEvent. destruct event as [u | [] |]; cbn [keyEvent];
          try exact Hflow.
        apply flow_changeScreen; [exact Hflow | exact Htr | | discriminate].
        rewrite Hcur. simpl. auto 10.
      * unfold App_processEvents. rewrite Htr, Hcur.
        unfold NameInputScreen_handleEvent.
        destruct (negb (isActive (nameInputScreen a))); [exact Hflow |].
        destruct event as [u | code |]; [exact Hflow | | exact Hflow].
        destruct code;
          try (destruct (negb (String.eqb (playerNameRef (nameInputScreen a)) ""));
               cbn [game]; [apply flow_startGameplay; assumption | exact Hflow]);
          try (cbn [game]; exact Hflow).
        cbn [game].
        apply flow_changeScreen; [exact Hflow | exact Htr | | discriminate].
        rewrite Hcur. simpl. auto 10.
      * rewrite App_processEvents_game by (right; rewrite Hcur; split; discriminate).
        apply flow_processEvents, Hflow.
      * rewrite App_processEvents_game by (right; rewrite Hcur; split; discriminate).
        apply flow_processEvents, Hflow.
    + rewrite App_processEvents_game by (left; rewrite Htr; discriminate).
      apply flow_processEvents, Hflow.
    + rewrite App_processEvents_game by (left; rewrite Htr; discriminate).
      apply flow_processEvents, Hflow.
  - intros Hup. apply App_update_game in Hup.
    eapply flow_Game_update; eassumption.
Qed.

Lemma App_initial_flow a : App_initial a -> flow_ok (game a).
Proof.
  intros (Hcur & Hnext & Htr & Hscreen & _). unfold flow_ok. rewrite Htr, Hcur, Hnext.
  split; [split; [discriminate | right; split; reflexivity] |].
  intros [H | H]; discriminate H.
Qed.

Lemma App_reachable_flow a : App_reachable a -> flow_ok (game a).
Proof.
  induction 1 as [a Hinit | i a a' _ IH Hstep].
  - apply App_initial_flow, Hinit.
  - eapply flow_App_step; eassumption.
Qed.

Lemma currentStateID_changeScreen s g :
  currentStateID (changeScreen s g) = currentStateID g.
Proof.
  unfold changeScreen. destruct (currentTransition g); try reflexivity.
  destruct (negb _); reflexivity.
Qed.

Lemma currentStateID_startGameplay playerName g :
  currentStateID (startGameplay playerName g) = currentStateID g.
Proof. unfold startGameplay. rewrite currentStateID_changeScreen. reflexivity. Qed.

Lemma currentStateID_processEvents event g :
  currentStateID (processEvents event g) = currentStateID g.
Proof.
  unfold processEvents.
  destruct (currentTransition g); try reflexivity.
  destruct (currentStateID g) eqn:Hcur; try exact Hcur.
  - rewrite <- Hcur. apply (move_handleEvent g g event (move_refl g)).
  - destruct (gameOverScreen g); [| exact Hcur].
    unfold GameOverScreen_handleEvent. destruct event as [[] |]; try exact Hcur.
    rewrite currentStateID_changeScreen. exact Hcur.
Qed.

Lemma currentStateID_App_processEvents event a :
  currentStateID (game (App_processEvents event a)) = currentStateID (game a).
Proof.
  destruct (currentTransition (game a)) eqn:Htr.
  - destruct (currentStateID (game a)) eqn:Hcur;
      try (rewrite App_processEvents_game by (right; rewrite Hcur; split; discriminate);
           rewrite currentStateID_processEvents; exact Hcur).
    + unfold App_processEvents. rewrite Htr, Hcur. cbn [game].
      unfold MenuScreen_handleEvent. destruct event as [u | [] |]; cbn [keyEvent];
        try exact Hcur.
      rewrite currentStateID_changeScreen. exact Hcur.
    + unfold App_processEvents. rewrite Htr, Hcur.
      unfold NameInputScreen_handleEvent.
      destruct (negb (isActive (nameInputScreen a))); [exact Hcur |].
      destruct event as [u | code |]; [exact Hcur | | exact Hcur].
      destruct code;
        try (destruct (negb (String.eqb (playerNameRef (nameInputScreen a)) ""));
             cbn [game]; [rewrite currentStateID_startGameplay |]; exact Hcur);
        try (cbn [game]; exact Hcur).
      cbn [game]. rewrite currentStateID_changeScreen. exact Hcur.
  - rewrite App_processEvents_game by (left; rewrite Htr; discriminate).
    apply currentStateID_processEvents.
  - rewrite App_processEvents_game by (left; rewrite Htr; discriminate).
    apply currentStateID_processEvents.
Qed.

Lemma currentStateID_handleScreenTransition elapsed g :
  flow_ok g ->
  currentStateID (handleScreenTransition elapsed g) = currentStateID g \/
  In (currentStateID g, currentStateID (handleScreenTransition elapsed g)) screen_edges.
Proof.
  intros [Hfl _]. unfold handleScreenTransition.
  destruct (currentTransition g); [left; reflexivity | |]; destruct elapsed;
    try (left; reflexivity).
  right. cbv zeta. cbn [currentStateID set_currentStateID set_currentTransition].
  destruct (nextStateID g) eqn:Hn; try exact Hfl.
  set (g2 := set_currentStateID GameStateID.GAMEPLAY g).
  destruct (move_onEnter g2 g2 (move_refl g2)) as (Hc & _).
  rewrite Hc. exact Hfl.
Qed.

Lemma currentStateID_Game_update screenElapsed gameElapsed g g' :
  flow_ok g -> Game_update screenElapsed gameElapsed g = Ok g' ->
  currentStateID g' = currentStateID g \/
  In (currentStateID g, currentStateID g') screen_edges.
Proof.
  intros Hflow. unfold Game_update.
  destruct (match currentTransition g with
            | TransitionState.NONE => _ | _ => _ end) as [g1 |] eqn:Hscr;
    cbn [rbind]; [| discriminate].
  intros [= <-].
  assert (H1 : flow_ok g1 /\ currentStateID g1 = currentStateID g).
  { destruct (currentTransition g); try (injection Hscr as <-; auto).
    destruct (currentStateID g) eqn:Hcur; try (injection Hscr as <-; auto).
    pose proof (move_GamePlayScreen_update g g g1 _ (move_refl g) Hscr) as Hmove.
    split; [apply (flow_move g); assumption |].
    rewrite <- Hcur. apply Hmove. }
  destruct H1 as [Hflow1 Hcur1]. rewrite <- Hcur1.
  apply currentStateID_handleScreenTransition, Hflow1.
Qed.

(** X12: from the construction of the game on, the current screen is
    always one of the four, and it changes only along the six ways the
    handlers provide: menu to name input; name input to menu or to the
    gameplay; gameplay to menu or to game over; game over to menu.  The
    game-over screen exists whenever it is the current one. *)
Theorem screen_flow (i : AppInput) (a a' : App) :
  App_reachable a -> App_step i a = Ok a' ->
  (currentStateID (game a') = currentStateID (game a) \/
   In (currentStateID (game a), currentStateID (game a')) screen_edges) /\
  currentStateID (game a') <> GameStateID.NONE /\
  (currentStateID (game a') = GameStateID.GAME_OVER -> gameOverScreen (game a') <> None).
Proof.
  intros Hreach Hstep. pose proof (App_reachable_flow a Hreach) as Hflow.
  pose proof (flow_App_step _ _ _ Hflow Hstep) as Hflow'.
  split.
  - destruct i as [event | screenElapsed gameElapsed]; cbn [App_step] in Hstep.
    + injection Hstep as <-. left. apply currentStateID_App_processEvents.
    + apply App_update_game in Hstep.
      eapply currentStateID_Game_update; eassumption.
  - destruct Hflow' as [Hfl Hscreen]. split.
    + unfold screen_edges in Hfl. simpl in Hfl.
      destruct (currentTransition (game a')); try apply Hfl.
      repeat destruct Hfl as [Hfl | Hfl]; try contradiction;
        injection Hfl as <- _; discriminate.
    + intros Hover. apply Hscreen. left. exact Hover.
Qed.

Lemma screen_flow_witness :
  In (GameStateID.MENU,
      currentStateID (game (mkApp (handleScreenTransition true
        (changeScreen GameStateID.NAME_INPUT (game newApp))) (mkNameInputScreen "" true))))
     screen_edges.
Proof.
  assert (Hreach : App_reachable (App_processEvents (KeyDown Keyboard.Enter) newApp)).
  { eapply (App_reachable_step (AppPoll (KeyDown Keyboard.Enter)) newApp);
      [| reflexivity].
    apply App_reachable_start. repeat split. }
  destruct (screen_flow (AppUpdate false true) _
              (mkApp (handleScreenTransition true
                 (changeScreen GameStateID.NAME_INPUT (game newApp)))
                 (mkNameInputScreen "" true))
              Hreach eq_refl) as [[Hsame | Hedge] _].
  - vm_compute in Hsame. discriminate Hsame.
  - exact Hedge.
Defined.

(* ================================================================= *)
(** * The name of the player *)

Lemma length_append (s t : string) :
  String.length (s +:+ t) = (String.length s + String.length t)%nat.
Proof. induction s as [| c s IH]; simpl; [reflexivity | rewrite IH; reflexivity]. Qed.

Lemma printable_append (s t : string) :
  printable (s +:+ t) = printable s && printable t.
Proof.
  induction s as [| c s IH]; simpl; [reflexivity |].
  rewrite IH, andb_assoc. reflexivity.
Qed.

Lemma pop_back_length (s : string) : (String.length (pop_back s) <= String.length s)%nat.
Proof.
  induction s as [| c s IH]; [simpl; lia |].
  destruct s as [| c' s']; [simpl; lia |].
  change (pop_back (String c (String c' s'))) with (String c (pop_back (String c' s'))).
  simpl String.length in *. lia.
Qed.

Lemma pop_back_printable (s : string) : printable s = true -> printable (pop_back s) = true.
Proof.
  induction s as [| c s IH]; [reflexivity |].
  destruct s as [| c' s']; [reflexivity |].
  change (pop_back (String c (String c' s'))) with (String c (pop_back (String c' s'))).
  change (printable (String c (pop_back (String c' s'))))
    with ((32 <=? N_of_ascii c)%N && (N_of_ascii c <? 127)%N
          && printable (pop_back (String c' s'))).
  change (printable (String c (String c' s')))
    with ((32 <=? N_of_ascii c)%N && (N_of_ascii c <? 127)%N
          && printable (String c' s')).
  intros H. apply andb_true_iff in H as [H1 H2].
  rewrite H1, (IH H2). reflexivity.
Qed.

Lemma name_ok_empty : name_ok "".
Proof. split; [simpl; unfold MAX_NAME_LENGTH; lia | reflexivity]. Qed.

(** The name-input screen keeps the name in order. *)
Lemma name_ok_handleEvent event s g :
  name_ok (playerNameRef s) ->
  name_ok (playerNameRef (fst (NameInputScreen_handleEvent event s g))).
Proof.
  intros [Hlen Hprint]. unfold NameInputScreen_handleEvent.
  destruct (negb (isActive s)); [split; assumption |].
  destruct event as [u | code |]; cbn [fst playerNameRef].
  - destruct (u =? 8)%N.
    + destruct (negb _); [| split; assumption].
      split; [pose proof (pop_back_length (playerNameRef s)); lia
             | apply pop_back_printable, Hprint].
    + destruct ((32 <=? u)%N && (u <? 127)%N) eqn:Hu; [| split; assumption].
      destruct (Nat.ltb_spec (String.length (playerNameRef s)) MAX_NAME_LENGTH)
        as [Hlt | Hge]; [| split; assumption].
      split.
      * rewrite length_append. simpl. lia.
      * rewrite printable_append, Hprint. cbn [printable andb].
        apply andb_true_iff in Hu as [Hu1 Hu2].
        rewrite N_ascii_embedding
          by (apply N.ltb_lt in Hu2; lia).
        rewrite Hu1, Hu2. reflexivity.
  - destruct code; try (split; assumption);
      destruct (negb _); split; assumption.
  - split; assumption.
Qed.

Lemma name_step i g g' :
  step i g = Ok g' -> Player.name (playerLogic g') = Player.name (playerLogic g).
Proof.
  intros Hstep. destruct (session_le_step _ _ _ Hstep) as (_ & Hsteps & _).
  apply (player_steps_mono _ _ _ Hsteps).
Qed.

Lemma playing_changeScreen s g :
  s <> GameStateID.GAMEPLAY -> playing (changeScreen s g) -> playing g.
Proof.
  intros Hs. unfold playing, changeScreen.
  destruct (currentTransition g); try tauto.
  destruct (negb _); [| tauto]. cbn. intros [H | H]; [left; exact H | congruence].
Qed.

Lemma playing_processEvents event g : playing (processEvents event g) -> playing g.
Proof.
  unfold processEvents.
  destruct (currentTransition g); try tauto.
  destruct (currentStateID g) eqn:Hcur; try tauto.
  - intros _. left. exact Hcur.
  - destruct (gameOverScreen g); [| tauto].
    unfold GameOverScreen_handleEvent. destruct event as [[] |]; try tauto.
    apply playing_changeScreen. discriminate.
Qed.

Lemma playing_handleScreenTransition elapsed g :
  playing (handleScreenTransition elapsed g) -> playing g.
Proof.
  unfold handleScreenTransition.
  destruct (currentTransition g); [tauto | |]; destruct elapsed; try tauto.
  cbv zeta. cbn [currentStateID set_currentStateID].
  destruct (nextStateID g) eqn:Hn;
    try (unfold playing; cbn; rewrite Hn; intros [H | H]; discriminate H).
  intros _. right. exact Hn.
Qed.

Lemma playing_Game_update screenElapsed gameElapsed g g' :
  Game_update screenElapsed gameElapsed g = Ok g' -> playing g' -> playing g.
Proof.
  unfold Game_update.
  destruct (match currentTransition g with
            | TransitionState.NONE => _ | _ => _ end) as [g1 |] eqn:Hscr;
    cbn [rbind]; [| discriminate].
  intros [= <-] Hplay. apply playing_handleScreenTransition in Hplay.
  destruct (currentTransition g); try (injection Hscr as <-; exact Hplay).
  destruct (currentStateID g) eqn:Hcur; try (injection Hscr as <-; exact Hplay).
  left. exact Hcur.
Qed.

Lemma nameInputScreen_App_update screenElapsed gameElapsed a a' :
  App_update screenElapsed gameElapsed a = Ok a' ->
  nameInputScreen a' = nameInputScreen a \/
  nameInputScreen a' = NameInputScreen_onEnter (nameInputScreen a).
Proof.
  unfold App_update.
  destruct (match currentTransition (game a) with
            | TransitionState.NONE => _ | _ => _ end) as [g1 |]; cbn [rbind]; [| discriminate].
  intros [= <-]. unfold App_handleScreenTransition. cbn [game nameInputScreen].
  destruct (currentTransition g1); [left; reflexivity | |]; destruct gameElapsed;
    try (left; reflexivity).
  cbv zeta. cbn [currentStateID set_currentStateID].
  destruct (nextStateID g1); cbn [nameInputScreen]; auto.
Qed.

Lemma startGameplay_name playerName g :
  Player.name (playerLogic (startGameplay playerName g)) = playerName.
Proof. rewrite (proj1 (startGameplay_player playerName g)). reflexivity. Qed.

Lemma names_ok_App_step i a a' : names_ok a -> App_step i a = Ok a' -> names_ok a'.
Proof.
  intros [Hname Hplayer]. destruct i as [event | screenElapsed gameElapsed]; cbn [App_step].
  - intros [= <-].
    assert (Hflat : nameInputScreen (App_processEvents event a) = nameInputScreen a ->
                    game (App_processEvents event a) = processEvents (keyEvent event) (game a) ->
                    names_ok (App_processEvents event a)).
    { intros Hs Hg. unfold names_ok. rewrite Hs, Hg. split; [exact Hname |].
      intros Hplay. rewrite (name_step (Poll (keyEvent event)) (game a) _ eq_refl).
      apply Hplayer, (playing_processEvents _ _ Hplay). }
    destruct (currentTransition (game a)) eqn:Htr;
      [| apply Hflat; [unfold App_processEvents; rewrite Htr; reflexivity
                      | apply App_processEvents_game; left; rewrite Htr; discriminate] ..].
    destruct (currentStateID (game a)) eqn:Hcur;
      try (apply Hflat; [unfold App_processEvents; rewrite Htr, Hcur; reflexivity
                        | apply App_processEvents_game; right; rewrite Hcur;
                          split; discriminate]).
    + unfold App_processEvents. rewrite Htr, Hcur.
      split; [exact Hname |]. cbn [game].
      unfold MenuScreen_handleEvent. destruct event as [u | [] |]; cbn [keyEvent];
        try exact Hplayer.
      intros Hplay. apply playing_changeScreen in Hplay; [| discriminate].
      specialize (Hplayer Hplay). unfold changeScreen.
      destruct (currentTransition (game a)); try exact Hplayer.
      destruct (negb _); exact Hplayer.
    + pose proof (name_ok_handleEvent event (nameInputScreen a) (game a) Hname) as Hname'.
      unfold App_processEvents. rewrite Htr, Hcur.
      destruct (NameInputScreen_handleEvent event (nameInputScreen a) (game a))
        as [s' g'] eqn:Hev.
      cbn [fst] in Hname'. split; [exact Hname' |]. cbn [game].
      unfold NameInputScreen_handleEvent in Hev.
      destruct (negb (isActive (nameInputScreen a))); [injection Hev as <- <-; exact Hplayer |].
      destruct event as [u | code |]; try (injection Hev as <- <-; exact Hplayer).
      destruct code; try (injection Hev as <- <-; exact Hplayer).
      * destruct (negb (String.eqb (playerNameRef (nameInputScreen a)) "")) eqn:Hne;
          [| injection Hev as <- <-; exact Hplayer].
        injection Hev as <- <-. intros _. rewrite startGameplay_name.
        split; [exact Hname |].
        apply negb_true_iff, String.eqb_neq in Hne. exact Hne.
      * injection Hev as <- <-.
        intros Hplay. apply playing_changeScreen in Hplay; [| discriminate].
        specialize (Hplayer Hplay). unfold changeScreen.
        destruct (currentTransition (game a)); try exact Hplayer.
        destruct (negb _); exact Hplayer.
  - intros Hup. pose proof (App_update_game _ _ _ _ Hup) as Hflat. split.
    + destruct (nameInputScreen_App_update _ _ _ _ Hup) as [-> | ->];
        [exact Hname | apply name_ok_empty].
    + intros Hplay.
      rewrite (name_step (Update screenElapsed gameElapsed) (game a) _ Hflat).
      apply Hplayer, (playing_Game_update _ _ _ _ Hflat Hplay).
Qed.

Lemma App_reachable_names a : App_reachable a -> names_ok a.
Proof.
  induction 1 as [a (Hcur & Hnext & _ & _ & Hs) | i a a' _ IH Hstep].
  - split; [rewrite Hs; apply name_ok_empty |].
    intros [H | H]; congruence.
  - eapply names_ok_App_step; eassumption.
Qed.

(** X13: from the construction of the game on, through any number of
    sessions, the name being typed has at most 15 characters, all
    printable ASCII; and whenever the gameplay screen is the current one,
    the name of the player is such a name and is not empty. *)
Theorem player_name_valid (a : App) :
  App_reachable a ->
  name_ok (playerNameRef (nameInputScreen a)) /\
  (currentStateID (game a) = GameStateID.GAMEPLAY ->
   name_ok (Player.name (playerLogic (game a))) /\
   Player.name (playerLogic (game a)) <> "").
Proof.
  intros Hreach. destruct (App_reachable_names a Hreach) as [Hname Hplayer].
  split; [exact Hname |]. intros Hcur. apply Hplayer. left. exact Hcur.
Qed.

(* ================================================================= *)
(** * The game from its construction *)

Lemma App_step_total i a : exists a', App_step i a = Ok a'.
Proof.
  destruct i as [event | screenElapsed gameElapsed]; cbn [App_step]; [eauto |].
  unfold App_update.
  destruct (currentTransition (game a)); cbn [rbind]; eauto.
  destruct (currentStateID (game a)); cbn [rbind]; eauto.
  destruct (GamePlayScreen_update_total screenElapsed (game a)) as [g1 Hg1].
  rewrite Hg1. cbn [rbind]. eauto.
Qed.

(** X14: [std::runtime_error], which [Stack::top] throws on an empty
    stack, never leaves the game: whatever the state, even one no play
    leads to, and whatever the inputs, every step returns.  [moveBack]
    reads the top only behind [canMoveBack]. *)
Theorem App_never_throws (inputs : list AppInput) (a : App) :
  exists a', App_run inputs a = Ok a'.
Proof.
  revert a. induction inputs as [| i rest IH]; intros a; cbn [App_run]; [eauto |].
  destruct (App_step_total i a) as [a1 Ha1]. rewrite Ha1. cbn [rbind]. apply IH.
Qed.

Lemma App_run_Ok inputs a : exists a', App_run inputs a = Ok a'.
Proof.
  revert a. induction inputs as [| i rest IH]; intros a; cbn [App_run]; [eauto |].
  destruct (App_step_total i a) as [a1 Ha1]. rewrite Ha1. cbn [rbind]. apply IH.
Qed.

Lemma App_reachable_run inputs : forall a a',
  App_reachable a -> App_run inputs a = Ok a' -> App_reachable a'.
Proof.
  induction inputs as [| i rest IH]; intros a a' Ha; cbn [App_run].
  - intros [= <-]. exact Ha.
  - destruct (App_step i a) as [a1 |] eqn:Hstep; cbn [rbind]; [| discriminate].
    apply IH. eapply App_reachable_step; eassumption.
Qed.

Lemma newApp_initial : App_initial newApp.
Proof. repeat split. Qed.

Lemma app_after_reachable inputs : App_reachable (app_after inputs).
Proof.
  unfold app_after.
  destruct (App_run_Ok inputs newApp) as [a Ha]. rewrite Ha.
  eapply App_reachable_run; [| exact Ha].
  apply App_reachable_start, newApp_initial.
Qed.

Lemma in_session_processEvents event g :
  in_session (processEvents event g) -> in_session g.
Proof.
  unfold in_session. rewrite currentStateID_processEvents.
  intros [H | [H | H]]; [auto | auto |].
  revert H. unfold processEvents.
  destruct (currentTransition g); try tauto.
  destruct (currentStateID g) eqn:Hcur; tauto.
Qed.

Lemma in_session_handleScreenTransition elapsed g :
  flow_ok g -> in_session (handleScreenTransition elapsed g) -> in_session g.
Proof.
  intros [Hfl _]. unfold handleScreenTransition.
  destruct (currentTransition g); [tauto | |]; destruct elapsed; try tauto.
  cbv zeta. cbn [currentStateID set_currentStateID].
  destruct (nextStateID g) eqn:Hn;
    try (unfold in_session; cbn; rewrite Hn; intros [H | [H | H]]; discriminate H).
  - intros _. right. right. exact Hn.
  - intros _. left.
    unfold screen_edges in Hfl. simpl in Hfl.
    repeat destruct Hfl as [Hfl | Hfl]; try contradiction; try discriminate Hfl.
    injection Hfl as Hc. symmetry. exact Hc.
Qed.

Lemma in_session_Game_update screenElapsed gameElapsed g g' :
  flow_ok g -> Game_update screenElapsed gameElapsed g = Ok g' ->
  in_session g' -> in_session g.
Proof.
  intros Hflow. unfold Game_update.
  destruct (match currentTransition g with
            | TransitionState.NONE => _ | _ => _ end) as [g1 |] eqn:Hscr;
    cbn [rbind]; [| discriminate].
  intros [= <-] Hin.
  destruct (currentTransition g) eqn:Htr;
    try (injection Hscr as <-; apply (in_session_handleScreenTransition _ _ Hflow Hin)).
  destruct (currentStateID g) eqn:Hcur;
    try (injection Hscr as <-; apply (in_session_handleScreenTransition _ _ Hflow Hin)).
  left. exact Hcur.
Qed.

(** The sessions of the game are the sessions of [reachable]. *)
Lemma sessions_are_reachable_lemma (a : App) :
  App_reachable a -> in_session (game a) -> reachable (game a).
Proof.
  intros Hreach. induction Hreach as [a (Hcur & Hnext & _) | i a a' Hreach IH Hstep].
  - intros [H | [H | H]]; congruence.
  - pose proof (App_reachable_flow a Hreach) as Hflow. intros Hin.
    destruct i as [event | screenElapsed gameElapsed]; cbn [App_step] in Hstep.
    + injection Hstep as <-.
      assert (Hflat : game (App_processEvents event a)
                      = processEvents (keyEvent event) (game a) ->
                      reachable (game (App_processEvents event a))).
      { intros Hg. rewrite Hg in *.
        apply (reachable_step (Poll (keyEvent event)) (game a)); [| reflexivity].
        apply IH, (in_session_processEvents _ _ Hin). }
      destruct (currentTransition (game a)) eqn:Htr;
        [| apply Hflat, App_processEvents_game; left; rewrite Htr; discriminate ..].
      destruct (currentStateID (game a)) eqn:Hcur;
        try (apply Hflat, App_processEvents_game; right; rewrite Hcur; split; discriminate).
      * exfalso. revert Hin. unfold App_processEvents. rewrite Htr, Hcur. cbn [game].
        destruct Hflow as [Hfl _]. rewrite Htr, Hcur in Hfl.
        assert (Hout : ~ in_session (game a)).
        { unfold in_session. rewrite Hcur. intros [H | [H | H]]; try discriminate H.
          destruct Hfl as [_ [Hn | [_ Hn]]]; congruence. }
        unfold MenuScreen_handleEvent.
        destruct event as [u | code |]; cbn [keyEvent]; try exact Hout.
        destruct code; try exact Hout.
        unfold in_session. rewrite currentStateID_changeScreen, Hcur.
        unfold changeScreen. rewrite Htr, Hcur. cbn.
        intros [H | [H | H]]; discriminate H.
      * revert Hin. unfold App_processEvents. rewrite Htr, Hcur.
        destruct Hflow as [Hfl _]. rewrite Htr, Hcur in Hfl.
        assert (Hout : ~ in_session (game a)).
        { unfold in_session. rewrite Hcur. intros [H | [H | H]]; try discriminate H.
          destruct Hfl as [_ [Hn | [Hn _]]]; congruence. }
        unfold NameInputScreen_handleEvent.
        destruct (negb (isActive (nameInputScreen a))); [intros H; destruct (Hout H) |].
        destruct event as [u | code |]; try (intros H; destruct (Hout H)).
        destruct code; try (intros H; destruct (Hout H)).
        -- destruct (negb (String.eqb (playerNameRef (nameInputScreen a)) ""));
             [| intros H; destruct (Hout H)].
           intros _. cbn [game]. apply reachable_start; assumption.
        -- cbn [game]. unfold in_session. rewrite currentStateID_changeScreen, Hcur.
           unfold changeScreen. rewrite Htr, Hcur. cbn.
           intros [H | [H | H]]; discriminate H.
    + pose proof (App_update_game _ _ _ _ Hstep) as Hflat.
      apply (reachable_step (Update screenElapsed gameElapsed) (game a)); [| exact Hflat].
      apply IH, (in_session_Game_update _ _ _ _ Hflow Hflat Hin).
Qed.

(** X15: the sessions of the game are the sessions of [reachable].  From
    the construction of the game on, through the menu, the name input
    and any number of sessions, whenever the gameplay or the game-over
    screen is current or the gameplay is about to be, the state of the
    game is one [reachable] holds of: it starts with [startGameplay]
    called by the name-input screen and goes on by events and updates. *)
Theorem sessions_are_reachable (a : App) :
  App_reachable a -> in_session (game a) -> reachable (game a).
Proof. apply sessions_are_reachable_lemma. Qed.

Lemma sessions_are_reachable_witness :
  reachable (game (app_after enter_as_Al)) /\
  Player.name (playerLogic (game (app_after enter_as_Al))) = "Al".
Proof.
  split; [| vm_compute; reflexivity].
  apply (sessions_are_reachable _ (app_after_reachable enter_as_Al)).
  left. vm_compute. reflexivity.
Defined.

Lemma player_name_typed_witness :
  currentStateID (game (app_after enter_as_Al)) = GameStateID.GAMEPLAY /\
  name_ok (Player.name (playerLogic (game (app_after enter_as_Al)))).
Proof.
  assert (Hcur : currentStateID (game (app_after enter_as_Al)) = GameStateID.GAMEPLAY)
    by (vm_compute; reflexivity).
  split; [exact Hcur |].
  exact (proj1 (proj2 (player_name_valid _ (app_after_reachable enter_as_Al)) Hcur)).
Defined.

(* ================================================================= *)
(** * The dungeon all along a session *)

Lemma startRooms_length : length startRooms = 9%nat.
Proof. reflexivity. Qed.

Lemma shape_start (k : nat) (r0 : Room.t) : startRooms !! k = Some r0 -> shape k r0.
Proof.
  intros H.
  do 9 (destruct k as [| k];
        [vm_compute in H; injection H as <-;
         split; [lia | reflexivity | reflexivity
                | cbn; first [discriminate | reflexivity]
                | cbn; intros e He; first [discriminate He | injection He as <-];
                  unfold startEntities; auto 10
                | split; [intros Hn; first [discriminate Hn | reflexivity]
                         | intros Hk; first [discriminate Hk | reflexivity]]] |]).
  vm_compute in H. discriminate H.
Qed.

Lemma shape_le (k : nat) (r0 r : Room.t) : shape k r0 -> room_le r0 r -> shape k r.
Proof.
  intros [Hi Hn Hf Hc He Hname] [Lname Lnext Lfinal _ Lentity Lchoice].
  split.
  - exact Hi.
  - congruence.
  - congruence.
  - intros H. apply Hc. destruct Lchoice as [<- | Hfalse]; [exact H | congruence].
  - intros e H. apply He. destruct Lentity as [<- | Hnone]; [exact H | congruence].
  - rewrite Lname. exact Hname.
Qed.

Lemma shape_of (l : list Room.t) (k : nat) (r : Room.t) :
  rooms_le startRooms l -> l !! k = Some r -> shape k r.
Proof.
  intros Hle Hr. destruct (Forall2_lookup_r _ _ _ _ _ Hle Hr) as (r0 & Hr0 & Hle0).
  eapply shape_le; [apply shape_start, Hr0 | exact Hle0].
Qed.

(** An entity of a session is an enemy, or the sword in its chamber. *)
Lemma shape_entity_kind k r e :
  shape k r -> Room.entity r = Some e ->
  is_Enemy e = true /\ is_Weapon e = false \/
  is_Enemy e = false /\ is_Weapon e = true /\ String.eqb (Room.name r) SWORD_ROOM = true.
Proof.
  intros Hs He. pose proof (shape_entity _ _ Hs e He) as Hin.
  unfold startEntities in Hin. simpl in Hin.
  repeat destruct Hin as [Hin | Hin]; try contradiction;
    injection Hin as Hk <-; try (left; split; reflexivity).
  right. split; [reflexivity | split; [reflexivity |]].
  apply String.eqb_eq, (shape_name _ _ Hs). symmetry. exact Hk.
Qed.

(** The final door holds nothing and offers no choice. *)
Lemma shape_final_door k r :
  shape k r -> Room.isFinalDoor r = true -> stateOf r = EXPLORING.
Proof.
  intros Hs Hf. rewrite (shape_final _ _ Hs) in Hf. apply Nat.eqb_eq in Hf. subst k.
  unfold stateOf.
  destruct (Room.entity r) as [e |] eqn:He.
  - pose proof (shape_entity _ _ Hs e He) as Hin. unfold startEntities in Hin. simpl in Hin.
    repeat destruct Hin as [Hin | Hin]; try contradiction; discriminate Hin.
  - destruct (Room.isChoiceRoom r) eqn:Hc; [| reflexivity].
    pose proof (shape_choice _ _ Hs Hc). discriminate.
Qed.

Lemma stateOf_not_MESSAGE r : stateOf r <> MESSAGE.
Proof.
  unfold stateOf. destruct (Room.entity r) as [e |];
    [destruct (is_Enemy e) | destruct (Room.isChoiceRoom r)]; discriminate.
Qed.

(** ** What the parts of the gameplay screen do to the core *)

Lemma core_addAction action g : core (addAction action g) = core g.
Proof. destruct (addAction_fields action g) as [log ->]. reflexivity. Qed.

Lemma core_changeScreen s g : core (changeScreen s g) = core g.
Proof.
  unfold changeScreen. destruct (currentTransition g); try reflexivity.
  destruct (negb _); reflexivity.
Qed.

Lemma core_triggerGameOver why g : core (triggerGameOver why g) = core g.
Proof. unfold triggerGameOver. rewrite core_changeScreen. reflexivity. Qed.

Lemma core_fields g g' :
  core g' = core g ->
  dungeonLogic g' = dungeonLogic g /\ currentState g' = currentState g /\
  onTransitionComplete g' = onTransitionComplete g.
Proof. unfold core. intros [= H1 H2 H3]. auto. Qed.

Lemma core_derived g g' :
  core g' = core g ->
  roomsOf g' = roomsOf g /\ playerLogic g' = playerLogic g /\
  currentRoomObj g' = currentRoomObj g /\ room_here g' = room_here g /\
  inSwordRoomWithSword g' = inSwordRoomWithSword g.
Proof.
  intros H. destruct (core_fields _ _ H) as (Hd & _ & _).
  unfold roomsOf, playerLogic, room_here, inSwordRoomWithSword, currentRoomObj.
  rewrite Hd. auto.
Qed.

Lemma at_position_core g g' k b : core g' = core g -> at_position g k b -> at_position g' k b.
Proof.
  intros H. destruct (core_fields _ _ H) as (Hd & _ & _).
  destruct (core_derived _ _ H) as (Hr & Hp & _).
  unfold at_position. rewrite Hd, Hr, Hp. auto.
Qed.

Lemma pos_inv_core g g' : core g' = core g -> pos_inv g -> pos_inv g'.
Proof.
  intros H [H1 H2 (k & b & H3)].
  destruct (core_derived _ _ H) as (Hr & Hp & _).
  split; [rewrite Hr; exact H1 | rewrite Hp; exact H2 |].
  exists k, b. apply (at_position_core g); assumption.
Qed.

Lemma pending_ok_core g g' : core g' = core g -> pending_ok g -> pending_ok g'.
Proof.
  intros H Hp. destruct (core_fields _ _ H) as (Hd & Hs & Hc).
  destruct (core_derived _ _ H) as (_ & Hpl & _ & _ & Hsw).
  unfold pending_ok. rewrite Hd, Hs, Hc, Hpl, Hsw. exact Hp.
Qed.

Lemma nav_inv_core g g' : core g' = core g -> nav_inv g -> nav_inv g'.
Proof.
  intros H [H1 H2 H3]. destruct (core_fields _ _ H) as (_ & Hs & _).
  destruct (core_derived _ _ H) as (_ & _ & _ & Hh & _).
  split; [apply (pos_inv_core g); assumption | rewrite Hs, Hh; exact H2
         | apply (pending_ok_core g); assumption].
Qed.

(** ** The invariant is kept *)

Lemma pos_inv_dungeon g g' : dungeonLogic g' = dungeonLogic g -> pos_inv g -> pos_inv g'.
Proof.
  intros Hd [H1 H2 (k & b & H3)].
  split; [| | exists k, b]; unfold at_position, roomsOf, playerLogic in *;
    rewrite Hd; assumption.
Qed.

(** The room under the cursor. *)
Lemma here_lookup g k b :
  rooms_le startRooms (roomsOf g) -> at_position g k b ->
  exists r, roomsOf g !! k = Some r /\ currentRoomObj g = Some r /\
            room_here g = r /\ shape k r.
Proof.
  intros Hle (Hcur & Hk & _).
  assert (Hlen : length (roomsOf g) = 9%nat)
    by (rewrite <- (Forall2_length _ _ _ Hle); reflexivity).
  destruct (lookup_lt_is_Some_2 (roomsOf g) k) as [r Hr]; [lia |].
  assert (Hobj : currentRoomObj g = Some r)
    by (rewrite (currentRoomObj_lookup g k Hcur); exact Hr).
  exists r. split; [exact Hr |]. split; [exact Hobj |].
  split; [unfold room_here; rewrite Hobj; reflexivity |].
  eapply shape_of; eassumption.
Qed.

Lemma stateOf_le k r r' :
  shape k r -> room_le r r' -> stateOf r = EXPLORING -> stateOf r' = EXPLORING.
Proof.
  intros Hs [_ _ _ _ Lentity Lchoice]. unfold stateOf.
  destruct (Room.entity r) as [e |] eqn:He.
  - destruct (shape_entity_kind _ _ _ Hs He) as [[-> _] | (Hen & _ & Hname)];
      [discriminate |].
    rewrite Hen. intros _.
    assert (Hc : Room.isChoiceRoom r = false).
    { destruct (Room.isChoiceRoom r) eqn:Hc; [| reflexivity].
      pose proof (shape_choice _ _ Hs Hc) as H5.
      apply String.eqb_eq, (shape_name _ _ Hs) in Hname. congruence. }
    destruct Lentity as [-> | ->]; [rewrite Hen; reflexivity |].
    destruct Lchoice as [-> | ->]; [rewrite Hc |]; reflexivity.
  - destruct Lentity as [-> | ->];
      (destruct (Room.isChoiceRoom r) eqn:Hc; [discriminate |]);
      intros _; destruct Lchoice as [-> | ->]; reflexivity.
Qed.

(** A step that keeps the cursor, the tracker and the moves. *)
Lemma pos_inv_frame g g' : frame g g' -> pos_inv g -> pos_inv g'.
Proof.
  intros (Hm & _ & Hr & _ & Hcur & Htr) [H1 H2 (k & b & H3)].
  split; [etransitivity; eassumption | rewrite Hm; exact H2 |].
  exists k, b. destruct H3 as (Hc & Hk & Htop & Hsize & Hb & Hmoves & Hbehind).
  unfold at_position. rewrite Hcur, Htr, Hm.
  repeat (split; [assumption |]).
  intros i r' Hi Hr'.
  destruct (Forall2_lookup_r _ _ _ _ _ Hr Hr') as (r & Hri & Hle).
  eapply stateOf_le; [eapply shape_of; eassumption | exact Hle |].
  eapply Hbehind; eassumption.
Qed.

Lemma room_here_frame g g' k b :
  rooms_le startRooms (roomsOf g) -> at_position g k b -> frame g g' ->
  room_le (room_here g) (room_here g').
Proof.
  intros Hle Hpos Hframe.
  destruct (here_lookup g k b Hle Hpos) as (r & Hr & _ & -> & _).
  pose proof Hframe as (_ & _ & Hrooms & _ & Hcur & _).
  destruct (Forall2_lookup_l _ _ _ _ _ Hrooms Hr) as (r' & Hr' & Hle').
  unfold room_here. destruct Hpos as (Hc & _).
  rewrite (currentRoomObj_lookup g' k) by (unfold Dungeon.getCurrentRoom; congruence).
  rewrite Hr'. exact Hle'.
Qed.

Lemma rev_seq_S (k : nat) : rev (seq 0 (S k)) = k :: rev (seq 0 k).
Proof. rewrite seq_S, rev_app_distr. reflexivity. Qed.

Lemma core_startGameplay playerName g :
  core (startGameplay playerName g) =
  (setupDungeon (Dungeon.new (Player.new playerName 100 10)), EXPLORING, None).
Proof.
  unfold startGameplay, changeScreen. cbn [currentTransition currentStateID].
  destruct (currentTransition g); [destruct (negb _) |..]; reflexivity.
Qed.

Lemma core_fields' g d s c :
  core g = (d, s, c) ->
  dungeonLogic g = d /\ currentState g = s /\ onTransitionComplete g = c.
Proof. unfold core. intros [= H1 H2 H3]. auto. Qed.

Lemma nav_inv_start playerName g : nav_inv (startGameplay playerName g).
Proof.
  pose proof (core_startGameplay playerName g) as Hcore.
  apply core_fields' in Hcore.
  destruct Hcore as (Hd & Hs & Hc).
  assert (Hdungeon : setupDungeon (Dungeon.new (Player.new playerName 100 10)) =
                     Dungeon.mk startRooms (Some 0%nat) (Some 0%nat)
                       (Player.new playerName 100 10) Stack.empty)
    by (vm_compute; reflexivity).
  rewrite Hdungeon in Hd.
  assert (Hpos : at_position (startGameplay playerName g) 0 0).
  { unfold at_position, roomsOf, playerLogic. rewrite Hd.
    cbn [Dungeon.currentRoom Dungeon.path_tracker Dungeon.player Dungeon.rooms
         Stack.topNode Stack.size Stack.count Stack.empty Player.new Player.moves].
    repeat split; try reflexivity; try lia. }
  assert (Hrooms : roomsOf (startGameplay playerName g) = startRooms)
    by (unfold roomsOf; rewrite Hd; reflexivity).
  assert (Hle : rooms_le startRooms (roomsOf (startGameplay playerName g)))
    by (rewrite Hrooms; reflexivity).
  split.
  - split; [exact Hle | | exists 0%nat, 0; exact Hpos].
    unfold playerLogic. rewrite Hd. cbn. lia.
  - rewrite Hs.
    destruct (here_lookup _ _ _ Hle Hpos) as (r & Hr & _ & -> & _).
    rewrite Hrooms in Hr. vm_compute in Hr. injection Hr as <-. reflexivity.
  - intros cb Hcb. congruence.
Qed.

Lemma nav_inv_startTransition cb g :
  nav_inv g ->
  currentState g = stateFor cb ->
  (is_navigation (Some cb) = true -> 1 <= Player.moves (playerLogic g)) ->
  (forall room, cb = call_collectSword room ->
     room = Dungeon.currentRoom (dungeonLogic g) /\ inSwordRoomWithSword g = true) ->
  nav_inv (startTransition cb g).
Proof.
  intros [H1 H2 H3] Hst Hnav Hsword. unfold startTransition.
  destruct (transitionState g); try (split; assumption).
  split.
  - apply (pos_inv_dungeon g); [reflexivity | exact H1].
  - exact H2.
  - intros cb' [= <-]. split; [exact Hst |]. split; [exact Hnav | exact Hsword].
Qed.

Lemma nav_inv_handleEvent event g : nav_inv g -> nav_inv (handleEvent event g).
Proof.
  intros Hinv. unfold handleEvent.
  destruct event as [code |]; [| exact Hinv].
  destruct (transitionState g); try exact Hinv.
  destruct (currentState g) eqn:Hst, code; try exact Hinv.
  - destruct (Z.leb_spec (Player.getMoves (playerLogic g)) 0) as [Hle | Hgt].
    + apply (nav_inv_core g); [apply core_triggerGameOver | exact Hinv].
    + destruct (Dungeon.canMoveForward _); [| exact Hinv].
      apply nav_inv_startTransition; try assumption.
      * intros _. unfold Player.getMoves in Hgt. lia.
      * intros room Hroom. discriminate Hroom.
  - destruct (Z.leb_spec (Player.getMoves (playerLogic g)) 0) as [Hle | Hgt].
    + apply (nav_inv_core g); [apply core_triggerGameOver | exact Hinv].
    + destruct (Dungeon.canMoveBack _); [| exact Hinv].
      apply nav_inv_startTransition; try assumption.
      * intros _. unfold Player.getMoves in Hgt. lia.
      * intros room Hroom. discriminate Hroom.
  - destruct (inSwordRoomWithSword g) eqn:Hsword; [| exact Hinv].
    apply nav_inv_startTransition; try assumption.
    + discriminate.
    + intros room [= <-]. split; [reflexivity | exact Hsword].
  - destruct (negb _); [| exact Hinv].
    apply (nav_inv_core g); [apply core_changeScreen | exact Hinv].
  - apply nav_inv_startTransition; try assumption; [discriminate |].
    intros room Hroom. discriminate Hroom.
  - apply (nav_inv_core g); [| exact Hinv].
    rewrite core_triggerGameOver. apply core_addAction.
  - apply nav_inv_startTransition; try assumption; [discriminate |].
    intros room Hroom. discriminate Hroom.
  - apply nav_inv_startTransition; try assumption; [discriminate |].
    intros room Hroom. discriminate Hroom.
  - apply nav_inv_startTransition; try assumption; [discriminate |].
    intros room Hroom. discriminate Hroom.
  - apply nav_inv_startTransition; try assumption; [discriminate |].
    intros room Hroom. discriminate Hroom.
  - apply nav_inv_startTransition; try assumption; [discriminate |].
    intros room Hroom. discriminate Hroom.
Qed.

(** [checkRoomState] in a session: nothing but the interaction state
    changes, and that is derived from the room, the final door apart. *)
Lemma checkRoomState_core g k r :
  Dungeon.getCurrentRoom (dungeonLogic g) = Some k ->
  roomsOf g !! k = Some r ->
  shape k r ->
  core (checkRoomState g) =
  (dungeonLogic g,
   if Room.isFinalDoor r then currentState g else stateOf r,
   onTransitionComplete g).
Proof.
  intros Hk Hr Hs. unfold checkRoomState.
  rewrite (currentRoomObj_lookup g k Hk), Hr. cbv zeta.
  set (g1 := if m_isNewRoomEntry g then _ else g).
  assert (Hcore : core g1 = core g).
  { unfold g1. destruct (m_isNewRoomEntry g); [| reflexivity].
    change (core (set_m_isNewRoomEntry false (addAction ("Entered The " +:+ Room.name r) g)))
      with (core (addAction ("Entered The " +:+ Room.name r) g)).
    apply core_addAction. }
  destruct (core_fields _ _ Hcore) as (Hd & Hst & Hcb).
  destruct (Room.isFinalDoor r).
  - repeat (match goal with |- context [if ?b then _ else _] => destruct b end);
      rewrite core_triggerGameOver; exact Hcore.
  - unfold stateOf. destruct (Room.entity r) as [e |] eqn:He.
    + destruct (shape_entity_kind _ _ _ Hs He) as [[Hen Hw] | (Hen & Hw & Hname)];
        rewrite Hen, Hw; [cbn [andb] | rewrite Hname; cbn [andb]];
        unfold core; cbn [set_currentState dungeonLogic currentState onTransitionComplete];
        rewrite Hd, Hcb; reflexivity.
    + destruct (Room.isChoiceRoom r);
        unfold core; cbn [set_currentState dungeonLogic currentState onTransitionComplete];
        rewrite Hd, Hcb; reflexivity.
Qed.

Lemma nav_inv_checkRoomState g : pre_inv g -> nav_inv (checkRoomState g).
Proof.
  intros [Hpos Hfinal Hpending].
  pose proof Hpos as [Hle _ (k & b & Hat)].
  destruct (here_lookup g k b Hle Hat) as (r & Hr & Hobj & Hhere & Hs).
  pose proof (checkRoomState_core g k r (proj1 Hat) Hr Hs) as Hcore.
  destruct (core_fields' _ _ _ _ Hcore) as (Hd & Hst & Hcb).
  assert (Hhere' : room_here (checkRoomState g) = r).
  { unfold room_here, currentRoomObj. rewrite Hd.
    fold (currentRoomObj g). rewrite Hobj. reflexivity. }
  split.
  - apply (pos_inv_dungeon g); assumption.
  - rewrite Hst, Hhere'. rewrite Hhere in Hfinal.
    destruct (Room.isFinalDoor r) eqn:Hf; [| reflexivity].
    rewrite (Hfinal eq_refl). symmetry. eapply shape_final_door; eassumption.
  - intros cb Hsome. congruence.
Qed.

(** In a state of the invariant [checkRoomState] changes nothing of the
    core. *)
Lemma checkRoomState_idle g g' :
  core g' = core g -> nav_inv g -> core (checkRoomState g') = core g.
Proof.
  intros Hcore Hinv. apply (nav_inv_core g g' Hcore) in Hinv.
  destruct Hinv as [Hpos Hstate _].
  pose proof Hpos as [Hle _ (k & b & Hat)].
  destruct (here_lookup g' k b Hle Hat) as (r & Hr & Hobj & Hhere & Hs).
  rewrite (checkRoomState_core g' k r (proj1 Hat) Hr Hs), <- Hcore.
  unfold core. rewrite Hhere in Hstate. rewrite <- Hstate.
  destruct (Room.isFinalDoor r); reflexivity.
Qed.

Lemma pos_inv_moveForward g :
  nav_inv g -> onTransitionComplete g = Some call_moveForward ->
  pos_inv (set_dungeonLogic (Dungeon.moveForward (dungeonLogic g)) g).
Proof.
  intros [Hpos Hstate Hpending] Hcb.
  destruct (Hpending _ Hcb) as (Hst & Hnav & _). specialize (Hnav eq_refl).
  pose proof Hpos as [Hle Hmoves (k & b & Hat)].
  destruct (here_lookup g k b Hle Hat) as (r & Hr & Hobj & Hhere & Hs).
  pose proof Hat as (Hcur & Hk & Htop & Hsize & Hb & Hm & Hbehind).
  assert (Hnext : Dungeon.next_of (dungeonLogic g) (Dungeon.currentRoom (dungeonLogic g))
                  = if (k <? 8)%nat then Some (S k) else None).
  { unfold Dungeon.next_of. fold (Dungeon.getCurrentRoom (dungeonLogic g)).
    fold (currentRoomObj g). rewrite Hobj. apply (shape_next _ _ Hs). }
  destruct (Nat.ltb_spec k 8) as [Hlt | Hge].
  - rewrite (moveForward_successor _ _ Hnext).
    split; unfold at_position, roomsOf, playerLogic;
      cbn [set_dungeonLogic dungeonLogic Dungeon.rooms Dungeon.player
           Dungeon.currentRoom Dungeon.path_tracker].
    + exact Hle.
    + unfold Player.useMove, Player.set_moves. cbn [Player.moves].
      unfold playerLogic in Hnav. lia.
    + exists (S k), b.
      unfold Stack.push, Stack.size. cbn [Stack.topNode Stack.count].
      split; [reflexivity |]. split; [lia |].
      split; [rewrite Hcur, Htop, rev_seq_S; reflexivity |].
      split; [unfold Stack.size in Hsize; rewrite unsigned_incr_small; lia |].
      split; [exact Hb |].
      split; [unfold Player.useMove, Player.set_moves; cbn [Player.moves];
              unfold playerLogic in Hm; lia |].
      intros i ri Hi Hri. destruct (Nat.eq_dec i k) as [-> | Hne].
      * unfold roomsOf in Hr. assert (ri = r) by congruence. subst ri.
        rewrite <- Hhere, <- Hstate, Hst. reflexivity.
      * apply (Hbehind i ri); [lia | exact Hri].
  - rewrite (moveForward_stuck _ Hnext).
    apply (pos_inv_dungeon g); [reflexivity | exact Hpos].
Qed.

Lemma pos_inv_moveBack g d :
  nav_inv g -> onTransitionComplete g = Some call_moveBack ->
  Dungeon.moveBack (dungeonLogic g) = Ok d ->
  pos_inv (set_dungeonLogic d g).
Proof.
  intros [Hpos Hstate Hpending] Hcb Hback.
  destruct (Hpending _ Hcb) as (Hst & Hnav & _). specialize (Hnav eq_refl).
  pose proof Hpos as [Hle Hmoves (k & b & Hat)].
  pose proof Hat as (Hcur & Hk & Htop & Hsize & Hb & Hm & Hbehind).
  destruct k as [| k].
  - rewrite (moveBack_stuck _ Htop) in Hback. injection Hback as <-.
    apply (pos_inv_dungeon g); [reflexivity | exact Hpos].
  - rewrite rev_seq_S in Htop. cbn [map] in Htop.
    rewrite (moveBack_previous _ _ _ Htop) in Hback. injection Hback as <-.
    split; unfold at_position, roomsOf, playerLogic;
      cbn [set_dungeonLogic dungeonLogic Dungeon.rooms Dungeon.player
           Dungeon.currentRoom Dungeon.path_tracker].
    + exact Hle.
    + unfold Player.useMove, Player.set_moves. cbn [Player.moves].
      unfold playerLogic in Hnav. lia.
    + exists k, (b + 1).
      unfold Stack.size in *. cbn [Stack.topNode Stack.count].
      split; [reflexivity |]. split; [lia |].
      split; [reflexivity |].
      split; [rewrite unsigned_decr_small; lia |].
      split; [lia |].
      split; [unfold Player.useMove, Player.set_moves; cbn [Player.moves];
              unfold playerLogic in Hm; lia |].
      intros i ri Hi Hri. apply (Hbehind i ri); [lia | exact Hri].
Qed.

(** The final door is no place for a fight or for a choice. *)
Lemma final_door_state g g' k b :
  rooms_le startRooms (roomsOf g) -> at_position g k b -> frame g g' ->
  currentState g = stateOf (room_here g) ->
  Room.isFinalDoor (room_here g') = true ->
  currentState g = EXPLORING.
Proof.
  intros Hle Hat Hframe Hstate Hfinal.
  pose proof (room_here_frame g g' k b Hle Hat Hframe) as Hroom.
  rewrite (le_isFinalDoor _ _ Hroom) in Hfinal.
  destruct (here_lookup g k b Hle Hat) as (r & _ & _ & Hhere & Hs).
  rewrite Hstate, Hhere in *. eapply shape_final_door; eassumption.
Qed.

Lemma frame_collectSword g room :
  frame g
    (set_currentState EXPLORING
       (update_room room
          (fun r =>
             Room.set_entity None
               (Room.set_description
                  "You grasp the sword. A surge of ultimate power floods your veins." r))
          (addAction "You collected the Sword."
             (set_playerLogic (Player.collectItem "Sword" (playerLogic g)) g)))).
Proof. frame_step. Qed.

Lemma pre_inv_callback g cb g1 :
  nav_inv g -> onTransitionComplete g = Some cb -> runCallback cb g = Ok g1 ->
  pre_inv (set_onTransitionComplete None g1).
Proof.
  intros Hinv Hcb Hrun. pose proof Hinv as [Hpos Hstate Hpending].
  destruct (Hpending _ Hcb) as (Hst & _ & _).
  pose proof Hpos as [Hle _ (k & b & Hat)].
  assert (Hframe : forall g2,
            frame g g2 -> (Room.isFinalDoor (room_here g2) = true ->
                           currentState g2 = EXPLORING) ->
            pre_inv (set_onTransitionComplete None g2)).
  { intros g2 Hf Hfin. split; [| exact Hfin | reflexivity].
    apply (pos_inv_dungeon g2); [reflexivity |].
    apply (pos_inv_frame g); assumption. }
  destruct cb; cbn [runCallback] in Hrun; cbv zeta in Hrun.
  - injection Hrun as <-. split; [| | reflexivity].
    + apply (pos_inv_dungeon (set_dungeonLogic (Dungeon.moveForward (dungeonLogic g)) g));
        [reflexivity |].
      apply pos_inv_moveForward; assumption.
    + intros _. exact Hst.
  - cbn [set_m_isNewRoomEntry dungeonLogic] in Hrun.
    destruct (Dungeon.moveBack (dungeonLogic g)) as [d |] eqn:Hback;
      cbn [rbind] in Hrun; [| discriminate].
    injection Hrun as <-. split; [| | reflexivity].
    + apply (pos_inv_dungeon (set_dungeonLogic d g)); [reflexivity |].
      eapply pos_inv_moveBack; eassumption.
    + intros _. exact Hst.
  - injection Hrun as <-. apply Hframe; [apply frame_collectSword |].
    intros _. reflexivity.
  - injection Hrun as <-.
    assert (Hf : frame g (handleCombat g)) by (apply frame_handleCombat, frame_refl).
    apply Hframe; [exact Hf |]. intros Hfinal.
    pose proof (final_door_state g _ k b Hle Hat Hf Hstate Hfinal) as Hexp.
    rewrite Hexp in Hst. discriminate Hst.
  - injection Hrun as <-.
    assert (Hf : frame g (handleChoice choice g)) by (apply frame_handleChoice, frame_refl).
    apply Hframe; [exact Hf |]. intros Hfinal.
    pose proof (final_door_state g _ k b Hle Hat Hf Hstate Hfinal) as Hexp.
    rewrite Hexp in Hst. discriminate Hst.
  - exfalso. rewrite Hstate in Hst. exact (stateOf_not_MESSAGE _ Hst).
Qed.

Lemma nav_inv_GamePlayScreen_update elapsed g g' :
  nav_inv g -> GamePlayScreen_update elapsed g = Ok g' -> nav_inv g'.
Proof.
  intros Hinv. unfold GamePlayScreen_update.
  destruct (transitionState g); destruct elapsed;
    try (intros [= <-]; exact Hinv);
    try (intros [= <-]; apply (nav_inv_core g); [reflexivity | exact Hinv]).
  unfold completeTransition.
  assert (Hfinish : forall g1, pre_inv g1 ->
            (if Player.getMoves (playerLogic g1) <? 0
             then Ok (triggerGameOver "You have run out of moves." g1)
             else Ok (set_transitionState GpTransitionState.FADING_IN (checkRoomState g1)))
            = Ok g' -> nav_inv g').
  { intros g1 Hpre.
    destruct (Z.ltb_spec (Player.getMoves (playerLogic g1)) 0) as [Hneg | _].
    - destruct Hpre as [[_ Hmoves _] _ _]. unfold Player.getMoves in Hneg. lia.
    - intros [= <-].
      apply (nav_inv_core (checkRoomState g1)); [reflexivity |].
      apply nav_inv_checkRoomState, Hpre. }
  destruct (onTransitionComplete g) as [cb |] eqn:Hcb; cbn [rbind].
  - destruct (runCallback cb g) as [g1 |] eqn:Hrun; cbn [rbind]; [| discriminate].
    apply Hfinish. eapply pre_inv_callback; eassumption.
  - apply Hfinish. destruct Hinv as [Hpos Hstate _].
    split; [exact Hpos | | exact Hcb].
    intros Hfinal. pose proof Hpos as [Hle _ (k & b & Hat)].
    apply (final_door_state g g k b Hle Hat (frame_refl g) Hstate Hfinal).
Qed.

Lemma nav_inv_handleScreenTransition elapsed g :
  nav_inv g -> nav_inv (handleScreenTransition elapsed g).
Proof.
  intros Hinv. unfold handleScreenTransition.
  destruct (currentTransition g); [exact Hinv | |]; destruct elapsed; try exact Hinv;
    [| apply (nav_inv_core g); [reflexivity | exact Hinv]].
  cbv zeta. cbn [currentStateID set_currentStateID].
  destruct (nextStateID g);
    try (apply (nav_inv_core g); [reflexivity | exact Hinv]).
  apply (nav_inv_core g); [| exact Hinv].
  change (core (checkRoomState
                  (addAction "Your adventure begins..."
                     (set_m_isNewRoomEntry true
                        (set_actionsLog [] (set_currentStateID GameStateID.GAMEPLAY g)))))
          = core g).
  apply checkRoomState_idle; [| exact Hinv].
  rewrite core_addAction. reflexivity.
Qed.

Lemma nav_inv_step i g g' : nav_inv g -> step i g = Ok g' -> nav_inv g'.
Proof.
  intros Hinv. destruct i as [event | screenElapsed gameElapsed]; cbn [step].
  - intros [= <-]. unfold processEvents.
    destruct (currentTransition g); try exact Hinv.
    destruct (currentStateID g); try exact Hinv.
    + apply nav_inv_handleEvent, Hinv.
    + destruct (gameOverScreen g); [| exact Hinv].
      unfold GameOverScreen_handleEvent. destruct event as [[] |]; try exact Hinv.
      apply (nav_inv_core g); [apply core_changeScreen | exact Hinv].
  - unfold Game_update.
    destruct (match currentTransition g with
              | TransitionState.NONE => _ | _ => _ end) as [g1 |] eqn:Hscr;
      cbn [rbind]; [| discriminate].
    intros [= <-]. apply nav_inv_handleScreenTransition.
    destruct (currentTransition g); try (injection Hscr as <-; exact Hinv).
    destruct (currentStateID g); try (injection Hscr as <-; exact Hinv).
    eapply nav_inv_GamePlayScreen_update; eassumption.
Qed.

Lemma reachable_nav g : reachable g -> nav_inv g.
Proof.
  induction 1 as [playerName g0 _ _ | i g g' _ IH Hstep].
  - apply nav_inv_start.
  - eapply nav_inv_step; eassumption.
Qed.

(** X16: all along a session the path tracker holds exactly the rooms
    before the current one, the nearest on top, and its size is the
    index of the current room; the rooms are chained in the order of
    their indices, the last of the nine having no successor.  So
    Backtrack always leads to the room just before the present one. *)
Theorem tracker_is_path_behind (g : Game) :
  reachable g ->
  exists k : nat,
    Dungeon.currentRoom (dungeonLogic g) = Some k /\
    (k < 9)%nat /\
    Stack.topNode (Dungeon.path_tracker (dungeonLogic g)) = map Some (rev (seq 0 k)) /\
    Zmod.unsigned (Stack.size (Dungeon.path_tracker (dungeonLogic g))) = Z.of_nat k /\
    forall (i : nat) (r : Room.t),
      roomsOf g !! i = Some r ->
      Room.next r = if (i <? 8)%nat then Some (S i) else None.
Proof.
  intros Hreach. destruct (reachable_nav g Hreach) as [[Hle _ (k & b & Hat)] _ _].
  destruct Hat as (Hcur & Hk & Htop & Hsize & _).
  exists k. repeat (split; [assumption |]).
  intros i r Hr. apply (shape_next _ _ (shape_of _ _ _ Hle Hr)).
Qed.

Lemma tracker_is_path_behind_witness :
  Stack.topNode (Dungeon.path_tracker (dungeonLogic (state_after to_sword_room)))
  = [Some 3; Some 2; Some 1; Some 0]%nat.
Proof.
  destruct (tracker_is_path_behind _ (state_after_reachable to_sword_room))
    as (k & Hk & _ & Htop & _).
  vm_compute in Hk. injection Hk as <-. exact Htop.
Defined.

(** X17: the moves account for the way: a player in room [k] of the
    chain has the 10 moves of the start less [k], less 2 for each detour
    made, a step back and the step forward again.  At the final door,
    room 8, that leaves 2 moves or none. *)
Theorem moves_account_for_the_way (g : Game) :
  reachable g ->
  exists (k : nat) (b : Z),
    Dungeon.currentRoom (dungeonLogic g) = Some k /\
    0 <= b /\
    Player.moves (playerLogic g) = 10 - Z.of_nat k - 2 * b /\
    (k = 8%nat -> Player.moves (playerLogic g) = 2 \/ Player.moves (playerLogic g) = 0).
Proof.
  intros Hreach. destruct (reachable_nav g Hreach) as [[_ Hmoves (k & b & Hat)] _ _].
  destruct Hat as (Hcur & _ & _ & _ & Hb & Hm & _).
  exists k, b. repeat (split; [assumption |]).
  intros ->. lia.
Qed.

Lemma moves_account_for_the_way_witness :
  Player.moves (playerLogic in_monster_den) = 0 /\
  Dungeon.currentRoom (dungeonLogic in_monster_den) = Some 6%nat /\
  exists b, 0 = 10 - 6 - 2 * b.
Proof.
  assert (Hm : Player.moves (playerLogic in_monster_den) = 0) by (vm_compute; reflexivity).
  assert (Hc : Dungeon.currentRoom (dungeonLogic in_monster_den) = Some 6%nat)
    by (vm_compute; reflexivity).
  split; [exact Hm | split; [exact Hc |]].
  destruct (moves_account_for_the_way in_monster_den
              (state_after_reachable to_monster_den))
    as (k & b & Hk & _ & Hmoves & _).
  rewrite Hc in Hk. injection Hk as <-. rewrite Hm in Hmoves.
  exists b. exact Hmoves.
Defined.

(** X18: all along a session the interaction state is the one the
    present room calls for: combat exactly when the room holds an
    enemy, the choice exactly when it holds nothing and its choice is
    open, exploring otherwise.  The state [MESSAGE], which
    [handleCombat] sets after a fight that was won, never outlives the
    update that runs it, since [checkRoomState] follows in the same
    update; so [updateUI] never shows the report of a fight. *)
Theorem state_matches_room (g : Game) :
  reachable g ->
  currentState g = stateOf (room_here g) /\
  (currentState g = COMBAT <->
   exists c n damage, Room.entity (room_here g) = Some (Enemy c n damage)) /\
  (currentState g = CHOICE <->
   Room.entity (room_here g) = None /\ Room.isChoiceRoom (room_here g) = true) /\
  currentState g <> MESSAGE /\
  forall ui, interactionText (updateUI g ui) = interactionText ui.
Proof.
  intros Hreach. destruct (reachable_nav g Hreach) as [_ Hstate _].
  split; [exact Hstate |].
  assert (Hmsg : currentState g <> MESSAGE)
    by (rewrite Hstate; apply stateOf_not_MESSAGE).
  split; [| split; [| split; [exact Hmsg |]]].
  - rewrite Hstate. unfold stateOf.
    destruct (Room.entity (room_here g)) as [[c n | c n damage] |]; cbn [is_Enemy].
    + split; [discriminate | intros (c' & n' & d' & H); discriminate H].
    + split; [intros _; eauto | reflexivity].
    + split; [destruct (Room.isChoiceRoom _); discriminate
             | intros (c' & n' & d' & H); discriminate H].
  - rewrite Hstate. unfold stateOf.
    destruct (Room.entity (room_here g)) as [e |].
    + split; [destruct (is_Enemy e); discriminate | intros [H _]; discriminate H].
    + destruct (Room.isChoiceRoom (room_here g));
        (split; [intros H; first [discriminate H | auto] | intros [_ H]; first [discriminate H | auto]]).
  - intros ui. unfold updateUI.
    destruct (currentRoomObj g); [| reflexivity].
    cbn [interactionText]. destruct (currentState g); congruence.
Qed.

Lemma state_matches_room_witness :
  currentState (state_after (to_sword_room ++ press Keyboard.C ++ press Keyboard.F
                             ++ press Keyboard.Num1 ++ press Keyboard.F))
  = COMBAT /\
  currentState (state_after (to_sword_room ++ press Keyboard.C ++ press Keyboard.F
                             ++ press Keyboard.Num1 ++ press Keyboard.F
                             ++ press Keyboard.F))
  = EXPLORING.
Proof.
  split.
  - rewrite (proj1 (state_matches_room _ (state_after_reachable _))).
    vm_compute. reflexivity.
  - rewrite (proj1 (state_matches_room _ (state_after_reachable _))).
    vm_compute. reflexivity.
Defined.

(** X19: an enemy cannot be walked past, nor can the room of choice be
    left without choosing: all along a session, no room before the
    current one holds an enemy, and none that holds nothing has an open
    choice. *)
Theorem no_enemy_behind (g : Game) (k i : nat) (r : Room.t) :
  reachable g ->
  Dungeon.currentRoom (dungeonLogic g) = Some k ->
  (i < k)%nat ->
  roomsOf g !! i = Some r ->
  match Room.entity r with
  | Some e => is_Enemy e = false
  | None => Room.isChoiceRoom r = false
  end.
Proof.
  intros Hreach Hk Hi Hr.
  destruct (reachable_nav g Hreach) as [[_ _ (k' & b & Hat)] _ _].
  destruct Hat as (Hcur & _ & _ & _ & _ & _ & Hbehind).
  assert (k' = k) by congruence. subst k'.
  specialize (Hbehind i r Hi Hr). unfold stateOf in Hbehind.
  destruct (Room.entity r) as [e |];
    [destruct (is_Enemy e) | destruct (Room.isChoiceRoom r)];
    first [reflexivity | discriminate Hbehind].
Qed.

Lemma no_enemy_behind_witness :
  exists r, roomsOf in_monster_den !! 3%nat = Some r /\ Room.entity r = None.
Proof.
  assert (Hc : Dungeon.currentRoom (dungeonLogic in_monster_den) = Some 6%nat)
    by (vm_compute; reflexivity).
  destruct (roomsOf in_monster_den !! 3%nat) as [r |] eqn:Hr;
    [| vm_compute in Hr; discriminate Hr].
  exists r. split; [reflexivity |].
  pose proof (no_enemy_behind in_monster_den 6 3 r
                (state_after_reachable to_monster_den) Hc ltac:(lia) Hr) as H.
  destruct (Room.entity r) as [e |] eqn:He; [| reflexivity].
  exfalso. vm_compute in Hr. injection Hr as <-. discriminate He.
Defined.

(* ================================================================= *)
(** * Loot and health all along a session *)

Lemma dungeonLogic_addAction action g : dungeonLogic (addAction action g) = dungeonLogic g.
Proof. apply (core_fields _ _ (core_addAction action g)). Qed.

Lemma dungeonLogic_triggerGameOver why g :
  dungeonLogic (triggerGameOver why g) = dungeonLogic g.
Proof. apply (core_fields _ _ (core_triggerGameOver why g)). Qed.

Lemma rooms_but_update d k f r :
  Dungeon.rooms d !! k = Some r ->
  rooms_but (Dungeon.rooms d) (Dungeon.rooms (Dungeon.update_room (Some k) f d)) k (f r).
Proof.
  intros Hr. unfold Dungeon.update_room. rewrite Hr.
  cbn [Dungeon.set_rooms Dungeon.rooms]. split.
  - apply list_lookup_insert_eq. eapply lookup_lt_Some, Hr.
  - intros i Hne. apply list_lookup_insert_ne. congruence.
Qed.

Lemma rooms_but_again l l' l'' k r1 r2 :
  rooms_but l l' k r1 -> rooms_but l' l'' k r2 -> rooms_but l l'' k r2.
Proof.
  intros [_ H1] [H2 H3]. split; [exact H2 |].
  intros i Hne. rewrite (H3 i Hne). apply H1, Hne.
Qed.

Lemma cleared_but l l' k r' i :
  rooms_but l l' k r' ->
  cleared l' i =
  if Nat.eqb i k then match Room.entity r' with None => true | Some _ => false end
  else cleared l i.
Proof.
  intros [Hk Hother]. unfold cleared.
  destruct (Nat.eqb_spec i k) as [-> | Hne]; [rewrite Hk | rewrite (Hother i Hne)];
    reflexivity.
Qed.

Lemma choiceOpen_but l l' k r' :
  rooms_but l l' k r' ->
  choiceOpen l' = if Nat.eqb 5 k then Room.isChoiceRoom r' else choiceOpen l.
Proof.
  intros [Hk Hother]. unfold choiceOpen.
  destruct (Nat.eqb_spec 5 k) as [<- | Hne]; [rewrite Hk | rewrite (Hother 5%nat Hne)];
    reflexivity.
Qed.

(** What a fight does to the rooms: nothing if the player dies, and
    otherwise the room of the fight loses its entity. *)
Lemma handleCombat_rooms g k room c n damage :
  Dungeon.getCurrentRoom (dungeonLogic g) = Some k ->
  roomsOf g !! k = Some room ->
  Room.entity room = Some (Enemy c n damage) ->
  let p1 := fst (Player.takeDamage (effectiveDamageOf c damage (playerLogic g)) (playerLogic g)) in
  if Player.health p1 <=? 0 then roomsOf (handleCombat g) = roomsOf g
  else exists room',
    rooms_but (roomsOf g) (roomsOf (handleCombat g)) k room' /\
    Room.entity room' = None /\ Room.isChoiceRoom room' = Room.isChoiceRoom room.
Proof.
  intros Hk Hroom Hentity. unfold handleCombat.
  rewrite (currentRoomObj_lookup g k Hk), Hroom, Hentity.
  cbv zeta. norm_addAction.
  change (playerLogic (set_actionsLog log g)) with (playerLogic g).
  unfold effectiveDamageOf, Player.takeDamage.
  destruct c; cbn [is_BossEnemy fst]; try destruct (Player.hasItem "Sword" _);
    cbv beta iota zeta.
  all: combat_cases;
       [ unfold roomsOf; rewrite dungeonLogic_triggerGameOver, dungeonLogic_addAction;
         reflexivity
       | norm_addAction;
         unfold roomsOf, update_room, set_playerLogic, playerLogic;
         cbn [set_currentState set_dungeonLogic set_actionsLog set_message dungeonLogic
              Dungeon.getCurrentRoom Dungeon.set_player Dungeon.currentRoom];
         unfold Dungeon.getCurrentRoom in Hk; rewrite Hk;
         eexists; split;
         [ apply (rooms_but_update
                    (Dungeon.set_player _ (dungeonLogic g)) k _ room); exact Hroom
         | split; reflexivity ] ].
Qed.

Lemma handleChoice_rooms g k room choice :
  Dungeon.getCurrentRoom (dungeonLogic g) = Some k ->
  roomsOf g !! k = Some room ->
  Room.isChoiceRoom room = true ->
  exists room',
    rooms_but (roomsOf g) (roomsOf (handleChoice choice g)) k room' /\
    Room.entity room' = Room.entity room /\ Room.isChoiceRoom room' = false.
Proof.
  intros Hk Hroom Hopen. unfold handleChoice.
  rewrite (currentRoomObj_lookup _ _ Hk), Hroom, Hopen.
  cbn [negb]. cbv zeta. rewrite Hk.
  destruct (choice =? 1); norm_addAction;
    unfold roomsOf, update_room, set_playerLogic;
    cbn [set_currentState set_dungeonLogic set_actionsLog dungeonLogic];
    match goal with
    | |- context [Dungeon.update_room (Some k) ?f2
                    (Dungeon.update_room (Some k) ?f1 ?d0)] =>
        exists (f2 (f1 room)); split;
        [ apply (rooms_but_again (Dungeon.rooms d0)
                   (Dungeon.rooms (Dungeon.update_room (Some k) f1 d0)) _ k (f1 room));
          [ apply (rooms_but_update d0 k f1 room); exact Hroom
          | apply rooms_but_update, update_room_lookup; exact Hroom ]
        | split; reflexivity ]
    end.
Qed.

Lemma collectSword_effect g k room g1 :
  runCallback (call_collectSword (Some k)) g = Ok g1 ->
  roomsOf g !! k = Some room ->
  playerLogic g1 = Player.collectItem "Sword" (playerLogic g) /\
  exists room',
    rooms_but (roomsOf g) (roomsOf g1) k room' /\
    Room.entity room' = None /\ Room.isChoiceRoom room' = Room.isChoiceRoom room.
Proof.
  cbn [runCallback]. cbv zeta. intros [= <-] Hroom. norm_addAction.
  split; [apply playerLogic_update_room |].
  unfold roomsOf, update_room, set_playerLogic.
  cbn [set_currentState set_dungeonLogic set_actionsLog dungeonLogic].
  eexists. split;
    [apply (rooms_but_update (Dungeon.set_player _ (dungeonLogic g)) k _ room); exact Hroom |].
  split; reflexivity.
Qed.

Lemma loot_inv_eq g g' :
  roomsOf g' = roomsOf g ->
  Player.health (playerLogic g') = Player.health (playerLogic g) ->
  Player.inventory (playerLogic g') = Player.inventory (playerLogic g) ->
  Player.finalBossDefeated (playerLogic g') = Player.finalBossDefeated (playerLogic g) ->
  loot_inv g -> loot_inv g'.
Proof.
  intros Hr Hh Hi Hb [H1 H2 H3 H4 H5 H6 H7].
  split;
    unfold hasSword, hasKey, bossDefeated, Player.hasItem, Player.isFinalBossDefeated in *;
    rewrite ?Hr, ?Hh, ?Hi, ?Hb; assumption.
Qed.

Lemma loot_inv_dungeon g g' : dungeonLogic g' = dungeonLogic g -> loot_inv g -> loot_inv g'.
Proof.
  intros Hd. apply loot_inv_eq; unfold roomsOf, playerLogic; rewrite Hd; reflexivity.
Qed.

Lemma loot_inv_start playerName g : loot_inv (startGameplay playerName g).
Proof.
  pose proof (core_startGameplay playerName g) as Hcore.
  apply core_fields' in Hcore. destruct Hcore as (Hd & _ & _).
  assert (Hdungeon : setupDungeon (Dungeon.new (Player.new playerName 100 10)) =
                     Dungeon.mk startRooms (Some 0%nat) (Some 0%nat)
                       (Player.new playerName 100 10) Stack.empty)
    by (vm_compute; reflexivity).
  rewrite Hdungeon in Hd.
  split; unfold hasSword, hasKey, bossDefeated, roomsOf, playerLogic; rewrite Hd;
    cbn [Dungeon.player Dungeon.rooms Player.new Player.health Player.inventory
         Inventory.empty Inventory.items].
  - lia.
  - constructor.
  - intros item [].
  - reflexivity.
  - discriminate.
  - intros _. vm_compute. discriminate.
  - discriminate.
Qed.

(** The rooms of the minions before the boss chamber are cleared when
    the player stands in it. *)
Lemma minions_cleared g b :
  rooms_le startRooms (roomsOf g) -> at_position g 7 b -> minionDamage (roomsOf g) = 40.
Proof.
  intros Hle Hat. destruct Hat as (_ & _ & _ & _ & _ & _ & Hbehind).
  assert (Hlen : length (roomsOf g) = 9%nat)
    by (rewrite <- (Forall2_length _ _ _ Hle); reflexivity).
  assert (Hc : forall i, In i [1; 2; 3; 6]%nat -> cleared (roomsOf g) i = true).
  { intros i Hi.
    assert (Hlt : (i < 7)%nat) by (simpl in Hi; lia).
    destruct (lookup_lt_is_Some_2 (roomsOf g) i) as [r Hr]; [lia |].
    specialize (Hbehind i r Hlt Hr).
    pose proof (shape_of _ _ _ Hle Hr) as Hs.
    unfold cleared. rewrite Hr. unfold stateOf in Hbehind.
    destruct (Room.entity r) as [e |] eqn:He; [| reflexivity].
    exfalso. pose proof (shape_entity _ _ Hs e He) as Hin.
    unfold startEntities in Hin. simpl in Hin, Hi.
    repeat destruct Hin as [Hin | Hin]; try contradiction;
      injection Hin as Hk <-; try discriminate Hbehind; lia. }
  unfold minionDamage.
  rewrite !Hc by (simpl; auto). reflexivity.
Qed.

Lemma minionDamage_but l l' k r' :
  rooms_but l l' k r' -> ~ In k [1; 2; 3; 6]%nat -> minionDamage l' = minionDamage l.
Proof.
  intros Hbut Hk. unfold minionDamage.
  rewrite !(cleared_but _ _ _ _ _ Hbut).
  simpl in Hk.
  destruct (Nat.eqb_spec 1 k); [lia |]. destruct (Nat.eqb_spec 2 k); [lia |].
  destruct (Nat.eqb_spec 3 k); [lia |]. destruct (Nat.eqb_spec 6 k); [lia |].
  reflexivity.
Qed.

(** The minion in room [k] does the damage below. *)
Lemma minionDamage_cleared l l' k r r' (c : EnemyClass) (n : string) (damage : Z) :
  l !! k = Some r -> Room.entity r = Some (Enemy c n damage) ->
  In (k, Enemy c n damage) startEntities -> c <> BossEnemy ->
  rooms_but l l' k r' -> Room.entity r' = None ->
  minionDamage l' = minionDamage l + damage.
Proof.
  intros Hr He Hin Hc Hbut He'. unfold minionDamage.
  rewrite !(cleared_but _ _ _ _ _ Hbut), He'.
  assert (Hk : cleared l k = false) by (unfold cleared; rewrite Hr, He; reflexivity).
  unfold startEntities in Hin. simpl in Hin.
  repeat destruct Hin as [Hin | Hin]; try contradiction;
    injection Hin as <-; try discriminate; subst; try congruence;
    cbn [Nat.eqb]; rewrite Hk; lia.
Qed.

Lemma loot_inv_callback g cb g1 :
  nav_inv g -> loot_inv g ->
  onTransitionComplete g = Some cb -> runCallback cb g = Ok g1 ->
  loot_inv g1.
Proof.
  intros [Hpos Hstate Hpending] Hloot Hcb Hrun.
  destruct (Hpending _ Hcb) as (Hst & _ & Hsword).
  pose proof Hpos as [Hle _ (k & b & Hat)].
  destruct (here_lookup g k b Hle Hat) as (r & Hr & Hobj & Hhere & Hs).
  pose proof (proj1 Hat) as Hk.
  rewrite Hhere in Hstate. rewrite Hstate in Hst.
  destruct cb; cbn [stateFor] in Hst.
  - (* forward *)
    cbn [runCallback] in Hrun. cbv zeta in Hrun. injection Hrun as <-.
    apply (loot_inv_eq g); [| | | | exact Hloot];
      unfold roomsOf, playerLogic; cbn [set_dungeonLogic dungeonLogic set_m_isNewRoomEntry];
      unfold Dungeon.moveForward; destruct (Dungeon.canMoveForward _); reflexivity.
  - (* back *)
    cbn [runCallback] in Hrun. cbv zeta in Hrun.
    cbn [set_m_isNewRoomEntry dungeonLogic] in Hrun.
    unfold Dungeon.moveBack in Hrun.
    destruct (Dungeon.canMoveBack _).
    + cbv zeta in Hrun. destruct (Stack.top _); cbn [rbind] in Hrun; [| discriminate].
      injection Hrun as <-. apply (loot_inv_eq g); [| | | | exact Hloot]; reflexivity.
    + cbn [rbind] in Hrun. injection Hrun as <-.
      apply (loot_inv_eq g); [| | | | exact Hloot]; reflexivity.
  - (* the sword *)
    destruct (Hsword room eq_refl) as [-> Hin]. rewrite Hk in Hrun.
    unfold inSwordRoomWithSword in Hin. rewrite Hobj in Hin.
    destruct (Room.entity r) as [e |] eqn:He; [| discriminate].
    apply andb_true_iff in Hin as [_ Hname].
    apply String.eqb_eq, (shape_name _ _ Hs) in Hname. subst k.
    destruct (collectSword_effect g 4 r g1 Hrun Hr) as (Hp & r' & Hbut & He' & Hc').
    destruct Hloot as [H1 H2 H3 H4 H5 H6 H7].
    assert (Hno : hasSword g = false)
      by (rewrite H4; unfold cleared; rewrite Hr, He; reflexivity).
    assert (Hkey : hasKey g1 = hasKey g).
    { unfold hasKey. rewrite Hp. apply has_add_other. discriminate. }
    assert (Hopen : choiceOpen (roomsOf g1) = choiceOpen (roomsOf g))
      by (rewrite (choiceOpen_but _ _ _ _ Hbut); reflexivity).
    assert (Hmd : minionDamage (roomsOf g1) = minionDamage (roomsOf g))
      by (apply (minionDamage_but _ _ _ _ Hbut); simpl; lia).
    split; rewrite ?Hkey, ?Hopen, ?Hmd; try assumption.
    + rewrite Hp. exact H1.
    + rewrite Hp. unfold Player.collectItem. cbn [Player.set_inventory Player.inventory].
      rewrite items_add.
      apply List.NoDup_app; [exact H2 | repeat constructor; intros [] |].
      intros x Hx [<- | []]. apply has_In in Hx. unfold hasSword, Player.hasItem in Hno.
      congruence.
    + intros item. rewrite Hp. unfold Player.collectItem.
      cbn [Player.set_inventory Player.inventory]. rewrite items_add, in_app_iff.
      intros [Hi | [<- | []]]; [apply H3, Hi | left; reflexivity].
    + unfold hasSword. rewrite Hp. unfold Player.hasItem, Player.collectItem.
      cbn [Player.set_inventory Player.inventory]. rewrite has_add.
      rewrite (cleared_but _ _ _ _ _ Hbut). cbn [Nat.eqb]. rewrite He'. reflexivity.
    + rewrite Hp. exact H6.
    + intros _ Hfalse. exfalso. revert Hfalse. unfold hasSword. rewrite Hp.
      unfold Player.hasItem, Player.collectItem.
      cbn [Player.set_inventory Player.inventory]. rewrite has_add. discriminate.
  - (* the fight *)
    cbn [runCallback] in Hrun. injection Hrun as <-.
    unfold stateOf in Hst.
    destruct (Room.entity r) as [[c n | c n damage] |] eqn:He;
      [discriminate Hst | | destruct (Room.isChoiceRoom r); discriminate Hst].
    pose proof (shape_entity _ _ Hs _ He) as Hin.
    pose proof (handleCombat_player g r c n damage Hobj He) as Hp.
    pose proof (handleCombat_rooms g k r c n damage Hk Hr He) as Hrooms.
    cbv zeta in Hp, Hrooms.
    set (eff := effectiveDamageOf c damage (playerLogic g)) in *.
    set (p1 := fst (Player.takeDamage eff (playerLogic g))) in *.
    destruct Hloot as [H1 H2 H3 H4 H5 H6 H7].
    assert (Heff : 0 <= eff <= 100 /\ (c <> BossEnemy -> eff = damage) /\
                   (c = BossEnemy -> k = 7%nat /\
                      eff = if hasSword g then 50 else 75)).
    { unfold eff, effectiveDamageOf, hasSword.
      unfold startEntities in Hin. simpl in Hin.
      repeat destruct Hin as [Hin | Hin]; try contradiction;
        try (injection Hin as _ Hin; discriminate Hin);
        injection Hin as <- <- <- <-;
        cbv beta iota;
        (split; [try destruct (Player.hasItem "Sword" _); lia |]);
        (split; [intros Hc; try reflexivity; congruence |]);
        intros Hb; try discriminate Hb; split; reflexivity. }
    destruct Heff as (Heff0 & Hminion & Hboss).
    assert (Hh1 : Player.health p1 = Z.max 0 (Player.health (playerLogic g) - eff))
      by (apply takeDamage_health_small; unfold INT_MIN, INT_MAX; lia).
    assert (Hinv1 : Player.inventory p1 = Player.inventory (playerLogic g)) by reflexivity.
    assert (Hflag1 : Player.finalBossDefeated p1 = Player.finalBossDefeated (playerLogic g))
      by reflexivity.
    destruct (Z.leb_spec (Player.health p1) 0) as [Hdead | Halive].
    + (* the player dies *)
      split; unfold hasSword, hasKey, bossDefeated, Player.hasItem,
             Player.isFinalBossDefeated in *;
        rewrite ?Hp, ?Hrooms, ?Hinv1, ?Hflag1; try assumption; try lia.
      intros Hante. specialize (H6 Hante). lia.
    + (* the player survives *)
      destruct Hrooms as (r' & Hbut & He' & Hc').
      assert (Hk4 : k <> 4%nat /\ k <> 5%nat).
      { unfold startEntities in Hin. simpl in Hin.
        repeat destruct Hin as [Hin | Hin]; try contradiction;
          injection Hin as <-; split; discriminate. }
      destruct Hk4 as [Hk4 Hk5].
      assert (Hopen : choiceOpen (roomsOf (handleCombat g)) = choiceOpen (roomsOf g)).
      { rewrite (choiceOpen_but _ _ _ _ Hbut).
        destruct (Nat.eqb_spec 5 k); [congruence | reflexivity]. }
      assert (Hcl4 : cleared (roomsOf (handleCombat g)) 4 = cleared (roomsOf g) 4).
      { rewrite (cleared_but _ _ _ _ _ Hbut).
        destruct (Nat.eqb_spec 4 k); [congruence | reflexivity]. }
      assert (Hinv' : Player.inventory (playerLogic (handleCombat g))
                      = Player.inventory (playerLogic g)).
      { rewrite Hp. destruct (is_BossEnemy _); reflexivity. }
      assert (Hh' : Player.health (playerLogic (handleCombat g))
                    = Player.health (playerLogic g) - eff).
      { rewrite Hp. destruct (is_BossEnemy _); cbn [Player.setBossDefeated Player.health];
          lia. }
      assert (Hmd : Player.health (playerLogic (handleCombat g))
                    + minionDamage (roomsOf (handleCombat g))
                    <= Player.health (playerLogic g) + minionDamage (roomsOf g)).
      { rewrite Hh'. destruct c.
        - rewrite (minionDamage_cleared _ _ k r r' _ n damage Hr He Hin ltac:(discriminate) Hbut He').
          rewrite (Hminion ltac:(discriminate)). lia.
        - rewrite (minionDamage_cleared _ _ k r r' _ n damage Hr He Hin ltac:(discriminate) Hbut He').
          rewrite (Hminion ltac:(discriminate)). lia.
        - destruct (Hboss eq_refl) as [-> _].
          rewrite (minionDamage_but _ _ _ _ Hbut) by (simpl; lia). lia. }
      split; unfold hasSword, hasKey, bossDefeated, Player.hasItem,
             Player.isFinalBossDefeated in *;
        rewrite ?Hinv', ?Hopen, ?Hcl4; try assumption; try lia.
      * intros Hante. specialize (H6 Hante). lia.
      * intros Hflag Hnosword. rewrite Hp in Hflag.
        destruct c; cbn [is_BossEnemy] in Hflag;
          try (apply H7; [rewrite <- Hflag1; exact Hflag | exact Hnosword]).
        destruct (Hboss eq_refl) as [-> Heq].
        unfold hasSword, Player.hasItem in Heq. rewrite Hnosword in Heq.
        pose proof (minions_cleared g b Hle Hat) as H40.
        destruct (choiceOpen (roomsOf g)) eqn:Ho;
          [specialize (H6 (or_introl eq_refl)); lia |].
        destruct (Inventory.has "Golden Key" (Player.inventory (playerLogic g))) eqn:Hkey;
          [specialize (H6 (or_intror eq_refl)); lia |].
        split; reflexivity.
  - (* the choice *)
    cbn [runCallback] in Hrun. injection Hrun as <-.
    unfold stateOf in Hst.
    destruct (Room.entity r) as [e |] eqn:He;
      [destruct (is_Enemy e); discriminate Hst |].
    destruct (Room.isChoiceRoom r) eqn:Hc; [| discriminate Hst].
    pose proof (shape_choice _ _ Hs Hc) as H5eq. subst k.
    destruct (handleChoice_open g 5 r choice Hk Hr Hc) as (Hp & _).
    destruct (handleChoice_rooms g 5 r choice Hk Hr Hc) as (r' & Hbut & He' & Hc').
    destruct Hloot as [H1 H2 H3 H4 H5 H6 H7].
    assert (Hwas : choiceOpen (roomsOf g) = true)
      by (unfold choiceOpen; rewrite Hr; exact Hc).
    assert (Hnokey : hasKey g = false).
    { destruct (hasKey g) eqn:Hkey; [| reflexivity].
      specialize (H5 eq_refl). congruence. }
    assert (Hopen : choiceOpen (roomsOf (handleChoice choice g)) = false)
      by (rewrite (choiceOpen_but _ _ _ _ Hbut); exact Hc').
    assert (Hcl4 : cleared (roomsOf (handleChoice choice g)) 4 = cleared (roomsOf g) 4)
      by (rewrite (cleared_but _ _ _ _ _ Hbut); reflexivity).
    assert (Hmd : minionDamage (roomsOf (handleChoice choice g)) = minionDamage (roomsOf g))
      by (apply (minionDamage_but _ _ _ _ Hbut); simpl; lia).
    assert (Hnoboss : bossDefeated g = true -> hasSword g = false -> False).
    { intros Hb Hsw. destruct (H7 Hb Hsw) as [Hclosed _]. congruence. }
    destruct (choice =? 1).
    + (* the key *)
      assert (Hsw : hasSword (handleChoice choice g) = hasSword g).
      { unfold hasSword. rewrite Hp. apply has_add_other. discriminate. }
      split; rewrite ?Hopen, ?Hcl4, ?Hmd, ?Hsw; try assumption; try reflexivity.
      * rewrite Hp. exact H1.
      * rewrite Hp. unfold Player.collectItem. cbn [Player.set_inventory Player.inventory].
        rewrite items_add.
        apply List.NoDup_app; [exact H2 | repeat constructor; intros [] |].
        intros x Hx [<- | []]. apply has_In in Hx. unfold hasKey, Player.hasItem in Hnokey.
        congruence.
      * intros item. rewrite Hp. unfold Player.collectItem.
        cbn [Player.set_inventory Player.inventory]. rewrite items_add, in_app_iff.
        intros [Hi | [<- | []]]; [apply H3, Hi | right; reflexivity].
      * intros _. rewrite Hp. cbn [Player.collectItem Player.set_inventory Player.health].
        apply H6. left. exact Hwas.
      * intros Hb Hs'. exfalso. apply Hnoboss; [| exact Hs'].
        unfold bossDefeated in *. rewrite Hp in Hb. exact Hb.
    + (* the potion *)
      assert (Hsw : hasSword (handleChoice choice g) = hasSword g)
        by (unfold hasSword; rewrite Hp; reflexivity).
      assert (Hkey : hasKey (handleChoice choice g) = false)
        by (unfold hasKey in *; rewrite Hp; exact Hnokey).
      split; rewrite ?Hopen, ?Hcl4, ?Hmd, ?Hsw, ?Hkey; try assumption; try reflexivity.
      * rewrite Hp, heal_health_small; unfold INT_MIN, INT_MAX; lia.
      * rewrite Hp. exact H2.
      * rewrite Hp. exact H3.
      * intros [Hf | Hf]; discriminate Hf.
      * intros _ _. split; reflexivity.
  - (* after a message *)
    exfalso. exact (stateOf_not_MESSAGE _ Hst).
Qed.

Lemma dungeonLogic_handleEvent event g : dungeonLogic (handleEvent event g) = dungeonLogic g.
Proof.
  unfold handleEvent.
  destruct event as [code |]; [| reflexivity].
  destruct (transitionState g) eqn:Htr; try reflexivity.
  destruct (currentState g), code; try reflexivity;
    repeat match goal with
           | |- context [if ?b then _ else _] => destruct b
           end;
    try reflexivity;
    try (unfold startTransition; rewrite Htr; reflexivity);
    try apply dungeonLogic_triggerGameOver;
    try apply (core_fields _ _ (core_changeScreen _ _)).
  rewrite dungeonLogic_triggerGameOver. apply dungeonLogic_addAction.
Qed.

Lemma dungeonLogic_checkRoomState g :
  pos_inv g -> dungeonLogic (checkRoomState g) = dungeonLogic g.
Proof.
  intros [Hle _ (k & b & Hat)].
  destruct (here_lookup g k b Hle Hat) as (r & Hr & _ & _ & Hs).
  apply (core_fields' _ _ _ _ (checkRoomState_core g k r (proj1 Hat) Hr Hs)).
Qed.

Lemma core_handleScreenTransition elapsed g :
  nav_inv g -> core (handleScreenTransition elapsed g) = core g.
Proof.
  intros Hinv. unfold handleScreenTransition.
  destruct (currentTransition g); [reflexivity | |]; destruct elapsed; try reflexivity.
  cbv zeta. cbn [currentStateID set_currentStateID].
  destruct (nextStateID g); try reflexivity.
  change (core (checkRoomState
                  (addAction "Your adventure begins..."
                     (set_m_isNewRoomEntry true
                        (set_actionsLog [] (set_currentStateID GameStateID.GAMEPLAY g)))))
          = core g).
  apply checkRoomState_idle; [| exact Hinv].
  rewrite core_addAction. reflexivity.
Qed.

Lemma loot_inv_GamePlayScreen_update elapsed g g' :
  nav_inv g -> loot_inv g -> GamePlayScreen_update elapsed g = Ok g' -> loot_inv g'.
Proof.
  intros Hinv Hloot. unfold GamePlayScreen_update.
  destruct (transitionState g); destruct elapsed;
    try (intros [= <-]; exact Hloot);
    try (intros [= <-]; apply (loot_inv_dungeon g); [reflexivity | exact Hloot]).
  unfold completeTransition.
  assert (Hfinish : forall g1, pre_inv g1 -> loot_inv g1 ->
            (if Player.getMoves (playerLogic g1) <? 0
             then Ok (triggerGameOver "You have run out of moves." g1)
             else Ok (set_transitionState GpTransitionState.FADING_IN (checkRoomState g1)))
            = Ok g' -> loot_inv g').
  { intros g1 Hpre Hloot1.
    destruct (_ <? 0); intros [= <-].
    - apply (loot_inv_dungeon g1); [apply dungeonLogic_triggerGameOver | exact Hloot1].
    - apply (loot_inv_dungeon g1); [| exact Hloot1].
      apply (dungeonLogic_checkRoomState g1), Hpre. }
  destruct (onTransitionComplete g) as [cb |] eqn:Hcb; cbn [rbind].
  - destruct (runCallback cb g) as [g1 |] eqn:Hrun; cbn [rbind]; [| discriminate].
    apply Hfinish; [eapply pre_inv_callback; eassumption |].
    apply (loot_inv_dungeon g1); [reflexivity |].
    eapply loot_inv_callback; eassumption.
  - apply Hfinish; [| exact Hloot]. destruct Hinv as [Hpos Hstate _].
    split; [exact Hpos | | exact Hcb].
    intros Hfinal. pose proof Hpos as [Hle _ (k & b & Hat)].
    apply (final_door_state g g k b Hle Hat (frame_refl g) Hstate Hfinal).
Qed.

Lemma loot_inv_step i g g' : nav_inv g -> loot_inv g -> step i g = Ok g' -> loot_inv g'.
Proof.
  intros Hinv Hloot. destruct i as [event | screenElapsed gameElapsed]; cbn [step].
  - intros [= <-]. unfold processEvents.
    destruct (currentTransition g); try exact Hloot.
    destruct (currentStateID g); try exact Hloot.
    + apply (loot_inv_dungeon g); [apply dungeonLogic_handleEvent | exact Hloot].
    + destruct (gameOverScreen g); [| exact Hloot].
      unfold GameOverScreen_handleEvent. destruct event as [[] |]; try exact Hloot.
      apply (loot_inv_dungeon g); [| exact Hloot].
      apply (core_fields _ _ (core_changeScreen _ _)).
  - unfold Game_update.
    destruct (match currentTransition g with
              | TransitionState.NONE => _ | _ => _ end) as [g1 |] eqn:Hscr;
      cbn [rbind]; [| discriminate].
    intros [= <-].
    assert (H1 : nav_inv g1 /\ loot_inv g1).
    { destruct (currentTransition g); try (injection Hscr as <-; auto).
      destruct (currentStateID g); try (injection Hscr as <-; auto).
      split; [eapply nav_inv_GamePlayScreen_update; eassumption
             | eapply loot_inv_GamePlayScreen_update; eassumption]. }
    destruct H1 as [Hinv1 Hloot1].
    apply (loot_inv_dungeon g1); [| exact Hloot1].
    apply (core_fields _ _ (core_handleScreenTransition gameElapsed g1 Hinv1)).
Qed.

Lemma reachable_loot g : reachable g -> loot_inv g.
Proof.
  induction 1 as [playerName g0 _ _ | i g g' Hreach IH Hstep].
  - apply loot_inv_start.
  - eapply loot_inv_step; [apply reachable_nav, Hreach | exact IH | exact Hstep].
Qed.

(** X20: all along a session the inventory holds nothing but the Sword
    and the Golden Key, each at most once; the Sword is held exactly
    when it is gone from its chamber, room 4 of the chain, and the key
    only once the choice of room 5 is made. *)
Theorem inventory_of_a_session (g : Game) :
  reachable g ->
  List.NoDup (Inventory.items (Player.inventory (playerLogic g))) /\
  (forall item, Player.hasItem item (playerLogic g) = true ->
     item = "Sword" \/ item = "Golden Key") /\
  hasSword g = cleared (roomsOf g) 4 /\
  (hasKey g = true -> choiceOpen (roomsOf g) = false).
Proof.
  intros Hreach. destruct (reachable_loot g Hreach) as [_ H2 H3 H4 H5 _ _].
  split; [exact H2 |]. split; [| split; assumption].
  intros item Hitem. apply H3, has_In, Hitem.
Qed.

Lemma inventory_of_a_session_witness :
  hasSword at_boss = true /\ cleared (roomsOf at_boss) 4 = true.
Proof.
  assert (H : hasSword at_boss = true) by (vm_compute; reflexivity).
  split; [exact H |].
  destruct (inventory_of_a_session at_boss (state_after_reachable _)) as (_ & _ & <- & _).
  exact H.
Defined.

(** X21: no victory without the Sword.  All along a session, a player
    who holds the Golden Key and has defeated the final boss holds the
    Sword: having taken the key and not the potion, the player reaches
    the boss with the 60 health the four minions leave, and the 75
    damage of the boss fought without the Sword is deadly. *)
Theorem victory_needs_the_sword (g : Game) :
  reachable g ->
  hasKey g = true -> bossDefeated g = true -> hasSword g = true.
Proof.
  intros Hreach Hkey Hboss. destruct (reachable_loot g Hreach) as [_ _ _ _ _ _ H7].
  destruct (hasSword g) eqn:Hsword; [reflexivity |].
  destruct (H7 Hboss eq_refl) as [_ Hno]. congruence.
Qed.

Lemma victory_needs_the_sword_witness :
  hasKey (state_after to_final_door) = true /\
  bossDefeated (state_after to_final_door) = true /\
  hasSword (state_after to_final_door) = true.
Proof.
  assert (Hkey : hasKey (state_after to_final_door) = true) by (vm_compute; reflexivity).
  assert (Hboss : bossDefeated (state_after to_final_door) = true)
    by (vm_compute; reflexivity).
  split; [exact Hkey | split; [exact Hboss |]].
  exact (victory_needs_the_sword _ (state_after_reachable to_final_door) Hkey Hboss).
Defined.

(* ================================================================= *)
(** * The potion and the key *)

(** What a step does to the dungeon and the player: nothing, or what the
    closure that was waiting does. *)
Lemma step_dungeon i g g' :
  nav_inv g -> step i g = Ok g' ->
  dungeonLogic g' = dungeonLogic g \/
  exists cb g1, onTransitionComplete g = Some cb /\ runCallback cb g = Ok g1 /\
                dungeonLogic g' = dungeonLogic g1.
Proof.
  intros Hinv. destruct i as [event | screenElapsed gameElapsed]; cbn [step].
  - intros [= <-]. left. unfold processEvents.
    destruct (currentTransition g); try reflexivity.
    destruct (currentStateID g); try reflexivity.
    + apply dungeonLogic_handleEvent.
    + destruct (gameOverScreen g); [| reflexivity].
      unfold GameOverScreen_handleEvent. destruct event as [[] |]; try reflexivity.
      apply (core_fields _ _ (core_changeScreen _ _)).
  - intros Hup. pose proof Hup as Hup'. unfold Game_update in Hup.
    destruct (match currentTransition g with
              | TransitionState.NONE => _ | _ => _ end) as [g1 |] eqn:Hscr;
      cbn [rbind] in Hup; [| discriminate].
    injection Hup as <-.
    assert (H1 : nav_inv g1 /\
                 (dungeonLogic g1 = dungeonLogic g \/
                  exists cb g2, onTransitionComplete g = Some cb /\
                                runCallback cb g = Ok g2 /\
                                dungeonLogic g1 = dungeonLogic g2)).
    { destruct (currentTransition g); try (injection Hscr as <-; auto).
      destruct (currentStateID g); try (injection Hscr as <-; auto).
      split; [eapply nav_inv_GamePlayScreen_update; eassumption |].
      revert Hscr. unfold GamePlayScreen_update.
      destruct (transitionState g); destruct screenElapsed;
        try (intros [= <-]; left; reflexivity).
      unfold completeTransition.
      assert (Hfinish : forall g2, pre_inv g2 ->
                (if Player.getMoves (playerLogic g2) <? 0
                 then Ok (triggerGameOver "You have run out of moves." g2)
                 else Ok (set_transitionState GpTransitionState.FADING_IN
                            (checkRoomState g2)))
                = Ok g1 -> dungeonLogic g1 = dungeonLogic g2).
      { intros g2 Hpre. destruct (_ <? 0); intros [= <-].
        - apply dungeonLogic_triggerGameOver.
        - apply (dungeonLogic_checkRoomState g2), Hpre. }
      destruct (onTransitionComplete g) as [cb |] eqn:Hcb; cbn [rbind].
      - destruct (runCallback cb g) as [g2 |] eqn:Hrun; cbn [rbind]; [| discriminate].
        intros Hfin. right. exists cb, g2. split; [reflexivity | split; [exact Hrun |]].
        apply Hfinish in Hfin; [exact Hfin |].
        eapply pre_inv_callback; eassumption.
      - intros Hfin. left. apply Hfinish in Hfin; [exact Hfin |].
        destruct Hinv as [Hpos Hstate _]. split; [exact Hpos | | exact Hcb].
        intros Hfinal. pose proof Hpos as [Hle _ (k & b & Hat)].
        apply (final_door_state g g k b Hle Hat (frame_refl g) Hstate Hfinal). }
    destruct H1 as [Hinv1 Hd].
    rewrite (proj1 (core_fields _ _ (core_handleScreenTransition gameElapsed g1 Hinv1))).
    exact Hd.
Qed.

Lemma hasKey_callback g cb g1 :
  nav_inv g -> onTransitionComplete g = Some cb -> runCallback cb g = Ok g1 ->
  choiceOpen (roomsOf g) = false -> hasKey g1 = hasKey g.
Proof.
  intros [Hpos Hstate Hpending] Hcb Hrun Hclosed.
  destruct (Hpending _ Hcb) as (Hst & _ & Hsword).
  pose proof Hpos as [Hle _ (k & b & Hat)].
  destruct (here_lookup g k b Hle Hat) as (r & Hr & Hobj & Hhere & Hs).
  pose proof (proj1 Hat) as Hk.
  rewrite Hhere in Hstate. rewrite Hstate in Hst.
  destruct cb; cbn [stateFor] in Hst.
  - cbn [runCallback] in Hrun. cbv zeta in Hrun. injection Hrun as <-.
    unfold hasKey, playerLogic. cbn [set_dungeonLogic dungeonLogic set_m_isNewRoomEntry].
    unfold Dungeon.moveForward. destruct (Dungeon.canMoveForward _); reflexivity.
  - cbn [runCallback] in Hrun. cbv zeta in Hrun.
    cbn [set_m_isNewRoomEntry dungeonLogic] in Hrun.
    unfold Dungeon.moveBack in Hrun.
    destruct (Dungeon.canMoveBack _).
    + cbv zeta in Hrun. destruct (Stack.top _); cbn [rbind] in Hrun; [| discriminate].
      injection Hrun as <-. reflexivity.
    + cbn [rbind] in Hrun. injection Hrun as <-. reflexivity.
  - destruct (Hsword room eq_refl) as [-> _]. rewrite Hk in Hrun.
    destruct (collectSword_effect g k r g1 Hrun Hr) as (Hp & _).
    unfold hasKey. rewrite Hp. apply has_add_other. discriminate.
  - cbn [runCallback] in Hrun. injection Hrun as <-.
    unfold stateOf in Hst.
    destruct (Room.entity r) as [[c n | c n damage] |] eqn:He;
      [discriminate Hst | | destruct (Room.isChoiceRoom r); discriminate Hst].
    unfold hasKey. rewrite (handleCombat_player g r c n damage Hobj He).
    cbv zeta. destruct (_ <=? 0); [reflexivity |].
    destruct (is_BossEnemy _); reflexivity.
  - exfalso. unfold stateOf in Hst.
    destruct (Room.entity r) as [e |] eqn:He;
      [destruct (is_Enemy e); discriminate Hst |].
    destruct (Room.isChoiceRoom r) eqn:Hc; [| discriminate Hst].
    pose proof (shape_choice _ _ Hs Hc) as H5eq. subst k.
    unfold choiceOpen in Hclosed. rewrite Hr in Hclosed. congruence.
  - exfalso. exact (stateOf_not_MESSAGE _ Hst).
Qed.

Lemma choiceOpen_le l l' : rooms_le l l' -> choiceOpen l = false -> choiceOpen l' = false.
Proof.
  intros Hle. unfold choiceOpen.
  destruct (l' !! 5%nat) as [r' |] eqn:Hr'; [| reflexivity].
  destruct (Forall2_lookup_r _ _ _ _ _ Hle Hr') as (r & -> & Hroom).
  destruct (le_isChoiceRoom _ _ Hroom) as [-> | ->]; auto.
Qed.

(** X22: the potion forfeits the victory.  Once the choice is made and
    the key was not taken, no continuation of the session, whatever the
    inputs, brings the key; hence every game-over screen installed from
    then on announces a defeat. *)
Theorem potion_forfeits_victory (inputs : list Input) (g g' : Game) :
  reachable g ->
  choiceOpen (roomsOf g) = false ->
  hasKey g = false ->
  run inputs g = Ok g' ->
  hasKey g' = false /\
  (gameOverScreen g' = gameOverScreen g \/
   exists s, gameOverScreen g' = Some s /\ win s = false).
Proof.
  intros Hreach Hclosed Hkey Hrun.
  assert (Hgen : forall inputs g1 g2,
            reachable g1 -> choiceOpen (roomsOf g1) = false -> hasKey g1 = false ->
            (gameOverScreen g1 = gameOverScreen g \/
             exists s, gameOverScreen g1 = Some s /\ win s = false) ->
            run inputs g1 = Ok g2 ->
            hasKey g2 = false /\
            (gameOverScreen g2 = gameOverScreen g \/
             exists s, gameOverScreen g2 = Some s /\ win s = false)).
  { clear. intros inputs.
    induction inputs as [| i rest IH]; intros g1 g2 Hreach Hclosed Hkey Hscreen; cbn [run].
    - intros [= <-]. auto.
    - destruct (step i g1) as [g1' |] eqn:Hstep; cbn [rbind]; [| discriminate].
      pose proof (reachable_nav g1 Hreach) as Hinv.
      assert (Hkey' : hasKey g1' = false).
      { destruct (step_dungeon i g1 g1' Hinv Hstep) as [Hd | (cb & g3 & Hcb & Hcall & Hd)].
        - unfold hasKey, playerLogic in *. rewrite Hd. exact Hkey.
        - rewrite <- Hkey, <- (hasKey_callback g1 cb g3 Hinv Hcb Hcall Hclosed).
          unfold hasKey, playerLogic. rewrite Hd. reflexivity. }
      apply IH.
      + eapply reachable_step; eassumption.
      + eapply choiceOpen_le; [| exact Hclosed].
        apply (session_le_step _ _ _ Hstep).
      + exact Hkey'.
      + destruct (step_ending i g1 g1' Hstep) as [Hsame | (s & Hs & _ & Hwin)].
        * rewrite Hsame. exact Hscreen.
        * right. exists s. split; [exact Hs |].
          destruct (win s) eqn:Hw; [| reflexivity].
          destruct (Hwin eq_refl) as [Hk _]. congruence. }
  apply (Hgen inputs g g'); auto.
Qed.

Lemma potion_forfeits_victory_witness :
  exists g' s,
    run potion_to_the_door after_potion = Ok g' /\
    gameOverScreen g' = Some s /\ win s = false.
Proof.
  assert (Hclosed : choiceOpen (roomsOf after_potion) = false) by (vm_compute; reflexivity).
  assert (Hkey : hasKey after_potion = false) by (vm_compute; reflexivity).
  destruct (run potion_to_the_door after_potion) as [g' |] eqn:Hrun;
    [| vm_compute in Hrun; discriminate Hrun].
  destruct (potion_forfeits_victory potion_to_the_door after_potion g'
              (state_after_reachable _) Hclosed Hkey Hrun)
    as (_ & [Hsame | (s & Hs & Hw)]).
  - exfalso. vm_compute in Hrun. injection Hrun as <-. vm_compute in Hsame.
    discriminate Hsame.
  - exists g', s. split; [reflexivity | split; assumption].
Defined.

(** X23: the inventory line of the panel.  All along a session
    [getSortedString] of the inventory of the player is one of four
    texts: nothing, the sword, the key, or the key and the sword, in
    that order whichever was taken first. *)
Theorem inventory_line (g : Game) :
  reachable g ->
  In (Inventory.getSortedString (Player.inventory (playerLogic g)))
     ["Empty"; "Sword"; "Golden Key"; "Golden Key, Sword"].
Proof.
  intros Hreach. destruct (reachable_loot g Hreach) as [_ Hnodup Honly _ _ _ _].
  destruct (Player.inventory (playerLogic g)) as [items capacity].
  cbn [Inventory.items] in Hnodup, Honly.
  unfold Inventory.getSortedString, Inventory.current_size. cbn [Inventory.items].
  destruct items as [| a [| b [| c rest]]].
  - left. reflexivity.
  - destruct (Honly a (or_introl eq_refl)) as [-> | ->];
      [right; left | right; right; left]; reflexivity.
  - assert (Hab : a <> b).
    { inversion Hnodup as [| ? ? Hnotin _]; subst. intros ->. apply Hnotin. left.
      reflexivity. }
    destruct (Honly a (or_introl eq_refl)) as [-> | ->];
      destruct (Honly b (or_intror (or_introl eq_refl))) as [-> | ->];
      try congruence; right; right; right; left; vm_compute; reflexivity.
  - exfalso.
    inversion Hnodup as [| ? ? Ha Hrest]; subst.
    inversion Hrest as [| ? ? Hb _]; subst.
    destruct (Honly a (or_introl eq_refl)) as [-> | ->];
      destruct (Honly b (or_intror (or_introl eq_refl))) as [-> | ->];
      destruct (Honly c (or_intror (or_intror (or_introl eq_refl)))) as [-> | ->];
      first [ apply Ha; simpl; tauto | apply Hb; simpl; tauto ].
Qed.

Lemma inventory_line_witness :
  Inventory.getSortedString (Player.inventory (playerLogic (state_after to_final_door)))
  = "Golden Key, Sword".
Proof.
  assert (H : Inventory.items (Player.inventory (playerLogic (state_after to_final_door)))
              = ["Sword"; "Golden Key"]) by (vm_compute; reflexivity).
  destruct (inventory_line _ (state_after_reachable to_final_door))
    as [H0 | [H0 | [H0 | [H0 | []]]]];
    first [ symmetry; exact H0 | exfalso; vm_compute in H0; discriminate H0 ].
Defined.

(* ================================================================= *)
(** * Outside the gameplay screen *)

(** X24: the dungeon and the player belong to the gameplay screen.
    From the construction of the game on, a step taken while another
    screen is current, or during a change of screen, leaves them as they
    are, unless it is the name-input screen starting a new session, with
    the name typed, a new player and the dungeon of [setupDungeon].  The
    first update of the gameplay screen, [onEnter], finds nothing to
    change. *)
Theorem dungeon_is_for_gameplay (i : AppInput) (a a' : App) :
  App_reachable a ->
  currentStateID (game a) <> GameStateID.GAMEPLAY \/
  currentTransition (game a) <> TransitionState.NONE ->
  App_step i a = Ok a' ->
  dungeonLogic (game a') = dungeonLogic (game a) \/
  currentStateID (game a) = GameStateID.NAME_INPUT /\
  i = AppPoll (KeyDown Keyboard.Enter) /\
  dungeonLogic (game a') =
    setupDungeon (Dungeon.new (Player.new (playerNameRef (nameInputScreen a)) 100 10)).
Proof.
  intros Hreach Hout Hstep.
  destruct i as [event | screenElapsed gameElapsed]; cbn [App_step] in Hstep.
  - injection Hstep as <-. unfold App_processEvents.
    destruct (currentTransition (game a)) eqn:Htr; [| left; reflexivity ..].
    destruct (currentStateID (game a)) eqn:Hcur.
    + left. unfold processEvents. rewrite Htr, Hcur. reflexivity.
    + left. cbn [game]. unfold MenuScreen_handleEvent.
      destruct event as [u | [] |]; cbn [keyEvent]; try reflexivity.
      apply (core_fields _ _ (core_changeScreen _ _)).
    + unfold NameInputScreen_handleEvent.
      destruct (negb (isActive (nameInputScreen a))); [left; reflexivity |].
      destruct event as [u | code |]; try (left; reflexivity).
      destruct code; try (left; reflexivity).
      * destruct (negb (String.eqb (playerNameRef (nameInputScreen a)) ""));
          [| left; reflexivity].
        right. split; [reflexivity | split; [reflexivity |]]. cbn [game].
        apply startGameplay_dungeon.
      * left. cbn [game]. apply (core_fields _ _ (core_changeScreen _ _)).
    + exfalso. destruct Hout as [H | H]; congruence.
    + left. cbn [game]. unfold processEvents. rewrite Htr, Hcur.
      destruct (gameOverScreen (game a)); [| reflexivity].
      unfold GameOverScreen_handleEvent.
      destruct (keyEvent event) as [[] |]; try reflexivity.
      apply (core_fields _ _ (core_changeScreen _ _)).
  - left. pose proof (App_update_game _ _ _ _ Hstep) as Hflat.
    unfold Game_update in Hflat.
    assert (Hscr : match currentTransition (game a) with
                   | TransitionState.NONE =>
                       match currentStateID (game a) with
                       | GameStateID.GAMEPLAY =>
                           GamePlayScreen_update screenElapsed (game a)
                       | _ => Ok (game a)
                       end
                   | _ => Ok (game a)
                   end = Ok (game a)).
    { destruct (currentTransition (game a)); try reflexivity.
      destruct (currentStateID (game a)); try reflexivity.
      destruct Hout as [H | H]; congruence. }
    rewrite Hscr in Hflat. cbn [rbind] in Hflat. injection Hflat as Hflat.
    rewrite <- Hflat.
    pose proof (App_reachable_flow a Hreach) as [Hfl _].
    unfold handleScreenTransition.
    destruct (currentTransition (game a)) eqn:Htr; [reflexivity | |];
      destruct gameElapsed; try reflexivity.
    cbv zeta. cbn [currentStateID set_currentStateID].
    destruct (nextStateID (game a)) eqn:Hnext; try reflexivity.
    assert (Hsession : reachable (game a)).
    { apply (sessions_are_reachable_lemma a Hreach). right. right. exact Hnext. }
    pose proof (core_handleScreenTransition true (game a) (reachable_nav _ Hsession))
      as Hcore.
    unfold handleScreenTransition in Hcore. rewrite Htr in Hcore.
    cbv zeta in Hcore. cbn [currentStateID set_currentStateID] in Hcore.
    rewrite Hnext in Hcore. apply (core_fields _ _ Hcore).
Qed.

Lemma dungeon_is_for_gameplay_witness :
  dungeonLogic (game (App_processEvents (KeyDown Keyboard.Enter) (app_after typed_Al)))
  = setupDungeon (Dungeon.new (Player.new "Al" 100 10)).
Proof.
  assert (Hcur : currentStateID (game (app_after typed_Al)) <> GameStateID.GAMEPLAY)
    by (vm_compute; discriminate).
  assert (Hname : playerNameRef (nameInputScreen (app_after typed_Al)) = "Al")
    by (vm_compute; reflexivity).
  destruct (dungeon_is_for_gameplay (AppPoll (KeyDown Keyboard.Enter))
              (app_after typed_Al) _ (app_after_reachable typed_Al)
              (or_introl Hcur) eq_refl) as [Hsame | (_ & _ & Hnew)].
  - exfalso. apply (f_equal (fun d => length (Dungeon.rooms d))) in Hsame.
    vm_compute in Hsame. discriminate Hsame.
  - rewrite Hname in Hnew. exact Hnew.
Defined.
